(** * auto-draw-bot: the image-to-action pipeline of [auto_draw.py] and
      [auto_draw_cli.py]

    A shallow embedding of the colour matcher ([rgb2lab], [delta_e_cie94],
    [find_closest_color]), of the white-pixel marking of [process_image] and
    of the two drawing loops of [draw_image] (pixel style and outline style),
    of the colour helpers ([color_distance], [is_color_similar],
    [is_gray_or_white], [get_color_name]) and of the corner ordering of
    [select_drawing_area], followed by the properties established about
    them.

    Conventions.
    - In the matcher and the drawing loops Python floats are idealised as
      real numbers ([R]): rounding, overflow and NaN are outside that
      model.  Decimal literals of the source are the same decimal literals
      here.
    - [x ** 0.5] is partial on the reals ([pow_half]): a negative base makes
      Python answer a complex number, which the model reports as [None].
    - [delta_e_cie94] is embedded a second time on binary64 floats
      ([Binary64]), with the rounding of [+ - * /], the special cases and
      the exceptions of Python's [**] and [/], NaN and the infinities.  The
      C library's [pow], to which [**] hands a finite base above zero, is a
      parameter of that model.
    - Everything the drawing code does to the outside world is recorded, in
      order, in a trace of events: pointer actions, reads of the
      [stop_drawing] flag, message boxes, and the calls of [rgb2lab] and the
      palette scans of [find_closest_color].  The length of the trace is the
      clock against which the Esc key is pressed. *)

From Stdlib Require Import Reals Lra Lia ZArith List Bool Permutation Arith.
From Stdlib Require Import R_Ifp Rpower R_sqrt Sorted.
From Stdlib Require String DecimalString.
From Stdlib Require Floats.
Import ListNotations.

Set Implicit Arguments.

(* ================================================================== *)
(** ** Data *)
(* ================================================================== *)

(** A colour is the tuple [(r, g, b)] of the source. *)
Definition Color : Type := (Z * Z * Z)%type.

Definition Lab : Type := (R * R * R)%type.

Definition Palette : Type := list Color.

Definition Color_eqb (c d : Color) : bool :=
  let '(r1, g1, b1) := c in
  let '(r2, g2, b2) := d in
  (r1 =? r2)%Z && (g1 =? g2)%Z && (b1 =? b2)%Z.

(** The pointer and colour-selection calls made by the drawing loops.
    [SelectColor] stands for [set_target_color(color)] in pixel style and
    for the click on the registered position of the colour in outline
    style; [DragTo] is a [moveTo] issued while the button is held. *)
Inductive Action : Type :=
| SelectColor (c : Color)
| MoveTo (x y : R)
| Click
| PressDown
| DragTo (x y : R)
| Release.

Inductive Notice : Type :=
| NoOutlinePixels        (* showinfo "No outline pixels found in the image" *)
| SelectBlackPrompt      (* showinfo "Please click on the black color ..." *)
| DrawError.             (* showerror "Failed to draw image: ..." *)

Inductive Event : Type :=
| EPoll                  (* one read of self.stop_drawing *)
| EAct (a : Action)      (* one actuator call *)
| ELab (c : Color)       (* one call rgb2lab(c) *)
| EScan (c : Color)      (* one run of the palette loop for query c *)
| EInfo (n : Notice).    (* one message box *)

Definition Trace : Type := list Event.

Definition is_act (e : Event) : bool :=
  match e with EAct _ => true | _ => false end.

(** The actuator calls of a trace, in order, and their number. *)
Definition actions (t : Trace) : list Action :=
  flat_map (fun e => match e with EAct a => [a] | _ => [] end) t.

Definition count_act (t : Trace) : nat := length (actions t).

(* ================================================================== *)
(** ** The trace monad *)
(* ================================================================== *)

(** A computation reads the trace so far and extends it at its end. *)
Definition M (A : Type) : Type := Trace -> A * Trace.

Definition ret {A} (a : A) : M A := fun s => (a, s).

Definition bind {A B} (m : M A) (f : A -> M B) : M B :=
  fun s => let '(a, s1) := m s in f a s1.

Definition emit (e : Event) : M unit := fun s => (tt, s ++ [e]).

Declare Scope m_scope.
Delimit Scope m_scope with m.
Notation "x <- c1 ;; c2" := (bind c1 (fun x => c2))
  (at level 61, c1 at next level, right associativity) : m_scope.
Notation "c1 ;;; c2" := (bind c1 (fun _ => c2))
  (at level 61, right associativity) : m_scope.

(** The Esc key: [stop n] tells whether [self.stop_drawing] reads [True]
    once [n] events have happened.  [draw_image] clears the flag on entry
    and only the key handler sets it. *)
Definition Oracle : Type := nat -> bool.

Definition never : Oracle := fun _ => false.

(** The key is pressed when [T] events have happened. *)
Definition stop_after (T : nat) : Oracle := fun n => (T <=? n)%nat.

Definition poll (stop : Oracle) : M bool :=
  fun s => (stop (length s), s ++ [EPoll]).

(* ================================================================== *)
(** ** ColorSpace: [rgb2lab] and [delta_e_cie94] *)
(* ================================================================== *)

Module ColorSpace.

Local Open Scope R_scope.

(** [x ** 0.5]. *)
Definition pow_half (x : R) : option R :=
  if Rlt_dec x 0 then None else Some (sqrt x).

(** The value of a float expression that cannot leave the reals. *)
Definition float_of (o : option R) : R :=
  match o with Some r => r | None => 0 end.

Definition srgb (r : R) : R :=
  if Rlt_dec 0.04045 r then Rpower ((r + 0.055) / 1.055) 2.4
  else r / 12.92.

Definition lab_f (x : R) : R :=
  if Rlt_dec 0.008856 x then Rpower x (1 / 3)
  else (7.787 * x) + (16 / 116).

Definition rgb2lab (rgb : Color) : Lab :=
  let '(r, g, b) := rgb in
  let r := IZR r / 255.0 in
  let g := IZR g / 255.0 in
  let b := IZR b / 255.0 in
  let r := srgb r in
  let g := srgb g in
  let b := srgb b in
  let x := (r * 0.4124 + g * 0.3576 + b * 0.1805) * 100 in
  let y := (r * 0.2126 + g * 0.7152 + b * 0.0722) * 100 in
  let z := (r * 0.0193 + g * 0.1192 + b * 0.9505) * 100 in
  let x := x / 95.047 in
  let y := y / 100.0 in
  let z := z / 108.883 in
  let x := lab_f x in
  let y := lab_f y in
  let z := lab_f z in
  let L := (116 * y) - 16 in
  let a := 500 * (x - y) in
  let b := 200 * (y - z) in
  (L, a, b).

(** The guarded hue term: [dH] from [dhSquared]. *)
Definition hue_term (dhSquared : R) : option R :=
  if Rlt_dec dhSquared 0 then Some 0 else pow_half dhSquared.

Definition delta_e_cie94 (lab1 lab2 : Lab) : option R :=
  let '(L1, a1, b1) := lab1 in
  let '(L2, a2, b2) := lab2 in
  let dL := L1 - L2 in
  let da := a1 - a2 in
  let db := b1 - b2 in
  match pow_half (a1 ^ 2 + b1 ^ 2), pow_half (a2 ^ 2 + b2 ^ 2) with
  | Some c1, Some c2 =>
      let dC := c1 - c2 in
      let dhSquared := da ^ 2 + db ^ 2 - dC ^ 2 in
      match hue_term dhSquared with
      | Some dH =>
          let kL := 1 in
          let k1 := 0.045 in
          let k2 := 0.015 in
          let sl := 1 in
          let sc := 1 + k1 * c1 in
          let sh := 1 + k2 * c1 in
          pow_half ((dL / (kL * sl)) ^ 2 + (dC / sc) ^ 2 + (dH / sh) ^ 2)
      | None => None
      end
  | _, _ => None
  end.

End ColorSpace.

(* ================================================================== *)
(** ** Binary64: [delta_e_cie94] on Python floats *)
(* ================================================================== *)

Set Warnings "-inexact-float".

Module Binary64.

Import Floats.PrimFloat Floats.SpecFloat Floats.FloatOps Floats.FloatAxioms.
Local Open Scope float_scope.

(** What a float expression comes to: a float, a complex number (a
    number below zero to the power 0.5), or an exception. *)
Inductive Outcome (A : Type) : Type :=
| Value (x : A)
| Complex
| OverflowError
| ZeroDivisionError.

Arguments Value {A} x.
Arguments Complex {A}.
Arguments OverflowError {A}.
Arguments ZeroDivisionError {A}.

Definition bind {A B : Type} (o : Outcome A) (f : A -> Outcome B)
    : Outcome B :=
  match o with
  | Value x => f x
  | Complex => Complex
  | OverflowError => OverflowError
  | ZeroDivisionError => ZeroDivisionError
  end.

Declare Scope o_scope.
Delimit Scope o_scope with o.
Notation "x <- c1 ;; c2" := (bind c1 (fun x => c2))
  (at level 61, c1 at next level, right associativity) : o_scope.
Local Open Scope o_scope.

(** The C library: [pow(x, 2.0)] and [pow(x, 0.5)].  Python calls it on
    a finite base above zero only. *)
Record Libm : Type := mkLibm { pow_2 : float -> float; pow_05 : float -> float }.

(** A library that rounds both correctly. *)
Definition correctly_rounded : Libm := mkLibm (fun x => x * x) sqrt.

(** What the function needs of the C library: on a finite base above
    zero its [pow] does not answer a number below zero. *)
Definition sane (m : Libm) : Prop :=
  forall x, (0 <? x) = true -> is_infinity x = false ->
    (pow_2 m x <? 0) = false /\ (pow_05 m x <? 0) = false.

(** [iv ** iw] for a positive finite [iw] that is not an odd integer
    ([float_pow] of CPython): NaN stays, an infinity and a zero lose their
    sign, a base below zero gives a complex number when [iw] is
    fractional and is negated otherwise, 1 stays, and any other base goes
    to [pow], whose infinite answer is an [OverflowError]. *)
Definition raise_to (pow : float -> float) (fractional : bool) (iv : float)
    : Outcome float :=
  if is_nan iv then Value iv
  else if is_infinity iv then Value (abs iv)
  else if iv =? 0 then Value 0
  else if (iv <? 0) && fractional then Complex
  else
    let iv := if iv <? 0 then - iv else iv in
    if iv =? 1 then Value 1
    else
      let ix := pow iv in
      if is_infinity ix then OverflowError else Value ix.

(** [iv ** 2] *)
Definition pow2 (m : Libm) (iv : float) : Outcome float :=
  raise_to (pow_2 m) false iv.

(** [iv ** 0.5] *)
Definition pow_half (m : Libm) (iv : float) : Outcome float :=
  raise_to (pow_05 m) true iv.

(** [a / b] *)
Definition truediv (a b : float) : Outcome float :=
  if b =? 0 then ZeroDivisionError else Value (a / b).

Definition Lab : Type := (float * float * float)%type.

(** The locals of [delta_e_cie94] that the properties speak of. *)
Record Locals : Type := mkLocals { dhSquared : float; dH : float; dE : float }.

(** The body of [delta_e_cie94], lines 1615-1649. *)
Definition delta_e_cie94_locals (m : Libm) (lab1 lab2 : Lab) : Outcome Locals :=
  let '(L1, a1, b1) := lab1 in
  let '(L2, a2, b2) := lab2 in
  let dL := L1 - L2 in
  let da := a1 - a2 in
  let db := b1 - b2 in
  a1_2 <- pow2 m a1 ;;
  b1_2 <- pow2 m b1 ;;
  c1 <- pow_half m (a1_2 + b1_2) ;;
  a2_2 <- pow2 m a2 ;;
  b2_2 <- pow2 m b2 ;;
  c2 <- pow_half m (a2_2 + b2_2) ;;
  let dC := c1 - c2 in
  da_2 <- pow2 m da ;;
  db_2 <- pow2 m db ;;
  dC_2 <- pow2 m dC ;;
  let dhSquared := da_2 + db_2 - dC_2 in
  dH <- (if dhSquared <? 0 then Value 0 else pow_half m dhSquared) ;;
  let kL := 1 in
  let k1 := 0.045 in
  let k2 := 0.015 in
  let sl := 1 in
  let sc := 1 + k1 * c1 in
  let sh := 1 + k2 * c1 in
  qL <- truediv dL (kL * sl) ;;
  tL <- pow2 m qL ;;
  qC <- truediv dC sc ;;
  tC <- pow2 m qC ;;
  qH <- truediv dH sh ;;
  tH <- pow2 m qH ;;
  dE <- pow_half m (tL + tC + tH) ;;
  Value (mkLocals dhSquared dH dE).

(** [AutoDraw.delta_e_cie94]: [return dE]. *)
Definition delta_e_cie94 (m : Libm) (lab1 lab2 : Lab) : Outcome float :=
  l <- delta_e_cie94_locals m lab1 lab2 ;; Value (dE l).

(** The sign of a float, a NaN and a zero having none. *)
Definition negative (x : spec_float) : bool :=
  match x with
  | S754_infinity s | S754_finite s _ _ => s
  | _ => false
  end.

Definition is_zero_sf (x : spec_float) : bool :=
  match x with S754_zero _ => true | _ => false end.

End Binary64.

(* ================================================================== *)
(** ** Palette matcher: [AutoDraw.find_closest_color] *)
(* ================================================================== *)

Module Matcher.

Import ColorSpace.
Local Open Scope m_scope.

(** [distance < min_distance], where [None] is [float('inf')]. *)
Definition lt_inf (d : R) (m : option R) : bool :=
  match m with
  | None => true
  | Some m => if Rlt_dec d m then true else false
  end.

Definition rgb2lab_call (c : Color) : M Lab :=
  emit (ELab c) ;;; ret (rgb2lab c).

(** The [for palette_color in self.palette] loop.  [closest_color] starts
    as Python's [None]. *)
Fixpoint scan_palette (lab1 : Lab) (palette : Palette)
    (min_distance : option R) (closest_color : option Color)
    : M (option Color) :=
  match palette with
  | [] => ret closest_color
  | palette_color :: rest =>
      lab2 <- rgb2lab_call palette_color ;;
      let distance := float_of (delta_e_cie94 lab1 lab2) in
      if lt_inf distance min_distance
      then scan_palette lab1 rest (Some distance) (Some palette_color)
      else scan_palette lab1 rest min_distance closest_color
  end.

(** The result is a colour tuple, or Python's [None] (never, as shown
    below). *)
Definition find_closest_color (palette : Palette) (color : Color)
    : M (option Color) :=
  match palette with
  | [] => ret (Some color)
  | _ =>
      lab1 <- rgb2lab_call color ;;
      emit (EScan color) ;;;
      scan_palette lab1 palette None None
  end.

(** The colour returned, read off a run from the empty trace. *)
Definition closest (palette : Palette) (color : Color) : option Color :=
  fst (find_closest_color palette color []).

(** The distance the matcher minimises. *)
Definition distance (c p : Color) : R :=
  float_of (delta_e_cie94 (rgb2lab c) (rgb2lab p)).

End Matcher.

(* ================================================================== *)
(** ** Images and the white-pixel marking of [process_image] *)
(* ================================================================== *)

Inductive Mode : Type := ModeL | ModeRGB | ModeRGBA.

(** A decoded image: [px x y] is the pixel at column [x], row [y], as
    [(r, g, b, a)]; mode "L" uses the first component only, mode "RGB"
    has no alpha. *)
Record Image : Type := mkImage {
  mode : Mode;
  width : nat;
  height : nat;
  px : nat -> nat -> Z * Z * Z * Z
}.

(** [for y in range(height): for x in range(width)], as [(x, y)]. *)
Definition coords (w h : nat) : list (nat * nat) :=
  flat_map (fun y => map (fun x => (x, y)) (seq 0 w)) (seq 0 h).

Module Preprocess.

Local Open Scope Z_scope.

(** [r >= white_threshold and g >= white_threshold and b >= white_threshold] *)
Definition near_white (white_threshold : Z) (p : Z * Z * Z * Z) : bool :=
  let '(r, g, b, a) := p in
  (white_threshold <=? r) && (white_threshold <=? g) && (white_threshold <=? b).

(** The marking loop: alpha becomes 0 on near-white pixels. *)
Definition mark_white (white_threshold : Z) (img : Image) : Image :=
  mkImage ModeRGBA (width img) (height img)
    (fun x y =>
       let '(r, g, b, a) := px img x y in
       if near_white white_threshold (r, g, b, a) then (r, g, b, 0)
       else (r, g, b, a)).

(** [img.convert("RGBA")]: an opaque alpha channel is added to an RGB
    image; a grey image is spread over the three channels. *)
Definition convert_rgba (img : Image) : Image :=
  match mode img with
  | ModeRGBA => img
  | ModeRGB =>
      mkImage ModeRGBA (width img) (height img)
        (fun x y => let '(r, g, b, _) := px img x y in (r, g, b, 255))
  | ModeL =>
      mkImage ModeRGBA (width img) (height img)
        (fun x y => let '(v, _, _, _) := px img x y in (v, v, v, 255))
  end.

(** [img.convert("RGB")]: the alpha channel is dropped. *)
Definition convert_rgb (img : Image) : Image :=
  match mode img with
  | ModeRGB => img
  | ModeRGBA => mkImage ModeRGB (width img) (height img) (px img)
  | ModeL =>
      mkImage ModeRGB (width img) (height img)
        (fun x y => let '(v, _, _, _) := px img x y in (v, v, v, 255))
  end.

(** [AutoDraw.process_image], pixel style, on the resized image: the
    image is brought to RGB, then (under [skip_white]) to RGBA and marked
    with the local [white_threshold = 245]. *)
Definition gui_white_threshold : Z := 245.

Definition process_image (skip_white : bool) (img : Image) : Image :=
  if skip_white
  then mark_white gui_white_threshold (convert_rgba (convert_rgb img))
  else convert_rgb img.

(** [SimpleAutoDraw.process_image]: the local [white_threshold = 240]. *)
Definition cli_white_threshold : Z := 240.

Definition cli_process_image (skip_white : bool) (img : Image) : Image :=
  if skip_white then mark_white cli_white_threshold (convert_rgba img)
  else img.

End Preprocess.

(* ================================================================== *)
(** ** Python containers used by the planner *)
(* ================================================================== *)

Section Dict.

Variables (K V : Type) (eqb : K -> K -> bool).

(** A [dict] whose values are lists, kept in insertion order:
    [if k not in d: d[k] = []] followed by [d[k].append(v)]. *)
Fixpoint dict_append (k : K) (v : V) (d : list (K * list V))
    : list (K * list V) :=
  match d with
  | [] => [(k, [v])]
  | (k', vs) :: r =>
      if eqb k k' then (k', vs ++ [v]) :: r
      else (k', vs) :: dict_append k v r
  end.

Fixpoint dict_get (k : K) (d : list (K * list V)) : list V :=
  match d with
  | [] => []
  | (k', vs) :: r => if eqb k k' then vs else dict_get k r
  end.

End Dict.

Section Sorted.

Variables (A : Type) (key : A -> Z).

(** [sorted(l, key=key)]: stable, ascending. *)
Fixpoint insert_sorted (a : A) (l : list A) : list A :=
  match l with
  | [] => [a]
  | b :: r =>
      if (key a <=? key b)%Z then a :: b :: r else b :: insert_sorted a r
  end.

Fixpoint sorted (l : list A) : list A :=
  match l with
  | [] => []
  | a :: r => insert_sorted a (sorted r)
  end.

(** [l.pop(i)]; [None] is Python's [IndexError]. *)
Fixpoint pop (i : nat) (l : list A) : option (A * list A) :=
  match l, i with
  | [], _ => None
  | a :: r, O => Some (a, r)
  | a :: r, S j =>
      match pop j r with
      | Some (b, r') => Some (b, a :: r')
      | None => None
      end
  end.

End Sorted.

(** How a block of [draw_image] ends: it falls through to the next
    statement, executes [return b], or raises (the [except] clause of
    [draw_image] then reports the error and returns [False]). *)
Inductive Flow : Type :=
| Next
| Return (b : bool)
| Raise.

(* ================================================================== *)
(** ** Pixel style: lines 2097-2233 of [draw_image] *)
(* ================================================================== *)

Module PixelStyle.

Import ColorSpace Matcher.
Local Open Scope m_scope.

Definition Point : Type := (R * R)%type.

Definition white_threshold : Z := 245.

(** [tuple(img_data[y, x][:3])], or the grey level three times. *)
Definition pixel_color (img : Image) (x y : nat) : Color :=
  let '(r, g, b, a) := px img x y in
  match mode img with
  | ModeL => (r, r, r)
  | _ => (r, g, b)
  end.

(** [all(c >= white_threshold for c in pixel_color)] *)
Definition is_white (c : Color) : bool :=
  let '(r, g, b) := c in
  (white_threshold <=? r)%Z && (white_threshold <=? g)%Z
  && (white_threshold <=? b)%Z.

(** [img_data.shape[2] == 4 and img_data[y, x][3] == 0] *)
Definition is_transparent (img : Image) (x y : nat) : bool :=
  match mode img with
  | ModeRGBA => let '(_, _, _, a) := px img x y in (a =? 0)%Z
  | _ => false
  end.

(** A pixel that the grouping loop does not skip. *)
Definition visible (img : Image) (xy : nat * nat) : bool :=
  let '(x, y) := xy in
  negb (is_white (pixel_color img x y)) && negb (is_transparent img x y).

(** [(pos_x, pos_y)], the centre of the pixel on the canvas. *)
Definition center (x1 y1 : Z) (pixel_width pixel_height : R)
    (xy : nat * nat) : Point :=
  let '(x, y) := xy in
  ((IZR x1 + (INR x * pixel_width) + (pixel_width / 2))%R,
   (IZR y1 + (INR y * pixel_height) + (pixel_height / 2))%R).

Definition key_eqb (a b : option Color) : bool :=
  match a, b with
  | Some c, Some d => Color_eqb c d
  | None, None => true
  | _, _ => false
  end.

(** [pixels_by_color]: keyed by whatever [find_closest_color] returned. *)
Definition ColorDict : Type := list (option Color * list Point).

(** The preprocessing double loop (lines 2111-2140). *)
Fixpoint group_pixels (palette : Palette) (x1 y1 : Z)
    (pixel_width pixel_height : R) (img : Image)
    (todo : list (nat * nat)) (pixels_by_color : ColorDict) : M ColorDict :=
  match todo with
  | [] => ret pixels_by_color
  | (x, y) :: rest =>
      let pixel_color := pixel_color img x y in
      if is_white pixel_color then
        group_pixels palette x1 y1 pixel_width pixel_height img rest
          pixels_by_color
      else if is_transparent img x y then
        group_pixels palette x1 y1 pixel_width pixel_height img rest
          pixels_by_color
      else
        target_color <- find_closest_color palette pixel_color ;;
        group_pixels palette x1 y1 pixel_width pixel_height img rest
          (dict_append key_eqb target_color
             (center x1 y1 pixel_width pixel_height (x, y)) pixels_by_color)
  end.

(** [sum(c)], the channels being plain integers, as they are in the
    colours of a palette.  When the palette is empty the keys are the
    pixels themselves, tuples of [numpy.uint8], and [sum] adds them as
    NumPy does, which depends on its version; the order of the colours
    is stated below for a palette that is not empty. *)
Definition color_sum (c : Color) : Z :=
  let '(r, g, b) := c in (r + g + b)%Z.

(** The keys as colour tuples; [None] when some key is Python's [None],
    on which [sum(c)] raises. *)
Fixpoint color_keys (keys : list (option Color)) : option (list Color) :=
  match keys with
  | [] => Some []
  | None :: _ => None
  | Some c :: r =>
      match color_keys r with
      | Some cs => Some (c :: cs)
      | None => None
      end
  end.

(** [sorted(pixels_by_color.keys(), key=lambda c: sum(c))] *)
Definition sorted_colors (d : ColorDict) : option (list Color) :=
  match color_keys (map fst d) with
  | Some cs => Some (sorted color_sum cs)
  | None => None
  end.

Definition GRID_SIZE : R := 20.

(** [(int((pos_x - x1) // GRID_SIZE), int((pos_y - y1) // GRID_SIZE))] *)
Definition cell_key (x1 y1 : Z) (p : Point) : Z * Z :=
  (Int_part ((fst p - IZR x1) / GRID_SIZE),
   Int_part ((snd p - IZR y1) / GRID_SIZE)).

Definition cell_eqb (a b : Z * Z) : bool :=
  (fst a =? fst b)%Z && (snd a =? snd b)%Z.

(** [grid_cells], filled in the order of [pixels]. *)
Fixpoint grid_cells (x1 y1 : Z) (pixels : list Point)
    (cells : list (Z * Z * list Point)) : list (Z * Z * list Point) :=
  match pixels with
  | [] => cells
  | p :: rest =>
      grid_cells x1 y1 rest (dict_append cell_eqb (cell_key x1 y1 p) p cells)
  end.

(** [((pixel[0] - last[0])**2 + (pixel[1] - last[1])**2)**0.5] *)
Definition dist (pixel last : Point) : R :=
  float_of (pow_half ((fst pixel - fst last) ^ 2
                      + (snd pixel - snd last) ^ 2)%R).

(** The [for i, pixel in enumerate(remaining)] loop; the result is
    [nearest_idx]. *)
Fixpoint nearest_scan (last : Point) (remaining : list Point) (i : nat)
    (nearest_idx : nat) (nearest_dist : option R) : nat :=
  match remaining with
  | [] => nearest_idx
  | pixel :: rest =>
      let d := dist pixel last in
      if lt_inf d nearest_dist
      then nearest_scan last rest (S i) i (Some d)
      else nearest_scan last rest (S i) nearest_idx nearest_dist
  end.

(** The [while remaining] loop.  Every round pops one point, so
    [length remaining] rounds of fuel are enough; [None] is a round
    without fuel or an [IndexError] of [pop].  [sorted_pixels[-1]] is
    read with a default that is never used, the list being non-empty. *)
Fixpoint nn_loop (fuel : nat) (sorted_pixels remaining : list Point)
    : option (list Point) :=
  match remaining with
  | [] => Some sorted_pixels
  | _ :: _ =>
      match fuel with
      | O => None
      | S fuel' =>
          let last := List.last sorted_pixels (0%R, 0%R) in
          let nearest_idx := nearest_scan last remaining 0 0 None in
          match pop nearest_idx remaining with
          | Some (p, remaining') =>
              nn_loop fuel' (sorted_pixels ++ [p]) remaining'
          | None => None
          end
      end
  end.

(** Lines 2186-2205: the order in which a cell is drawn. *)
Definition order_cell (cell_pixels : list Point) : option (list Point) :=
  match cell_pixels with
  | first :: (_ :: _) as rest => nn_loop (length rest) [first] rest
  | _ => Some cell_pixels
  end.

(** Lines 2208-2221. *)
Fixpoint draw_cell_pixels (stop : Oracle) (cell_pixels : list Point)
    : M Flow :=
  match cell_pixels with
  | [] => ret Next
  | (pos_x, pos_y) :: rest =>
      stopped <- poll stop ;;
      if stopped then ret (Return true)
      else
        emit (EAct (MoveTo pos_x pos_y)) ;;;
        emit (EAct Click) ;;;
        draw_cell_pixels stop rest
  end.

(** Lines 2184-2228: [for cell_pixels in grid_cells.values()]. *)
Fixpoint draw_cells (stop : Oracle) (cells : list (list Point)) : M Flow :=
  match cells with
  | [] => ret Next
  | cell_pixels :: rest =>
      match order_cell cell_pixels with
      | None => ret Raise
      | Some cell_pixels =>
          f <- draw_cell_pixels stop cell_pixels ;;
          match f with
          | Next => draw_cells stop rest
          | _ => ret f
          end
      end
  end.

(** Lines 2152-2228: [for color in sorted_colors]. *)
Fixpoint draw_colors (stop : Oracle) (x1 y1 : Z)
    (pixels_by_color : ColorDict) (colors : list Color) : M Flow :=
  match colors with
  | [] => ret Next
  | color :: rest =>
      stopped <- poll stop ;;
      if stopped then ret (Return true)
      else
        emit (EAct (SelectColor color)) ;;;
        let pixels := dict_get key_eqb (Some color) pixels_by_color in
        let cells := grid_cells x1 y1 pixels [] in
        f <- draw_cells stop (map snd cells) ;;
        match f with
        | Next => draw_colors stop x1 y1 pixels_by_color rest
        | _ => ret f
        end
  end.

(** The whole pixel branch. *)
Definition draw_pixel_style (stop : Oracle) (palette : Palette)
    (x1 y1 : Z) (pixel_width pixel_height : R) (img : Image) : M Flow :=
  pixels_by_color <-
    group_pixels palette x1 y1 pixel_width pixel_height img
      (coords (width img) (height img)) [] ;;
  match sorted_colors pixels_by_color with
  | None => ret Raise
  | Some colors => draw_colors stop x1 y1 pixels_by_color colors
  end.

End PixelStyle.

(* ================================================================== *)
(** ** Outline style: lines 2235-2351 of [draw_image] *)
(* ================================================================== *)

Module OutlineStyle.

Import Matcher.
Local Open Scope m_scope.

(** A pixel position [(x, y)]. *)
Definition Pt : Type := (Z * Z)%type.

Definition Pt_eqb (p q : Pt) : bool :=
  (fst p =? fst q)%Z && (snd p =? snd q)%Z.

(** [p in l], for the list [outline_pixels] and the set [visited]. *)
Definition mem (p : Pt) (l : list Pt) : bool := existsb (Pt_eqb p) l.

(** [sum(self.processed_image.getpixel((x, y)))]; [getpixel] answers an
    integer on a grey image, on which [sum] raises. *)
Definition pixel_sum (img : Image) (x y : nat) : option Z :=
  let '(r, g, b, a) := px img x y in
  match mode img with
  | ModeL => None
  | ModeRGB => Some (r + g + b)%Z
  | ModeRGBA => Some (r + g + b + a)%Z
  end.

(** Lines 2240-2246; [None] when [sum] raised. *)
Fixpoint find_outline_pixels (img : Image) (todo : list (nat * nat))
    (outline_pixels : list Pt) : option (list Pt) :=
  match todo with
  | [] => Some outline_pixels
  | (x, y) :: rest =>
      match pixel_sum img x y with
      | None => None
      | Some s =>
          if (s <? 450)%Z
          then find_outline_pixels img rest
                 (outline_pixels ++ [(Z.of_nat x, Z.of_nat y)])
          else find_outline_pixels img rest outline_pixels
      end
  end.

Definition directions : list (Z * Z) :=
  [(-1, -1); (-1, 0); (-1, 1); (0, -1); (0, 1); (1, -1); (1, 0); (1, 1)]%Z.

(** The [for dx, dy in directions] loop: the first neighbour of
    [current] that is an outline pixel and not yet visited. *)
Fixpoint find_next (outline_pixels visited : list Pt) (current : Pt)
    (dirs : list (Z * Z)) : option Pt :=
  match dirs with
  | [] => None
  | (dx, dy) :: rest =>
      let n := (fst current + dx, snd current + dy)%Z in
      if mem n outline_pixels && negb (mem n visited) then Some n
      else find_next outline_pixels visited current rest
  end.

(** The [while not self.stop_drawing] loop: the result is the segment
    and the visited set.  Every round but the last visits a new outline
    pixel; [None] is a round without fuel. *)
Fixpoint extend (stop : Oracle) (fuel : nat) (outline_pixels : list Pt)
    (visited segment : list Pt) (current : Pt)
    : M (option (list Pt * list Pt)) :=
  match fuel with
  | O => ret None
  | S fuel' =>
      stopped <- poll stop ;;
      if stopped then ret (Some (segment, visited))
      else
        match find_next outline_pixels visited current directions with
        | Some n =>
            extend stop fuel' outline_pixels (n :: visited)
              (segment ++ [n]) n
        | None => ret (Some (segment, visited))
        end
  end.

(** Lines 2279-2306: [for point in outline_pixels].  The flag is read
    only when the point is not visited ([or] is short-circuit). *)
Fixpoint trace_segments (stop : Oracle) (outline_pixels : list Pt)
    (todo : list Pt) (visited : list Pt) (line_segments : list (list Pt))
    : M (option (list (list Pt))) :=
  match todo with
  | [] => ret (Some line_segments)
  | point :: rest =>
      if mem point visited then
        trace_segments stop outline_pixels rest visited line_segments
      else
        stopped <- poll stop ;;
        if stopped then
          trace_segments stop outline_pixels rest visited line_segments
        else
          r <- extend stop (S (length outline_pixels)) outline_pixels
                 (point :: visited) [point] point ;;
          match r with
          | None => ret None
          | Some (segment, visited') =>
              trace_segments stop outline_pixels rest visited'
                (if (1 <? length segment)%nat
                 then line_segments ++ [segment] else line_segments)
          end
  end.

(** The pointer calls of one segment: lines 2315-2345. *)
Definition stroke (x1 y1 : Z) (first : Pt) (others : list Pt)
    : list Action :=
  MoveTo (IZR (x1 + fst first)) (IZR (y1 + snd first))
  :: PressDown
  :: map (fun p => DragTo (IZR (x1 + fst p)) (IZR (y1 + snd p))) others
  ++ [Release].

Fixpoint emit_all (l : list Action) : M unit :=
  match l with
  | [] => ret tt
  | a :: r => emit (EAct a) ;;; emit_all r
  end.

(** Lines 2310-2348: [for i, segment in enumerate(line_segments)]; the
    [break] leaves the loop for the final [return True]. *)
Fixpoint draw_segments (stop : Oracle) (x1 y1 : Z)
    (line_segments : list (list Pt)) : M Flow :=
  match line_segments with
  | [] => ret Next
  | segment :: rest =>
      stopped <- poll stop ;;
      if stopped then ret Next
      else
        match segment with
        | [] => ret Raise
        | first :: others =>
            emit_all (stroke x1 y1 first others) ;;;
            draw_segments stop x1 y1 rest
        end
  end.

Fixpoint position_of (c : Color) (color_positions : list (Color * (Z * Z)))
    : option (Z * Z) :=
  match color_positions with
  | [] => None
  | (k, pos) :: r =>
      if Color_eqb c k then Some pos else position_of c r
  end.

(** The whole outline branch. *)
Definition draw_outline_style (stop : Oracle) (palette : Palette)
    (color_positions : list (Color * (Z * Z))) (x1 y1 : Z) (img : Image)
    : M Flow :=
  match find_outline_pixels img (coords (width img) (height img)) [] with
  | None => ret Raise
  | Some outline_pixels =>
      match outline_pixels with
      | [] => emit (EInfo NoOutlinePixels) ;;; ret (Return false)
      | _ :: _ =>
          black_color <- find_closest_color palette (0, 0, 0)%Z ;;
          match black_color with
          | None => emit (EInfo SelectBlackPrompt) ;;; ret (Return false)
          | Some c =>
              match position_of c color_positions with
              | None => emit (EInfo SelectBlackPrompt) ;;; ret (Return false)
              | Some _ =>
                  emit (EAct (SelectColor c)) ;;;
                  r <- trace_segments stop outline_pixels outline_pixels
                         [] [] ;;
                  match r with
                  | None => ret Raise
                  | Some line_segments =>
                      draw_segments stop x1 y1 line_segments
                  end
              end
          end
      end
  end.

End OutlineStyle.

(* ================================================================== *)
(** ** [AutoDraw.draw_image] and [SimpleAutoDraw.draw_image] *)
(* ================================================================== *)

Inductive Style : Type := Pixel | Outline | Vector.

(** The fields of [AutoDraw] that [draw_image] reads, and the screen
    size answered by [pyautogui.size()]. *)
Record AutoDraw : Type := mkAutoDraw {
  processed_image : option Image;
  palette : Palette;
  style : Style;
  canvas_area : option (Z * Z * Z * Z);
  color_positions : list (Color * (Z * Z));
  screen_size : Z * Z
}.

Module Draw.

Local Open Scope m_scope.

(** Lines 2071-2079: the canvas, centred on the screen when unset. *)
Definition canvas (self : AutoDraw) (img : Image) : Z * Z * Z * Z :=
  match canvas_area self with
  | Some area => area
  | None =>
      let '(screen_width, screen_height) := screen_size self in
      let x1 := ((screen_width - Z.of_nat (width img)) / 2)%Z in
      let y1 := ((screen_height - Z.of_nat (height img)) / 2)%Z in
      (x1, y1, x1 + Z.of_nat (width img), y1 + Z.of_nat (height img))%Z
  end.

(** The [except Exception] clause. *)
Definition handle (f : Flow) : M bool :=
  match f with
  | Raise => emit (EInfo DrawError) ;;; ret false
  | Return b => ret b
  | Next => ret true
  end.

(** [AutoDraw.draw_image].  The divisions by [width] and [height] raise
    on an empty image, before the pointer is touched. *)
Definition draw_image (stop : Oracle) (self : AutoDraw) : M bool :=
  match processed_image self with
  | None => ret false
  | Some img =>
      let '(x1, y1, x2, y2) := canvas self img in
      if ((width img =? 0) || (height img =? 0))%nat then handle Raise
      else
        let pixel_width := (IZR (x2 - x1) / INR (width img))%R in
        let pixel_height := (IZR (y2 - y1) / INR (height img))%R in
        emit (EAct (MoveTo (IZR x1) (IZR y1))) ;;;
        f <- match style self with
             | Pixel =>
                 PixelStyle.draw_pixel_style stop (palette self) x1 y1
                   pixel_width pixel_height img
             | Outline =>
                 OutlineStyle.draw_outline_style stop (palette self)
                   (color_positions self) x1 y1 img
             | Vector => ret Next
             end ;;
        handle f
  end.

(** [SimpleAutoDraw.draw_image]: the pixels whose alpha is not 0, row by
    row, one [moveTo] and one [click] each. *)
Definition cli_skipped (img : Image) (xy : nat * nat) : bool :=
  match mode img with
  | ModeRGBA => let '(_, _, _, a) := px img (fst xy) (snd xy) in (a =? 0)%Z
  | _ => false
  end.

Definition cli_pixels_to_draw (x1 y1 : Z) (pixel_width pixel_height : R)
    (img : Image) : list PixelStyle.Point :=
  map (PixelStyle.center x1 y1 pixel_width pixel_height)
    (filter (fun xy => negb (cli_skipped img xy))
       (coords (width img) (height img))).

Fixpoint cli_draw_loop (stop : Oracle) (pixels : list PixelStyle.Point)
    : M bool :=
  match pixels with
  | [] => ret true
  | (pos_x, pos_y) :: rest =>
      stopped <- poll stop ;;
      if stopped then ret true
      else
        emit (EAct (MoveTo pos_x pos_y)) ;;;
        emit (EAct Click) ;;;
        cli_draw_loop stop rest
  end.

Definition cli_draw_image (stop : Oracle) (self : AutoDraw) : M bool :=
  match processed_image self with
  | None => ret false
  | Some img =>
      let '(x1, y1, x2, y2) := canvas self img in
      if ((width img =? 0) || (height img =? 0))%nat then ret false
      else
        let pixel_width := (IZR (x2 - x1) / INR (width img))%R in
        let pixel_height := (IZR (y2 - y1) / INR (height img))%R in
        let pixels_to_draw :=
          cli_pixels_to_draw x1 y1 pixel_width pixel_height img in
        emit (EAct (MoveTo (IZR x1) (IZR y1))) ;;;
        cli_draw_loop stop pixels_to_draw
  end.

End Draw.

Unset Implicit Arguments.

(* ================================================================== *)
(** ** Vocabulary of the statements *)
(* ================================================================== *)

Module Shape.

Import PixelStyle.

(** The pixels that the grouping loop keeps, in scan order. *)
Definition visible_pixels (img : Image) : list (nat * nat) :=
  filter (visible img) (coords (width img) (height img)).

(** One [MoveTo]+[Click] pair per point. *)
Definition pairs (pts : list Point) : list Action :=
  flat_map (fun p => [MoveTo (fst p) (snd p); Click]) pts.

(** A colour group: one [SelectColor], then the pairs of its points. *)
Definition group_actions (g : Color * list Point) : list Action :=
  SelectColor (fst g) :: pairs (snd g).

Definition is_click (a : Action) : bool :=
  match a with Click => true | _ => false end.

Definition is_move (a : Action) : bool :=
  match a with MoveTo _ _ => true | _ => false end.

Definition is_select (a : Action) : bool :=
  match a with SelectColor _ => true | _ => false end.

(** The events left by the matcher. *)
Definition is_matcher (e : Event) : bool :=
  match e with ELab _ | EScan _ => true | _ => false end.

Definition is_scan_of (c : Color) (e : Event) : bool :=
  match e with EScan c' => Color_eqb c c' | _ => false end.

Definition is_lab_of (c : Color) (e : Event) : bool :=
  match e with ELab c' => Color_eqb c c' | _ => false end.

(** The actuator calls made from the moment the key is pressed, when it
    is pressed after [T] events. *)
Definition late (T : nat) (t : Trace) : nat := count_act (skipn T t).

(** The events of one cell point and of one colour group when the flag
    is never set. *)
Definition point_events (p : Point) : Trace :=
  [EPoll; EAct (MoveTo (fst p) (snd p)); EAct Click].

Definition group_events (g : Color * list Point) : Trace :=
  EPoll :: EAct (SelectColor (fst g)) :: flat_map point_events (snd g).

(** A run that is quiet once it has halted, the key being pressed when
    [T] events have happened: after a read of the flag that saw it set (a
    read at clock [T] or later) no actuator call is made any more. *)
Definition halted_quiet (T : nat) (t : Trace) : Prop :=
  forall n m a,
    nth_error t n = Some EPoll -> (T <= n)%nat -> (n < m)%nat ->
    nth_error t m <> Some (EAct a).

End Shape.

Module OutlineShape.

Import OutlineStyle.

(** The pointer calls that draw one traced segment. *)
Definition segment_actions (x1 y1 : Z) (segment : list Pt) : list Action :=
  match segment with
  | [] => []
  | first :: others => stroke x1 y1 first others
  end.

(** A straight run of [n] pixels from [(x0, y0)] in direction [(dx, dy)]. *)
Fixpoint line (x0 y0 dx dy : Z) (n : nat) : list Pt :=
  match n with
  | O => []
  | S n' => (x0, y0) :: line (x0 + dx) (y0 + dy) dx dy n'
  end.

(** The four directions in which consecutive pixels of a straight line
    touch, each oriented the way the row-by-row scan meets the line. *)
Definition line_directions : list (Z * Z) :=
  [(1, 0); (0, 1); (1, 1); (-1, 1)]%Z.

(** [(x, y)] is a dark pixel of the image. *)
Definition is_dark (img : Image) (x y : nat) : bool :=
  match pixel_sum img x y with
  | Some s => (s <? 450)%Z
  | None => false
  end.

(** The number of outline pixels still to be visited. *)
Definition unvisited (outline visited : list Pt) : nat :=
  length (filter (fun p => negb (mem p visited)) outline).

(** Moving a pixel by [(a, b)]. *)
Definition shift (a b : Z) (p : Pt) : Pt := (fst p + a, snd p + b)%Z.

(** The position [(x, y)] of the scan as a pixel position. *)
Definition to_pt (xy : nat * nat) : Pt := (Z.of_nat (fst xy), Z.of_nat (snd xy)).

(** Row-major order on pixel positions: the order of the scan. *)
Definition scan_lt (p q : Pt) : Prop :=
  (snd p < snd q \/ (snd p = snd q /\ fst p < fst q))%Z.

End OutlineShape.

(* ================================================================== *)
(** ** Sample inputs *)
(* ================================================================== *)

Module Samples.

(** A uniform image. *)
Definition uniform (m : Mode) (w h : nat) (p : Z * Z * Z * Z) : Image :=
  mkImage m w h (fun _ _ => p).

(** One black pixel, drawn in pixel style with an empty palette. *)
Definition one_black_pixel : AutoDraw :=
  mkAutoDraw (Some (uniform ModeRGB 1 1 (0, 0, 0, 255)%Z))
    [] Pixel (Some (0, 0, 1, 1)%Z) [] (1920, 1080)%Z.

(** The same pixel, with a palette of black and white. *)
Definition one_black_pixel_bw : AutoDraw :=
  mkAutoDraw (Some (uniform ModeRGB 1 1 (0, 0, 0, 255)%Z))
    [(0, 0, 0)%Z; (255, 255, 255)%Z] Pixel (Some (0, 0, 1, 1)%Z) []
    (1920, 1080)%Z.

(** A row of four black pixels, drawn in outline style. *)
Definition black_row : AutoDraw :=
  mkAutoDraw (Some (uniform ModeRGB 4 1 (0, 0, 0, 255)%Z))
    [] Outline (Some (0, 0, 4, 1)%Z) [((0, 0, 0)%Z, (5, 5)%Z)]
    (1920, 1080)%Z.

(** A row of ten black pixels, drawn in outline style. *)
Definition black_line : AutoDraw :=
  mkAutoDraw (Some (uniform ModeRGB 10 1 (0, 0, 0, 255)%Z))
    [(0, 0, 0)%Z; (255, 255, 255)%Z] Outline (Some (0, 0, 10, 1)%Z)
    [((0, 0, 0)%Z, (5, 5)%Z)] (1920, 1080)%Z.

(** One white pixel, drawn in outline style. *)
Definition white_dot : AutoDraw :=
  mkAutoDraw (Some (uniform ModeRGB 1 1 (255, 255, 255, 255)%Z))
    [(0, 0, 0)%Z] Outline (Some (0, 0, 1, 1)%Z) [((0, 0, 0)%Z, (5, 5)%Z)]
    (1920, 1080)%Z.

(** No processed image. *)
Definition no_image : AutoDraw :=
  mkAutoDraw None [(0, 0, 0)%Z] Outline (Some (0, 0, 1, 1)%Z)
    [((0, 0, 0)%Z, (5, 5)%Z)] (1920, 1080)%Z.

(** A near-white page of 2 by 2 pixels, for either program. *)
Definition white_page : Image := uniform ModeRGB 2 2 (250, 250, 250, 255)%Z.

Definition white_page_gui : AutoDraw :=
  mkAutoDraw (Some (Preprocess.process_image true white_page))
    [(0, 0, 0)%Z] Pixel (Some (0, 0, 2, 2)%Z) [] (1920, 1080)%Z.

Definition white_page_cli : AutoDraw :=
  mkAutoDraw (Some (Preprocess.cli_process_image true white_page))
    [] Pixel (Some (0, 0, 2, 2)%Z) [] (1920, 1080)%Z.

(** Two pixels of one colour. *)
Definition two_alike : Image := uniform ModeRGB 2 1 (10, 20, 30, 255)%Z.

(** A light grey pixel and an olive one, each a colour of the palette. *)
Definition two_tone_image : Image :=
  mkImage ModeRGB 2 1
    (fun x _ => match x with
                | O => (200, 200, 200, 255)%Z
                | _ => (100, 100, 0, 255)%Z
                end).

Definition two_tone : AutoDraw :=
  mkAutoDraw (Some two_tone_image) [(200, 200, 200)%Z; (100, 100, 0)%Z]
    Pixel (Some (0, 0, 2, 1)%Z) [] (1920, 1080)%Z.

End Samples.

(* ================================================================== *)
(** ** Colour helpers of [AutoDraw]: lines 2562-2634 *)
(* ================================================================== *)

Module ColorUtil.

Import ColorSpace.
Import String.StringSyntax.
Local Open Scope R_scope.
Local Open Scope string_scope.

(** [color[0], color[1], color[2]] under [len(color) >= 3]: the colour
    is any sequence, such as a screenshot pixel with its alpha. *)
Definition channels (color : list Z) : option (Z * Z * Z) :=
  match color with
  | r :: g :: b :: _ => Some (r, g, b)
  | _ => None
  end.

(** [AutoDraw.color_distance]; [None] is [float('inf')]. *)
Definition color_distance (color1 color2 : list Z) : option R :=
  match channels color1, channels color2 with
  | Some (r1, g1, b1), Some (r2, g2, b2) =>
      Some (float_of (pow_half (IZR ((r2 - r1) ^ 2) * 0.3
                                + IZR ((g2 - g1) ^ 2) * 0.59
                                + IZR ((b2 - b1) ^ 2) * 0.11)))
  | _, _ => None
  end.

(** [a <= b] and [a < b] on floats, [None] being [float('inf')]. *)
Definition le_ext (a b : option R) : bool :=
  match a, b with
  | Some a, Some b => if Rle_dec a b then true else false
  | Some _, None => true
  | None, Some _ => false
  | None, None => true
  end.

Definition lt_ext (a b : option R) : bool :=
  match a, b with
  | Some a, Some b => if Rlt_dec a b then true else false
  | Some _, None => true
  | None, _ => false
  end.

(** [AutoDraw.is_color_similar]; the default of [tolerance] is 20. *)
Definition is_color_similar (color1 color2 : list Z) (tolerance : R) : bool :=
  le_ext (color_distance color1 color2) (Some tolerance).

(** [AutoDraw.is_gray_or_white] *)
Definition is_gray_or_white (color : list Z) : bool :=
  match channels color with
  | Some (r, g, b) =>
      if ((240 <? r) && (240 <? g) && (240 <? b))%Z then true
      else
        let avg := IZR (r + g + b) / 3 in
        let diff_r := Rabs (IZR r - avg) in
        let diff_g := Rabs (IZR g - avg) in
        let diff_b := Rabs (IZR b - avg) in
        lt_ext (Some diff_r) (Some 10) && lt_ext (Some diff_g) (Some 10)
        && lt_ext (Some diff_b) (Some 10)
  | None => false
  end.

(** The table of [get_color_name], in the order of the dict literal. *)
Definition color_names : list (Color * String.string) :=
  [ ((0, 0, 0)%Z, "Black");
    ((255, 255, 255)%Z, "White");
    ((255, 0, 0)%Z, "Red");
    ((0, 255, 0)%Z, "Green");
    ((0, 0, 255)%Z, "Blue");
    ((255, 255, 0)%Z, "Yellow");
    ((255, 0, 255)%Z, "Magenta");
    ((0, 255, 255)%Z, "Cyan");
    ((128, 128, 128)%Z, "Gray");
    ((128, 0, 0)%Z, "Maroon");
    ((0, 128, 0)%Z, "Dark Green");
    ((0, 0, 128)%Z, "Navy Blue");
    ((128, 128, 0)%Z, "Olive");
    ((128, 0, 128)%Z, "Purple");
    ((0, 128, 128)%Z, "Teal") ].

(** [color_names[color]] under [color in color_names]. *)
Fixpoint lookup (color : Color) (d : list (Color * String.string))
    : option String.string :=
  match d with
  | [] => None
  | (k, name) :: r => if Color_eqb color k then Some name else lookup color r
  end.

(** A colour tuple as the sequence that [color_distance] indexes. *)
Definition tuple (c : Color) : list Z :=
  let '(r, g, b) := c in [r; g; b].

(** The [for named_color, name in color_names.items()] loop; the result
    is [(min_distance, closest_name)]. *)
Fixpoint closest_named (color : Color) (items : list (Color * String.string))
    (min_distance : option R) (closest_name : String.string)
    : option R * String.string :=
  match items with
  | [] => (min_distance, closest_name)
  | (named_color, name) :: rest =>
      let distance := color_distance (tuple color) (tuple named_color) in
      if lt_ext distance min_distance
      then closest_named color rest distance name
      else closest_named color rest min_distance closest_name
  end.

(** [f"{n}"] for an integer. *)
Definition str (n : Z) : String.string :=
  DecimalString.NilZero.string_of_int (Z.to_int n).

(** [AutoDraw.get_color_name] *)
Definition get_color_name (color : Color) : String.string :=
  match lookup color color_names with
  | Some name => name
  | None =>
      let '(min_distance, closest_name) :=
        closest_named color color_names None "Custom Color" in
      if lt_ext min_distance (Some 30)
      then String.append closest_name "-like"
      else
        let '(r, g, b) := color in
        String.concat ""
          [ "RGB("; str r; ","; str g; ","; str b;
            ")" ]
  end.

End ColorUtil.

(* ================================================================== *)
(** ** [DrawingAreaSelector.select_drawing_area]: lines 532-591 *)
(* ================================================================== *)

Module Selection.

Local Open Scope Z_scope.

(** [on_click]: the first two clicks are recorded. *)
Definition on_click (coords : list (Z * Z)) (event : Z * Z) : list (Z * Z) :=
  match length coords with
  | 0%nat | 1%nat => coords ++ [event]
  | _ => coords
  end.

(** Lines 569-591: the corners are put in order; [None] unless two
    clicks were recorded. *)
Definition process_coordinates (coords : list (Z * Z))
    : option (Z * Z * Z * Z) :=
  match coords with
  | [(x1, y1); (x2, y2)] =>
      let '(x1, x2) := if x1 >? x2 then (x2, x1) else (x1, x2) in
      let '(y1, y2) := if y1 >? y2 then (y2, y1) else (y1, y2) in
      Some (x1, y1, x2, y2)
  | _ => None
  end.

(** The area selected by a sequence of clicks on the overlay. *)
Definition select_drawing_area (clicks : list (Z * Z))
    : option (Z * Z * Z * Z) :=
  process_coordinates (fold_left on_click clicks []).

End Selection.

(* ================================================================== *)
(** ** Further vocabulary *)
(* ================================================================== *)

Module Order.

Import PixelStyle OutlineStyle.

(** The colours selected by a run, in order. *)
Definition selected_colors (l : list Action) : list Color :=
  flat_map (fun a => match a with SelectColor c => [c] | _ => [] end) l.

(** [l] is visited greedily from [last]: every point is as near to its
    predecessor as any point that comes later. *)
Fixpoint greedy_from (last : Point) (l : list Point) : Prop :=
  match l with
  | [] => True
  | p :: rest =>
      (forall q, In q rest -> (dist p last <= dist q last)%R)
      /\ greedy_from p rest
  end.

(** [q] is one of the eight neighbours of [p]. *)
Definition adjacent (p q : Pt) : Prop :=
  In ((fst q - fst p)%Z, (snd q - snd p)%Z) directions.

(** Every point of the list is a neighbour of the one before it. *)
Fixpoint chain (l : list Pt) : Prop :=
  match l with
  | p :: (q :: _) as rest => adjacent p q /\ chain rest
  | _ => True
  end.

(** [self.processed_image = img] *)
Definition set_processed_image (self : AutoDraw) (img : Image) : AutoDraw :=
  mkAutoDraw (Some img) (palette self) (style self) (canvas_area self)
    (color_positions self) (screen_size self).

(** A traced segment as the outline style wants it: at least two
    pixels, all of them outline pixels, each next to the one before. *)
Definition well_formed (outline_pixels segment : list Pt) : Prop :=
  (2 <= length segment)%nat /\ chain segment /\ incl segment outline_pixels.

(** [l1] is an initial part of [l2]. *)
Definition prefix {A : Type} (l1 l2 : list A) : Prop :=
  exists rest, l2 = l1 ++ rest.

(** A run cut short.  From the trace [s], the run under some oracle has
    left [snd r_stop] and the uncancelled run [snd r_never]: the first is
    an initial part of the second, the uncancelled run falls through to
    the next statement, and so does the other unless it executed
    [return True]. *)
Definition cut_short (r_stop r_never : Flow * Trace) (s : Trace) : Prop :=
  exists evs rest,
    snd r_stop = s ++ evs
    /\ snd r_never = s ++ evs ++ rest
    /\ fst r_never = Next
    /\ ((fst r_stop = Next /\ rest = []) \/ fst r_stop = Return true).

(** The keys of [pixels_by_color] after the targets [l] have been
    entered, [seen] being the keys before: each new key goes to the end,
    as in a [dict]. *)
Fixpoint first_seen (seen l : list (option Color)) : list (option Color) :=
  match l with
  | [] => seen
  | k :: rest =>
      first_seen (if existsb (key_eqb k) seen then seen else seen ++ [k]) rest
  end.

(** Ascending channel sums. *)
Definition le_sum (c d : Color) : Prop := (color_sum c <= color_sum d)%Z.

End Order.

(* ================================================================== *)
(** * Properties *)
(* ================================================================== *)

(* ------------------------------------------------------------------ *)
(** ** Sample runs *)
(* ------------------------------------------------------------------ *)

Section SampleRuns.
Import Matcher PixelStyle OutlineStyle Draw Samples.
Local Open Scope R_scope.

(** One black pixel on a canvas of one by one: the move to the corner, a
    read of the flag, the colour, a read of the flag, the pair. *)
Example one_black_pixel_run :
  exists x y,
    draw_image never one_black_pixel []
    = (true,
       [EAct (MoveTo 0 0); EPoll; EAct (SelectColor (0, 0, 0)%Z); EPoll;
        EAct (MoveTo x y); EAct Click])
    /\ x = 1 / 2 /\ y = 1 / 2.
Proof.
  eexists _, _. split; [lazy; reflexivity |].
  split; lra.
Qed.

(** A row of four black pixels: the move to the corner, the click on
    black, six reads of the flag while tracing and before the stroke,
    then the stroke. *)
Example black_row_run :
  draw_image never black_row []
  = (true,
     [EAct (MoveTo 0 0); EAct (SelectColor (0, 0, 0)%Z);
      EPoll; EPoll; EPoll; EPoll; EPoll; EPoll;
      EAct (MoveTo 0 0); EAct PressDown;
      EAct (DragTo 1 0); EAct (DragTo 2 0); EAct (DragTo 3 0);
      EAct Release]).
Proof. reflexivity. Qed.

(** The matcher on a palette of one entry: the query is converted, the
    palette is scanned, the entry is converted. *)
Example single_entry_palette (c p : Color) (s : Trace) :
  find_closest_color [p] c s = (Some p, s ++ [ELab c; EScan c; ELab p]).
Proof.
  unfold find_closest_color, bind, rgb2lab_call, emit, ret, bind.
  cbn [scan_palette lt_inf]. unfold bind, rgb2lab_call, emit, ret, bind.
  now rewrite <- !app_assoc.
Qed.

End SampleRuns.

(* ------------------------------------------------------------------ *)
(** ** The CIE94 distance is defined and not negative *)
(* ------------------------------------------------------------------ *)

Section ColorSpaceFacts.
Import ColorSpace.
Local Open Scope R_scope.

Lemma pow_half_defined (x : R) : 0 <= x -> pow_half x = Some (sqrt x).
Proof.
  intros Hx. unfold pow_half. destruct (Rlt_dec x 0); [lra | reflexivity].
Qed.

Lemma hue_term_defined (x : R) :
  exists dH, hue_term x = Some dH /\ 0 <= dH /\ (0 < dH -> dH = sqrt x /\ 0 <= x).
Proof.
  unfold hue_term. destruct (Rlt_dec x 0) as [Hneg | Hpos].
  - exists 0. repeat split; lra.
  - exists (sqrt x). rewrite pow_half_defined by lra.
    repeat split; try lra. apply sqrt_pos.
Qed.

Lemma sum_sq_nonneg (a b : R) : 0 <= a ^ 2 + b ^ 2.
Proof. nra. Qed.

Lemma sum_sq3_nonneg (a b c : R) : 0 <= a ^ 2 + b ^ 2 + c ^ 2.
Proof. nra. Qed.

(** The closed form of the distance. *)
Lemma delta_e_cie94_eq (L1 a1 b1 L2 a2 b2 : R) :
  exists dH,
    hue_term ((a1 - a2) ^ 2 + (b1 - b2) ^ 2
              - (sqrt (a1 ^ 2 + b1 ^ 2) - sqrt (a2 ^ 2 + b2 ^ 2)) ^ 2)
      = Some dH
    /\ delta_e_cie94 (L1, a1, b1) (L2, a2, b2)
       = Some (sqrt (((L1 - L2) / (1 * 1)) ^ 2
                     + ((sqrt (a1 ^ 2 + b1 ^ 2) - sqrt (a2 ^ 2 + b2 ^ 2))
                        / (1 + 0.045 * sqrt (a1 ^ 2 + b1 ^ 2))) ^ 2
                     + (dH / (1 + 0.015 * sqrt (a1 ^ 2 + b1 ^ 2))) ^ 2)).
Proof.
  unfold delta_e_cie94.
  rewrite !pow_half_defined by apply sum_sq_nonneg.
  destruct (hue_term_defined ((a1 - a2) ^ 2 + (b1 - b2) ^ 2
              - (sqrt (a1 ^ 2 + b1 ^ 2) - sqrt (a2 ^ 2 + b2 ^ 2)) ^ 2))
    as (dH & HdH & _).
  exists dH. split; [exact HdH |].
  rewrite HdH. apply pow_half_defined, sum_sq3_nonneg.
Qed.

End ColorSpaceFacts.

(* ------------------------------------------------------------------ *)
(** ** [delta_e_cie94] on binary64 floats *)
(* ------------------------------------------------------------------ *)

Section Binary64Facts.
Import Floats.PrimFloat Floats.SpecFloat Floats.FloatOps Floats.FloatAxioms.
Import Binary64.
Local Open Scope float_scope.

Lemma SFcompare_refl (x : spec_float) :
  SFcompare x x = match x with S754_nan => None | _ => Some Eq end.
Proof.
  destruct x as [s | s | | s m e]; try destruct s; cbn; try reflexivity;
    rewrite Z.compare_refl, Pos.compare_cont_refl; reflexivity.
Qed.

Lemma is_nan_spec (x : float) :
  is_nan x = match Prim2SF x with S754_nan => true | _ => false end.
Proof.
  unfold is_nan. rewrite eqb_spec. unfold SFeqb. rewrite SFcompare_refl.
  destruct (Prim2SF x); reflexivity.
Qed.

Lemma is_infinity_spec (x : float) :
  is_infinity x = match Prim2SF x with S754_infinity _ => true | _ => false end.
Proof.
  unfold is_infinity. rewrite eqb_spec, abs_spec.
  change (Prim2SF infinity) with (S754_infinity false).
  destruct (Prim2SF x) as [s | s | | s m e]; reflexivity.
Qed.

Lemma eqb_zero_spec (x : float) :
  (x =? 0) = match Prim2SF x with S754_zero _ => true | _ => false end.
Proof.
  rewrite eqb_spec. change (Prim2SF 0) with (S754_zero false).
  destruct (Prim2SF x) as [s | s | | s m e]; try destruct s; reflexivity.
Qed.

Lemma ltb_zero_spec (x : float) : (x <? 0) = negative (Prim2SF x).
Proof.
  rewrite ltb_spec. change (Prim2SF 0) with (S754_zero false).
  destruct (Prim2SF x) as [s | s | | s m e]; try destruct s; reflexivity.
Qed.

Lemma zero_ltb_spec (x : float) :
  (0 <? x) = match Prim2SF x with
             | S754_infinity s | S754_finite s _ _ => negb s
             | _ => false
             end.
Proof.
  rewrite ltb_spec. change (Prim2SF 0) with (S754_zero false).
  destruct (Prim2SF x) as [s | s | | s m e]; try destruct s; reflexivity.
Qed.

Lemma zero_leb_spec (x : float) :
  (0 <=? x) = match Prim2SF x with
              | S754_nan => false
              | S754_zero _ => true
              | S754_infinity s | S754_finite s _ _ => negb s
              end.
Proof.
  rewrite leb_spec. change (Prim2SF 0) with (S754_zero false).
  destruct (Prim2SF x) as [s | s | | s m e]; try destruct s; reflexivity.
Qed.

(** Rounding keeps the sign. *)
Lemma binary_round_aux_sign (sx : bool) (mx ex : Z) (lx : location) :
  negative (binary_round_aux prec emax sx mx ex lx) = true -> sx = true.
Proof.
  unfold binary_round_aux.
  destruct (shr_fexp prec emax mx ex lx) as [mrs' e'].
  destruct (shr_fexp prec emax _ e' loc_Exact) as [mrs'' e''].
  destruct (shr_m mrs''); cbn [negative]; try discriminate.
  destruct (Z.leb e'' (Z.sub emax prec)); cbn [negative]; auto.
Qed.

Lemma binary_round_sign (mx : positive) (ex : Z) :
  negative (binary_round prec emax false mx ex) = false.
Proof.
  unfold binary_round. destruct (shl_align _ _ _) as [mz ez].
  destruct (negative _) eqn:E; [| reflexivity].
  apply binary_round_aux_sign in E. discriminate.
Qed.

Lemma mul_self_sign (x : float) : (x * x <? 0) = false.
Proof.
  rewrite ltb_zero_spec, mul_spec. unfold SF64mul.
  destruct (Prim2SF x) as [s | s | | s m e]; cbn [SFmul negative];
    try reflexivity; try (now destruct s).
  destruct (negative _) eqn:E; [| reflexivity].
  apply binary_round_aux_sign in E. destruct s; discriminate.
Qed.

Lemma mul_sign (x y : float) :
  (x <? 0) = false -> (y <? 0) = false -> (x * y <? 0) = false.
Proof.
  rewrite !ltb_zero_spec, mul_spec. unfold SF64mul.
  destruct (Prim2SF x) as [s | s | | s m e], (Prim2SF y) as [t | t | | t n f];
    cbn [SFmul negative]; intros Hx Hy; subst; try reflexivity;
    try (now destruct s); try (now destruct t).
  destruct (negative _) eqn:E; [| reflexivity].
  apply binary_round_aux_sign in E. discriminate.
Qed.

Lemma sqrt_sign (x : float) : (sqrt x <? 0) = false.
Proof.
  rewrite ltb_zero_spec, sqrt_spec. unfold SF64sqrt.
  destruct (Prim2SF x) as [s | s | | s m e]; cbn [SFsqrt negative];
    try reflexivity; try (now destruct s).
  destruct s; [reflexivity |].
  destruct (SFsqrt_core_binary _ _ _ _) as [[mz ez] lz].
  destruct (negative _) eqn:E; [| reflexivity].
  apply binary_round_aux_sign in E. discriminate.
Qed.

Lemma add_sign (x y : float) :
  (x <? 0) = false -> (y <? 0) = false -> (x + y <? 0) = false.
Proof.
  rewrite !ltb_zero_spec, add_spec. unfold SF64add.
  destruct (Prim2SF x) as [s | s | | s m e], (Prim2SF y) as [t | t | | t n f];
    cbn [SFadd negative]; intros Hx Hy; subst; try reflexivity;
    try (now destruct s); try (now destruct t); try (now destruct s, t).
  cbn [cond_Zopp Z.add binary_normalize]. apply binary_round_sign.
Qed.

Lemma not_below_zero (x : float) :
  (x <? 0) = false -> is_nan x = true \/ (0 <=? x) = true.
Proof.
  rewrite ltb_zero_spec, is_nan_spec, zero_leb_spec.
  destruct (Prim2SF x) as [s | s | | s m e]; cbn [negative];
    intros H; subst; auto.
Qed.

End Binary64Facts.

Section NonZero.
Import Floats.PrimFloat Floats.SpecFloat Floats.FloatOps Floats.FloatAxioms.
Import Binary64.
Local Open Scope Z_scope.

Lemma digits2_pos_succ (p : positive) :
  (1 < Zpos (digits2_pos p~0)) /\ Zpos (digits2_pos p~0) = Zpos (digits2_pos p) + 1
  /\ Zpos (digits2_pos p~1) = Zpos (digits2_pos p) + 1.
Proof. cbn [digits2_pos]. lia. Qed.

(** One shift to the right takes one digit off a mantissa of two digits
    or more. *)
Lemma shr_1_digits (mrs : shr_record) :
  1 < Zdigits2 (shr_m mrs) -> 0 < shr_m mrs ->
  0 < shr_m (shr_1 mrs)
  /\ Zdigits2 (shr_m (shr_1 mrs)) = Zdigits2 (shr_m mrs) - 1.
Proof.
  destruct mrs as [m r s]. cbn [shr_m].
  destruct m as [| p | p]; try lia.
  destruct p as [p | p |]; cbn [shr_1 shr_m Zdigits2 digits2_pos]; lia.
Qed.

Lemma iter_shr_1_digits (p : positive) (mrs : shr_record) :
  Zpos p < Zdigits2 (shr_m mrs) -> 0 < shr_m mrs ->
  0 < shr_m (iter_pos shr_1 p mrs)
  /\ Zdigits2 (shr_m (iter_pos shr_1 p mrs)) = Zdigits2 (shr_m mrs) - Zpos p.
Proof.
  revert mrs. induction p as [p IH | p IH |]; intros mrs Hd Hm; cbn [iter_pos].
  - destruct (shr_1_digits mrs) as [H1 E1]; [lia | lia |].
    destruct (IH (shr_1 mrs)) as [H2 E2]; [lia | lia |].
    destruct (IH (iter_pos shr_1 p (shr_1 mrs))) as [H3 E3]; [lia | lia |].
    split; [exact H3 | lia].
  - destruct (IH mrs) as [H2 E2]; [lia | lia |].
    destruct (IH (iter_pos shr_1 p mrs)) as [H3 E3]; [lia | lia |].
    split; [exact H3 | lia].
  - destruct (shr_1_digits mrs) as [H1 E1]; [lia | lia |].
    split; [exact H1 | lia].
Qed.

Lemma Zdigits2_pos (m : Z) : 0 < m -> 0 < Zdigits2 m.
Proof. destruct m; cbn; lia. Qed.

Lemma shr_record_of_loc_m (m : Z) (l : location) :
  shr_m (shr_record_of_loc m l) = m.
Proof. destruct l as [| []]; reflexivity. Qed.

(** Above the least exponent, rounding a mantissa to the format leaves
    a mantissa that is not zero. *)
Lemma shr_fexp_pos (m e : Z) (l : location) :
  0 < m -> emin <= e ->
  0 < shr_m (fst (shr_fexp prec emax m e l))
  /\ emin <= snd (shr_fexp prec emax m e l).
Proof.
  intros Hm He. unfold shr_fexp, shr.
  pose proof (Zdigits2_pos m Hm) as Hd.
  assert (Hn : fexp prec emax (Zdigits2 m + e) - e < Zdigits2 m).
  { unfold fexp, SpecFloat.emin, prec, emax in *. lia. }
  destruct (fexp prec emax (Zdigits2 m + e) - e) as [| p | p] eqn:En;
    cbn [fst snd]; rewrite ?shr_record_of_loc_m; try (split; lia).
  destruct (iter_shr_1_digits p (shr_record_of_loc m l)) as [H _];
    rewrite ?shr_record_of_loc_m; try lia.
Qed.

Lemma round_nearest_even_pos (m : Z) (l : location) :
  0 < m -> 0 < round_nearest_even m l.
Proof.
  intros Hm. destruct l as [| []]; cbn [round_nearest_even]; try lia.
  destruct (Z.even m); lia.
Qed.

Lemma binary_round_aux_nonzero (sx : bool) (mx ex : Z) (lx : location) :
  0 < mx -> emin <= ex ->
  is_zero_sf (binary_round_aux prec emax sx mx ex lx) = false.
Proof.
  intros Hm He. unfold binary_round_aux.
  destruct (shr_fexp_pos mx ex lx Hm He) as [H1 E1].
  destruct (shr_fexp prec emax mx ex lx) as [mrs' e']. cbn [fst snd] in *.
  pose proof (round_nearest_even_pos (shr_m mrs') (loc_of_shr_record mrs') H1) as H2.
  destruct (shr_fexp_pos _ e' loc_Exact H2 E1) as [H3 _].
  destruct (shr_fexp prec emax _ e' loc_Exact) as [mrs'' e'']. cbn [fst snd] in *.
  destruct (shr_m mrs''); try lia.
  destruct (Z.leb e'' (Z.sub emax prec)); reflexivity.
Qed.

Lemma binary_round_nonzero (sx : bool) (mx : positive) (ex : Z) :
  emin <= ex ->
  is_zero_sf (binary_round prec emax sx mx ex) = false.
Proof.
  intros He. unfold binary_round, shl_align.
  set (E := fexp prec emax (Zpos (digits2_pos mx) + ex)).
  assert (HE : emin <= E) by (unfold E, fexp; lia).
  destruct (E - ex) as [| d | d]; apply binary_round_aux_nonzero; lia.
Qed.

Lemma valid_exponent (s : bool) (m : positive) (e : Z) :
  valid_binary (S754_finite s m e) = true -> emin <= e.
Proof.
  cbn [SpecFloat.valid_binary]. unfold bounded, canonical_mantissa, fexp.
  intros H. apply andb_prop in H. destruct H as [H _].
  apply Z.eqb_eq in H. lia.
Qed.

Local Open Scope float_scope.

(** A sum of two floats above zero is not zero. *)
Lemma add_nonzero (x y : float) :
  (0 <? x) = true -> (y <? 0) = false -> (x + y =? 0) = false.
Proof.
  rewrite zero_ltb_spec, ltb_zero_spec, eqb_zero_spec, add_spec.
  unfold SF64add.
  pose proof (Prim2SF_valid x) as Vx. pose proof (Prim2SF_valid y) as Vy.
  destruct (Prim2SF x) as [s | s | | s m e], (Prim2SF y) as [t | t | | t n f];
    cbn [SFadd negative]; intros Hx Hy; subst; try discriminate;
    try reflexivity; try (now destruct s); try (now destruct s, t).
  apply negb_true_iff in Hx. subst s.
  cbn [cond_Zopp Z.add binary_normalize].
  apply valid_exponent in Vx, Vy.
  change (is_zero_sf (binary_round prec emax false
                        (fst (shl_align m e (Z.min e f))
                         + fst (shl_align n f (Z.min e f))) (Z.min e f)) = false).
  apply binary_round_nonzero. lia.
Qed.

End NonZero.

Section Binary64Claims.
Import Floats.PrimFloat Floats.SpecFloat Floats.FloatOps Floats.FloatAxioms.
Import Binary64.
Local Open Scope float_scope.

Lemma correctly_rounded_sane : sane correctly_rounded.
Proof.
  intros x _ _. split; [apply mul_self_sign | apply sqrt_sign].
Qed.

Lemma raise_to_cases (pow : float -> float) (fractional : bool) (iv : float) :
  (forall x, (0 <? x) = true -> is_infinity x = false -> (pow x <? 0) = false) ->
  (exists v, raise_to pow fractional iv = Value v /\ (v <? 0) = false)
  \/ raise_to pow fractional iv = OverflowError
  \/ (raise_to pow fractional iv = Complex
      /\ fractional = true /\ (iv <? 0) = true).
Proof.
  intros Hpow. unfold raise_to.
  destruct (is_nan iv) eqn:Hnan.
  { left. exists iv. split; [reflexivity |].
    rewrite is_nan_spec in Hnan. rewrite ltb_zero_spec.
    destruct (Prim2SF iv); try discriminate. reflexivity. }
  destruct (is_infinity iv) eqn:Hinf.
  { left. exists (abs iv). split; [reflexivity |].
    rewrite ltb_zero_spec, abs_spec. destruct (Prim2SF iv); reflexivity. }
  destruct (iv =? 0) eqn:Hzero.
  { left. exists 0. split; reflexivity. }
  destruct ((iv <? 0) && fractional) eqn:Hneg.
  { right. right. apply andb_prop in Hneg. destruct Hneg as [-> ->].
    repeat split. }
  set (iv' := if iv <? 0 then - iv else iv).
  assert (Hiv' : (0 <? iv') = true /\ is_infinity iv' = false).
  { unfold iv'. rewrite ltb_zero_spec.
    rewrite is_nan_spec in Hnan. rewrite is_infinity_spec in Hinf.
    rewrite eqb_zero_spec in Hzero.
    destruct (Prim2SF iv) as [s | s | | s m e] eqn:E; try discriminate.
    cbn [negative]. destruct s.
    - rewrite zero_ltb_spec, is_infinity_spec, opp_spec, E. split; reflexivity.
    - rewrite zero_ltb_spec, is_infinity_spec, E. split; reflexivity. }
  destruct Hiv' as [Hpos Hfin].
  destruct (iv' =? 1).
  { left. exists 1. split; reflexivity. }
  destruct (is_infinity (pow iv')).
  { right. left. reflexivity. }
  left. exists (pow iv'). split; [reflexivity | now apply Hpow].
Qed.

Lemma pow2_cases (m : Libm) (x : float) :
  sane m ->
  (exists v, pow2 m x = Value v /\ (v <? 0) = false)
  \/ pow2 m x = OverflowError.
Proof.
  intros Hm. unfold pow2.
  destruct (raise_to_cases (pow_2 m) false x) as [H | [H | (_ & H & _)]];
    [intros y H1 H2; apply (Hm y H1 H2) | now left | now right | discriminate].
Qed.

Lemma pow_half_cases (m : Libm) (x : float) :
  sane m -> (x <? 0) = false ->
  (exists v, pow_half m x = Value v /\ (v <? 0) = false)
  \/ pow_half m x = OverflowError.
Proof.
  intros Hm Hx. unfold pow_half.
  destruct (raise_to_cases (pow_05 m) true x) as [H | [H | (_ & _ & H)]];
    [intros y H1 H2; apply (Hm y H1 H2) | now left | now right | congruence].
Qed.

(** Without the guard: a finite number below zero to the power 0.5 is
    a complex number. *)
Lemma pow_half_complex (m : Libm) (x : float) :
  (x <? 0) = true -> is_infinity x = false -> pow_half m x = Complex.
Proof.
  intros Hx Hinf. unfold pow_half, raise_to. rewrite Hinf, Hx.
  rewrite is_nan_spec, eqb_zero_spec.
  rewrite ltb_zero_spec in Hx.
  destruct (Prim2SF x); try discriminate; reflexivity.
Qed.

(** The divisors [sc] and [sh] are not zero. *)
Lemma truediv_scale (a k c : float) :
  (0 <? k) = true -> (c <? 0) = false ->
  truediv a (1 + k * c) = Value (a / (1 + k * c)).
Proof.
  intros Hk Hc. unfold truediv. rewrite add_nonzero; [reflexivity .. |].
  apply mul_sign; [| exact Hc].
  rewrite ltb_zero_spec. rewrite zero_ltb_spec in Hk.
  destruct (Prim2SF k) as [s | s | | s n e]; try discriminate;
    now destruct s.
Qed.

Tactic Notation "step_pow2" constr(m) constr(x) constr(Hm)
    ident(v) ident(Hv) :=
  destruct (pow2_cases m x Hm) as [(v & -> & Hv) | ->];
  cbn [bind]; [| exact I].

Tactic Notation "step_pow_half" constr(m) constr(x) constr(Hm) constr(Hx)
    ident(v) ident(Hv) :=
  destruct (pow_half_cases m x Hm Hx) as [(v & -> & Hv) | ->];
  cbn [bind]; [| exact I].

(** The outcomes of [delta_e_cie94] and the locals of a run that
    returns. *)
Lemma delta_e_cie94_locals_spec (m : Libm) (lab1 lab2 : Lab) :
  sane m ->
  match delta_e_cie94_locals m lab1 lab2 with
  | Value l =>
      ((dhSquared l <? 0) = true -> dH l = 0)
      /\ ((dhSquared l <? 0) = false
          -> pow_half m (dhSquared l) = Value (dH l))
      /\ (dE l <? 0) = false
  | OverflowError => True
  | Complex | ZeroDivisionError => False
  end.
Proof.
  intros Hm. destruct lab1 as [[L1 a1] b1], lab2 as [[L2 a2] b2].
  unfold delta_e_cie94_locals.
  step_pow2 m a1 Hm a1_2 Ha1.
  step_pow2 m b1 Hm b1_2 Hb1.
  step_pow_half m (a1_2 + b1_2) Hm (add_sign _ _ Ha1 Hb1) c1 Hc1.
  step_pow2 m a2 Hm a2_2 Ha2.
  step_pow2 m b2 Hm b2_2 Hb2.
  step_pow_half m (a2_2 + b2_2) Hm (add_sign _ _ Ha2 Hb2) c2 Hc2.
  step_pow2 m (a1 - a2) Hm da_2 Hda.
  step_pow2 m (b1 - b2) Hm db_2 Hdb.
  step_pow2 m (c1 - c2) Hm dC_2 HdC.
  set (dhS := da_2 + db_2 - dC_2).
  assert (HdH : exists dH,
             ((if dhS <? 0 then Value 0 else pow_half m dhS) = Value dH
              /\ ((dhS <? 0) = true -> dH = 0)
              /\ ((dhS <? 0) = false -> pow_half m dhS = Value dH)
              /\ (dH <? 0) = false)
             \/ (if dhS <? 0 then Value 0 else pow_half m dhS)
                = OverflowError).
  { destruct (dhS <? 0) eqn:E.
    - exists 0. left. repeat split; try reflexivity; discriminate.
    - destruct (pow_half_cases m dhS Hm E) as [(v & Hv & Hs) | Hv].
      + exists v. left. repeat split; auto; discriminate.
      + exists 0. now right. }
  destruct HdH as (dH & [(-> & Hclamp & Hroot & HdH) | ->]);
    cbn [bind]; [| exact I].
  cbv zeta.
  change (truediv (L1 - L2) (1 * 1)) with (Value ((L1 - L2) / (1 * 1))).
  cbn [bind].
  step_pow2 m ((L1 - L2) / (1 * 1)) Hm tL HtL.
  rewrite (truediv_scale (c1 - c2) 0.045 c1 eq_refl Hc1). cbn [bind].
  step_pow2 m ((c1 - c2) / (1 + 0.045 * c1)) Hm tC HtC.
  rewrite (truediv_scale dH 0.015 c1 eq_refl Hc1). cbn [bind].
  step_pow2 m (dH / (1 + 0.015 * c1)) Hm tH HtH.
  step_pow_half m (tL + tC + tH) Hm
    (add_sign _ _ (add_sign _ _ HtL HtC) HtH) dE HdE.
  cbn [dhSquared Binary64.dH Binary64.dE].
  split; [exact Hclamp | split; [exact Hroot | exact HdE]].
Qed.




End Binary64Claims.

(* ------------------------------------------------------------------ *)
(** ** [rgb2lab] is injective *)
(* ------------------------------------------------------------------ *)

Section ConversionInjective.
Import ColorSpace.
Local Open Scope R_scope.

Lemma Rpower_root (v : R) (n : nat) (e : R) :
  0 < v -> INR n * e = 1 -> Rpower (v ^ n) e = v.
Proof.
  intros Hv He.
  rewrite <- (Rpower_pow n v Hv), Rpower_mult, He.
  apply Rpower_1, Hv.
Qed.

Lemma lab_f_increasing (x y : R) : x < y -> lab_f x < lab_f y.
Proof.
  intros Hxy. unfold lab_f.
  destruct (Rlt_dec 0.008856 x) as [Hx | Hx], (Rlt_dec 0.008856 y) as [Hy | Hy];
    try lra.
  - apply Rlt_Rpower_l; lra.
  - set (v := 7.787 * 0.008856 + 16 / 116).
    assert (Hv : 0 < v) by (unfold v; lra).
    assert (Hv3 : v ^ 3 < 0.008856) by (unfold v; lra).
    apply Rle_lt_trans with v; [unfold v; lra |].
    rewrite <- (Rpower_root v 3 (1 / 3) Hv) by (simpl; lra).
    apply Rlt_Rpower_l; [lra |].
    split; [apply pow_lt, Hv | lra].
Qed.

Lemma srgb_increasing (x y : R) : x < y -> srgb x < srgb y.
Proof.
  intros Hxy. unfold srgb.
  destruct (Rlt_dec 0.04045 x) as [Hx | Hx], (Rlt_dec 0.04045 y) as [Hy | Hy];
    try lra.
  - apply Rlt_Rpower_l; [lra |]. split.
    + apply Rdiv_lt_0_compat; lra.
    + apply Rmult_lt_compat_r; lra.
  - set (w := 0.04045 / 12.92).
    set (u := (0.04045 + 0.055) / 1.055).
    assert (Hw : 0 < w) by (unfold w; lra).
    assert (Hu : 0 < u) by (unfold u; lra).
    assert (Hwu : w ^ 5 <= u ^ 12) by (unfold w, u; lra).
    apply Rle_lt_trans with w; [unfold w; lra |].
    apply Rle_lt_trans with (Rpower u 2.4).
    + rewrite <- (Rpower_root w 5 (1 / 5) Hw) by (simpl; lra).
      replace 2.4 with (INR 12 * (1 / 5)) by (simpl; lra).
      rewrite <- Rpower_mult, (Rpower_pow 12 u Hu).
      apply Rle_Rpower_l; [lra |].
      split; [apply pow_lt, Hw | exact Hwu].
    + apply Rlt_Rpower_l; [lra |]. split; [exact Hu |].
      unfold u. apply Rmult_lt_compat_r; lra.
Qed.

Lemma increasing_injective (f : R -> R) :
  (forall x y, x < y -> f x < f y) -> forall x y, f x = f y -> x = y.
Proof.
  intros Hf x y Heq.
  destruct (Rtotal_order x y) as [H | [H | H]]; [| exact H |].
  - apply Hf in H. lra.
  - apply Hf in H. lra.
Qed.

Lemma rgb2lab_injective (c d : Color) : rgb2lab c = rgb2lab d -> c = d.
Proof.
  destruct c as [[r g] b], d as [[r' g'] b'].
  unfold rgb2lab. intros Heq. injection Heq as HL Ha Hb.
  assert (Hy : forall p q, 116 * lab_f p - 16 = 116 * lab_f q - 16 -> p = q).
  { intros p q H. apply (increasing_injective lab_f lab_f_increasing). lra. }
  apply Hy in HL.
  rewrite HL in Ha, Hb.
  assert (Hx : forall p q m, 500 * (lab_f p - m) = 500 * (lab_f q - m) -> p = q).
  { intros p q m H. apply (increasing_injective lab_f lab_f_increasing). lra. }
  apply Hx in Ha.
  assert (Hz : forall p q m, 200 * (m - lab_f p) = 200 * (m - lab_f q) -> p = q).
  { intros p q m H. apply (increasing_injective lab_f lab_f_increasing). lra. }
  apply Hz in Hb.
  set (R1 := srgb (IZR r / 255.0)) in *. set (R2 := srgb (IZR r' / 255.0)) in *.
  set (G1 := srgb (IZR g / 255.0)) in *. set (G2 := srgb (IZR g' / 255.0)) in *.
  set (B1 := srgb (IZR b / 255.0)) in *. set (B2 := srgb (IZR b' / 255.0)) in *.
  assert (HR : R1 = R2) by lra.
  assert (HG : G1 = G2) by lra.
  assert (HB : B1 = B2) by lra.
  apply (increasing_injective srgb srgb_increasing) in HR, HG, HB.
  assert (Hr : IZR r = IZR r') by lra.
  assert (Hg : IZR g = IZR g') by lra.
  assert (Hb' : IZR b = IZR b') by lra.
  apply eq_IZR in Hr, Hg, Hb'. congruence.
Qed.

End ConversionInjective.

(* ------------------------------------------------------------------ *)
(** ** What the palette loop computes *)
(* ------------------------------------------------------------------ *)

Section MatcherFacts.
Import ColorSpace Matcher.
Local Open Scope R_scope.

Lemma delta_e_nonneg (lab1 lab2 : Lab) : 0 <= float_of (delta_e_cie94 lab1 lab2).
Proof.
  destruct lab1 as [[L1 a1] b1], lab2 as [[L2 a2] b2].
  destruct (delta_e_cie94_eq L1 a1 b1 L2 a2 b2) as (dH & _ & ->).
  apply sqrt_pos.
Qed.

Lemma delta_e_refl (lab : Lab) : float_of (delta_e_cie94 lab lab) = 0.
Proof.
  destruct lab as [[L a] b].
  destruct (delta_e_cie94_eq L a b L a b) as (dH & HdH & ->).
  cbn [float_of]. apply sqrt_lem_1; [apply sum_sq3_nonneg | lra |].
  assert (dH = 0).
  { replace ((a - a) ^ 2 + (b - b) ^ 2
             - (sqrt (a ^ 2 + b ^ 2) - sqrt (a ^ 2 + b ^ 2)) ^ 2) with 0 in HdH
      by ring.
    unfold hue_term in HdH. destruct (Rlt_dec 0 0); [lra |].
    rewrite pow_half_defined in HdH by lra. rewrite sqrt_0 in HdH. congruence. }
  subst dH. unfold Rdiv. ring.
Qed.

Lemma sq_sum3_zero (a b c : R) : a ^ 2 + b ^ 2 + c ^ 2 = 0 -> a = 0 /\ b = 0 /\ c = 0.
Proof. intros H. repeat split; nra. Qed.

Lemma div_zero (a s : R) : 0 < s -> a / s = 0 -> a = 0.
Proof.
  intros Hs H. unfold Rdiv in H.
  apply Rmult_integral in H. destruct H as [H | H]; [exact H |].
  assert (0 < / s) by (apply Rinv_0_lt_compat, Hs). lra.
Qed.

Lemma delta_e_zero (lab1 lab2 : Lab) :
  float_of (delta_e_cie94 lab1 lab2) = 0 -> lab1 = lab2.
Proof.
  destruct lab1 as [[L1 a1] b1], lab2 as [[L2 a2] b2].
  destruct (delta_e_cie94_eq L1 a1 b1 L2 a2 b2) as (dH & HdH & ->).
  cbn [float_of]. intros H0.
  apply sqrt_eq_0 in H0; [| apply sum_sq3_nonneg].
  apply sq_sum3_zero in H0. destruct H0 as (HL & HC & HH).
  assert (Hc1 : 0 <= sqrt (a1 ^ 2 + b1 ^ 2)) by apply sqrt_pos.
  apply div_zero in HC; [| lra].
  apply div_zero in HH; [| lra].
  subst dH. rewrite HC in HdH.
  assert (Hd : (a1 - a2) ^ 2 + (b1 - b2) ^ 2 <= 0).
  { unfold hue_term in HdH.
    destruct (Rlt_dec ((a1 - a2) ^ 2 + (b1 - b2) ^ 2 - 0 ^ 2) 0) as [Hneg | Hpos];
      [lra |].
    rewrite pow_half_defined in HdH by lra.
    injection HdH as HdH. apply sqrt_eq_0 in HdH; lra. }
  assert (Hsq : (a1 - a2) ^ 2 + (b1 - b2) ^ 2 + 0 ^ 2 = 0).
  { generalize (pow2_ge_0 (a1 - a2)) (pow2_ge_0 (b1 - b2)). lra. }
  apply sq_sum3_zero in Hsq. destruct Hsq as (Ha & Hb & _).
  assert (a1 = a2) by lra.
  assert (b1 = b2) by lra.
  assert (L1 = L2) by (unfold Rdiv in HL; lra).
  congruence.
Qed.

Lemma distance_nonneg (c p : Color) : 0 <= distance c p.
Proof. apply delta_e_nonneg. Qed.

Lemma distance_refl (c : Color) : distance c c = 0.
Proof. apply delta_e_refl. Qed.

Lemma distance_zero (c p : Color) : distance c p = 0 -> c = p.
Proof. intros H. apply rgb2lab_injective, delta_e_zero, H. Qed.

Lemma lt_inf_spec (d : R) (m : option R) :
  lt_inf d m = true <-> match m with None => True | Some m0 => d < m0 end.
Proof.
  unfold lt_inf. destruct m as [m0 |]; [| tauto].
  destruct (Rlt_dec d m0); split; intros; try lra; try discriminate; auto.
Qed.

(** The events of a call do not depend on the trace it is appended to. *)
Lemma scan_palette_run (lab1 : Lab) (P : Palette) (m : option R)
    (best : option Color) (s : Trace) :
  scan_palette lab1 P m best s
  = (fst (scan_palette lab1 P m best []), s ++ map ELab P).
Proof.
  revert m best s. induction P as [| p P IH]; intros m best s.
  - simpl. unfold ret. now rewrite app_nil_r.
  - cbn [scan_palette map]. unfold bind, rgb2lab_call, emit, ret, bind.
    destruct (lt_inf _ m).
    + rewrite IH. rewrite (IH _ _ ([] ++ [ELab p])).
      cbn [fst]. now rewrite <- app_assoc.
    + rewrite IH. rewrite (IH _ _ ([] ++ [ELab p])).
      cbn [fst]. now rewrite <- app_assoc.
Qed.

Lemma find_closest_color_events (P : Palette) (c : Color) :
  snd (find_closest_color P c [])
  = match P with
    | [] => []
    | _ => ELab c :: EScan c :: map ELab P
    end.
Proof.
  unfold find_closest_color. destruct P as [| p P]; [reflexivity |].
  unfold bind, rgb2lab_call, emit, ret, bind.
  rewrite scan_palette_run. reflexivity.
Qed.

Lemma find_closest_color_run (P : Palette) (c : Color) (s : Trace) :
  find_closest_color P c s
  = (closest P c, s ++ snd (find_closest_color P c [])).
Proof.
  rewrite find_closest_color_events.
  unfold closest, find_closest_color.
  destruct P as [| p P].
  - unfold ret. cbn. now rewrite app_nil_r.
  - unfold bind, rgb2lab_call, emit, ret, bind.
    rewrite scan_palette_run.
    rewrite (scan_palette_run _ _ _ _ (([] ++ _) ++ _)).
    cbn [fst]. rewrite <- !app_assoc. reflexivity.
Qed.

Lemma scan_palette_step (lab1 : Lab) (p : Color) (P : Palette)
    (m : option R) (best : option Color) :
  fst (scan_palette lab1 (p :: P) m best [])
  = if lt_inf (float_of (delta_e_cie94 lab1 (rgb2lab p))) m
    then fst (scan_palette lab1 P
                (Some (float_of (delta_e_cie94 lab1 (rgb2lab p)))) (Some p) [])
    else fst (scan_palette lab1 P m best []).
Proof.
  cbn [scan_palette]. unfold bind, rgb2lab_call, emit, ret, bind.
  destruct (lt_inf _ m); rewrite scan_palette_run; reflexivity.
Qed.

(** What the palette loop computes: either no entry beats the running
    minimum, or the result is the first entry of least distance. *)
Lemma scan_palette_spec (lab1 : Lab) (P : Palette) (m : option R)
    (best : option Color) :
  let d := fun q => float_of (delta_e_cie94 lab1 (rgb2lab q)) in
  ((forall q, In q P -> lt_inf (d q) m = false)
   /\ fst (scan_palette lab1 P m best []) = best)
  \/ (exists l1 p l2,
        P = l1 ++ p :: l2
        /\ fst (scan_palette lab1 P m best []) = Some p
        /\ lt_inf (d p) m = true
        /\ (forall q, In q l1 -> d p < d q)
        /\ (forall q, In q l2 -> d p <= d q)).
Proof.
  intros d. revert m best. induction P as [| p P IH]; intros m best.
  - left. split; [intros q [] | reflexivity].
  - rewrite scan_palette_step. fold (d p).
    destruct (lt_inf (d p) m) eqn:Hp.
    + right.
      destruct (IH (Some (d p)) (Some p))
        as [[Hno Hres] | (l1 & p' & l2 & HP & Hres & Hlt & H1 & H2)].
      * exists [], p, P. repeat split; auto.
        -- intros q [].
        -- intros q Hq. specialize (Hno q Hq).
           destruct (Rle_dec (d p) (d q)) as [H | H]; [exact H |].
           assert (lt_inf (d q) (Some (d p)) = true) by (apply lt_inf_spec; lra).
           congruence.
      * exists (p :: l1), p', l2. apply lt_inf_spec in Hlt.
        repeat split; auto.
        -- now rewrite HP.
        -- apply lt_inf_spec. apply lt_inf_spec in Hp.
           destruct m as [m0 |]; [lra | exact I].
        -- intros q [<- | Hq]; [exact Hlt | now apply H1].
    + destruct (IH m best)
        as [[Hno Hres] | (l1 & p' & l2 & HP & Hres & Hlt & H1 & H2)].
      * left. split; [| exact Hres].
        intros q [<- | Hq]; [exact Hp | now apply Hno].
      * right. exists (p :: l1), p', l2. repeat split; auto.
        -- now rewrite HP.
        -- intros q [<- | Hq]; [| now apply H1].
           apply lt_inf_spec in Hlt.
           destruct m as [m0 |]; [| cbn in Hp; discriminate Hp].
           destruct (Rlt_dec (d p) m0) as [H | H]; [| lra].
           assert (lt_inf (d p) (Some m0) = true) by (apply lt_inf_spec; lra).
           congruence.
Qed.

Lemma closest_cons (p : Color) (P : Palette) (c : Color) :
  closest (p :: P) c = fst (scan_palette (rgb2lab c) (p :: P) None None []).
Proof.
  unfold closest, find_closest_color, bind, rgb2lab_call, emit, ret, bind.
  now rewrite scan_palette_run.
Qed.

(** On a non-empty palette the matcher returns the first entry of least
    distance. *)
Lemma closest_first_min (P : Palette) (c : Color) :
  P <> [] ->
  exists l1 p l2,
    P = l1 ++ p :: l2
    /\ closest P c = Some p
    /\ (forall q, In q l1 -> distance c p < distance c q)
    /\ (forall q, In q l2 -> distance c p <= distance c q).
Proof.
  intros HP. destruct P as [| p0 P]; [congruence |].
  rewrite closest_cons.
  destruct (scan_palette_spec (rgb2lab c) (p0 :: P) None None)
    as [[Hno _] | (l1 & p & l2 & H1 & H2 & _ & H3 & H4)].
  - specialize (Hno p0 (or_introl eq_refl)). discriminate.
  - exists l1, p, l2. auto.
Qed.

Lemma closest_some (P : Palette) (c : Color) :
  exists p, closest P c = Some p /\ (P = [] \/ In p P).
Proof.
  destruct P as [| p0 P].
  - exists c. split; [reflexivity | now left].
  - destruct (closest_first_min (p0 :: P) c) as (l1 & p & l2 & H1 & H2 & _);
      [discriminate |].
    exists p. split; [exact H2 |]. right. rewrite H1.
    apply in_or_app. right. now left.
Qed.

End MatcherFacts.

(* ------------------------------------------------------------------ *)
(** ** The matcher: first minimum, exact match, empty palette *)
(* ------------------------------------------------------------------ *)

Section MatcherClaims.
Import ColorSpace Matcher.
Local Open Scope R_scope.

(** An entry of the palette is matched to itself. *)
Lemma closest_exact (P : Palette) (c : Color) :
  In c P -> closest P c = Some c.
Proof.
  intros Hin.
  destruct (closest_first_min P c) as (l1 & p & l2 & HP & Hres & H1 & H2).
  { intros ->. destruct Hin. }
  rewrite Hres. f_equal. symmetry. apply distance_zero.
  assert (Hle : distance c p <= distance c c).
  { rewrite HP in Hin. apply in_app_or in Hin.
    destruct Hin as [Hin | [-> | Hin]].
    - apply Rlt_le, H1, Hin.
    - apply Rle_refl.
    - apply H2, Hin. }
  rewrite distance_refl in Hle.
  generalize (distance_nonneg c p). lra.
Qed.



(** C7.  On the empty palette the matcher returns the query colour and
    leaves the trace as it found it: no Lab conversion, no palette scan. *)
Theorem empty_palette_identity (c : Color) (s : Trace) :
  find_closest_color [] c s = (Some c, s).
Proof. reflexivity. Qed.

End MatcherClaims.

(* ------------------------------------------------------------------ *)
(** ** Dictionaries, sorting and [pop] *)
(* ------------------------------------------------------------------ *)

Section ContainerFacts.

Variables (K V : Type) (eqb : K -> K -> bool).
Hypothesis eqb_eq : forall a b, eqb a b = true <-> a = b.

Lemma eqb_refl_true (a : K) : eqb a a = true.
Proof. now apply eqb_eq. Qed.

Lemma dict_append_keys (k : K) (v : V) (d : list (K * list V)) :
  map fst (dict_append eqb k v d)
  = if existsb (eqb k) (map fst d) then map fst d else map fst d ++ [k].
Proof.
  induction d as [| [k0 vs] d IH]; cbn [dict_append map fst existsb app].
  - reflexivity.
  - destruct (eqb k k0) eqn:E0; cbn [map fst orb].
    + reflexivity.
    + rewrite IH. destruct (existsb (eqb k) (map fst d)); reflexivity.
Qed.

Lemma existsb_eqb_In (k : K) (l : list K) :
  existsb (eqb k) l = true <-> In k l.
Proof.
  rewrite existsb_exists. split.
  - intros (x & Hx & E). apply eqb_eq in E. now subst.
  - intros H. exists k. split; [exact H | apply eqb_refl_true].
Qed.

Lemma dict_append_In_keys (k k' : K) (v : V) (d : list (K * list V)) :
  In k (map fst (dict_append eqb k' v d)) <-> k = k' \/ In k (map fst d).
Proof.
  rewrite dict_append_keys.
  destruct (existsb (eqb k') (map fst d)) eqn:E.
  - apply existsb_eqb_In in E. split; [auto | intros [-> | H]; auto].
  - rewrite in_app_iff. cbn. split; [intros [H | [H | []]]; auto | ].
    intros [-> | H]; auto.
Qed.

Lemma dict_append_NoDup (k : K) (v : V) (d : list (K * list V)) :
  NoDup (map fst d) -> NoDup (map fst (dict_append eqb k v d)).
Proof.
  intros Hd. rewrite dict_append_keys.
  destruct (existsb (eqb k) (map fst d)) eqn:E; [exact Hd |].
  apply NoDup_app; [exact Hd | repeat constructor; intros [] | ].
  intros x Hx [<- | []].
  apply existsb_eqb_In in Hx. congruence.
Qed.

Lemma dict_append_values (k : K) (v : V) (d : list (K * list V)) :
  Permutation (flat_map snd (dict_append eqb k v d)) (flat_map snd d ++ [v]).
Proof.
  induction d as [| [k0 vs] d IH]; cbn [dict_append flat_map snd app].
  - reflexivity.
  - destruct (eqb k k0); cbn [flat_map snd].
    + rewrite <- !app_assoc. apply Permutation_app_head.
      apply Permutation_app_comm.
    + rewrite <- app_assoc. apply Permutation_app_head, IH.
Qed.

Lemma flat_map_ext_in' (A B : Type) (f g : A -> list B) (l : list A) :
  (forall a, In a l -> f a = g a) -> flat_map f l = flat_map g l.
Proof.
  induction l as [| a l IH]; intros H; cbn [flat_map]; [reflexivity |].
  rewrite (H a (or_introl eq_refl)), IH; [reflexivity |].
  intros b Hb. apply H. now right.
Qed.

(** Reading every key in order gives back the values. *)
Lemma dict_get_all (d : list (K * list V)) :
  NoDup (map fst d) ->
  flat_map (fun k => dict_get eqb k d) (map fst d) = flat_map snd d.
Proof.
  induction d as [| [k0 vs] d IH]; cbn [map fst flat_map snd]; [reflexivity |].
  intros Hd. inversion Hd as [| ? ? Hnot Hd']; subst.
  cbn [dict_get]. rewrite eqb_refl_true. f_equal.
  rewrite <- (IH Hd').
  apply flat_map_ext_in'. intros k Hk.
  destruct (eqb k k0) eqn:E; [| reflexivity].
  apply eqb_eq in E. subst. contradiction.
Qed.

End ContainerFacts.

Section SortedFacts.

Variables (A : Type) (key : A -> Z).

Lemma insert_sorted_perm (a : A) (l : list A) :
  Permutation (insert_sorted key a l) (a :: l).
Proof.
  induction l as [| b l IH]; cbn [insert_sorted]; [reflexivity |].
  destruct (key a <=? key b)%Z; [reflexivity |].
  rewrite IH. apply perm_swap.
Qed.

Lemma sorted_perm (l : list A) : Permutation (sorted key l) l.
Proof.
  induction l as [| a l IH]; cbn [sorted]; [reflexivity |].
  rewrite insert_sorted_perm. now apply perm_skip.
Qed.

Lemma pop_some (i : nat) (l : list A) :
  (i < length l)%nat ->
  exists a r, pop i l = Some (a, r) /\ Permutation l (a :: r)
              /\ length l = S (length r).
Proof.
  revert i. induction l as [| b l IH]; intros i Hi; cbn in Hi; [lia |].
  destruct i as [| j]; cbn [pop].
  - exists b, l. repeat split; reflexivity.
  - destruct (IH j) as (a & r & -> & Hp & Hl); [lia |].
    exists a, (b :: r). repeat split.
    + rewrite Hp. apply perm_swap.
    + cbn [length]. lia.
Qed.

End SortedFacts.

(* ------------------------------------------------------------------ *)
(** ** The nearest-neighbour order of a cell *)
(* ------------------------------------------------------------------ *)

Section NearestFacts.
Import ColorSpace Matcher PixelStyle.

Lemma nearest_scan_range (last : Point) (rem : list Point) (i idx : nat)
    (nd : option R) :
  let j := nearest_scan last rem i idx nd in
  j = idx \/ (i <= j < i + length rem)%nat.
Proof.
  revert i idx nd. induction rem as [| p rem IH]; intros i idx nd;
    cbn [nearest_scan length].
  - now left.
  - destruct (lt_inf _ nd).
    + destruct (IH (S i) i (Some (dist p last))) as [H | H]; right; lia.
    + destruct (IH (S i) idx nd) as [H | H]; [now left | right; lia].
Qed.

Lemma nearest_scan_lt (last : Point) (rem : list Point) :
  rem <> [] -> (nearest_scan last rem 0 0 None < length rem)%nat.
Proof.
  intros Hne.
  destruct (nearest_scan_range last rem 0 0 None) as [H | H].
  - rewrite H. destruct rem; [congruence | cbn; lia].
  - lia.
Qed.

Lemma nn_loop_perm (fuel : nat) (sorted_pixels remaining : list Point) :
  (length remaining <= fuel)%nat ->
  exists l, nn_loop fuel sorted_pixels remaining = Some l
            /\ Permutation (sorted_pixels ++ remaining) l.
Proof.
  revert sorted_pixels remaining.
  induction fuel as [| fuel IH]; intros sp rem Hlen.
  - destruct rem; [| cbn in Hlen; lia].
    exists sp. split; [reflexivity | now rewrite app_nil_r].
  - destruct rem as [| p rem].
    + exists sp. split; [reflexivity | now rewrite app_nil_r].
    + cbn [nn_loop].
      set (idx := nearest_scan _ _ 0 0 None).
      destruct (@pop_some _ idx (p :: rem)) as (a & r & -> & Hp & Hl).
      { apply nearest_scan_lt. discriminate. }
      destruct (IH (sp ++ [a]) r) as (l & Hl' & Hperm).
      { cbn in Hl, Hlen. lia. }
      exists l. split; [exact Hl' |].
      rewrite <- Hperm, <- app_assoc. cbn [app].
      apply Permutation_app_head, Hp.
Qed.

Lemma order_cell_perm (cell_pixels : list Point) :
  exists l, order_cell cell_pixels = Some l /\ Permutation cell_pixels l.
Proof.
  destruct cell_pixels as [| p [| q rest]].
  - exists []. split; reflexivity.
  - exists [p]. split; reflexivity.
  - cbn [order_cell].
    destruct (nn_loop_perm (length (q :: rest)) [p] (q :: rest)) as (l & H & Hp);
      [lia |].
    exists l. split; [exact H | exact Hp].
Qed.

Lemma draw_cell_pixels_never (l : list Point) (s : Trace) :
  draw_cell_pixels never l s = (Next, s ++ flat_map Shape.point_events l).
Proof.
  revert s. induction l as [| [x y] l IH]; intros s; cbn [draw_cell_pixels flat_map].
  - unfold ret. now rewrite app_nil_r.
  - unfold bind, poll, emit, never. rewrite IH.
    unfold Shape.point_events. cbn [fst snd app]. now rewrite <- !app_assoc.
Qed.

End NearestFacts.

(* ------------------------------------------------------------------ *)
(** ** The grouping loop of the pixel style *)
(* ------------------------------------------------------------------ *)

Section GroupingFacts.
Import ColorSpace Matcher PixelStyle Shape.

Lemma Color_eqb_eq (c d : Color) : Color_eqb c d = true <-> c = d.
Proof.
  destruct c as [[r1 g1] b1], d as [[r2 g2] b2]. unfold Color_eqb.
  rewrite !andb_true_iff, !Z.eqb_eq. split.
  - intros [[-> ->] ->]. reflexivity.
  - intros H. injection H as -> -> ->. auto.
Qed.

Lemma key_eqb_eq (a b : option Color) : key_eqb a b = true <-> a = b.
Proof.
  destruct a as [c |], b as [d |]; cbn [key_eqb].
  - rewrite Color_eqb_eq. split; congruence.
  - split; discriminate.
  - split; discriminate.
  - tauto.
Qed.

Lemma visible_spec (img : Image) (x y : nat) :
  visible img (x, y)
  = negb (is_white (pixel_color img x y)) && negb (is_transparent img x y).
Proof. reflexivity. Qed.

Variables (P : Palette) (x1 y1 : Z) (pw ph : R) (img : Image).

Local Abbreviation pc xy := (pixel_color img (fst xy) (snd xy)).
Local Abbreviation target xy := (closest P (pc xy)).
Local Abbreviation ctr := (center x1 y1 pw ph).

(** The grouping loop: what it appends to the trace and to the
    dictionary. *)
Lemma group_pixels_run (todo : list (nat * nat)) (d : ColorDict) (s : Trace) :
  exists d',
    group_pixels P x1 y1 pw ph img todo d s
    = (d', s ++ flat_map (fun xy => snd (find_closest_color P (pc xy) []))
                  (filter (visible img) todo))
    /\ (forall k, In k (map fst d') <->
                  In k (map fst d)
                  \/ exists xy, In xy (filter (visible img) todo) /\ target xy = k)
    /\ (NoDup (map fst d) -> NoDup (map fst d'))
    /\ Permutation (flat_map snd d')
         (flat_map snd d ++ map ctr (filter (visible img) todo)).
Proof.
  revert d s. induction todo as [| [x y] todo IH]; intros d s.
  - exists d. cbn. unfold ret. rewrite !app_nil_r. repeat split; auto.
    + intros [H | (xy & [] & _)]. exact H.
  - cbn [group_pixels filter]. rewrite visible_spec.
    destruct (is_white (pixel_color img x y)) eqn:Hw; cbn [negb andb].
    { apply IH. }
    destruct (is_transparent img x y) eqn:Ht; cbn [negb].
    { apply IH. }
    unfold bind at 1. rewrite find_closest_color_run.
    destruct (IH (dict_append key_eqb (closest P (pixel_color img x y))
                    (center x1 y1 pw ph (x, y)) d)
                 (s ++ snd (find_closest_color P (pixel_color img x y) [])))
      as (d' & Hrun & Hkeys & Hnd & Hperm).
    exists d'. split; [| split; [| split]].
    + rewrite Hrun. cbn [flat_map fst snd].
      now rewrite <- app_assoc.
    + intros k. rewrite Hkeys, (dict_append_In_keys _ _ key_eqb key_eqb_eq).
      split.
      * intros [[-> | H] | (xy & Hin & Ht')].
        -- right. exists (x, y). split; [now left | reflexivity].
        -- now left.
        -- right. exists xy. split; [now right | exact Ht'].
      * intros [H | (xy & [<- | Hin] & Ht')].
        -- left. now right.
        -- left. left. symmetry. exact Ht'.
        -- right. exists xy. auto.
    + intros H. apply Hnd, (dict_append_NoDup _ _ key_eqb key_eqb_eq), H.
    + rewrite Hperm, (dict_append_values _ _ key_eqb). cbn [map].
      rewrite <- app_assoc. reflexivity.
Qed.

End GroupingFacts.

(* ------------------------------------------------------------------ *)
(** ** Traces *)
(* ------------------------------------------------------------------ *)

Section TraceFacts.

Lemma actions_app (s t : Trace) : actions (s ++ t) = actions s ++ actions t.
Proof. unfold actions. apply flat_map_app. Qed.

Lemma count_act_app (s t : Trace) : count_act (s ++ t) = count_act s + count_act t.
Proof. unfold count_act. now rewrite actions_app, length_app. Qed.

Lemma actions_flat_map {A : Type} (f : A -> Trace) (l : list A) :
  actions (flat_map f l) = flat_map (fun a => actions (f a)) l.
Proof.
  induction l as [| a l IH]; cbn [flat_map]; [reflexivity |].
  now rewrite actions_app, IH.
Qed.

End TraceFacts.

(* ------------------------------------------------------------------ *)
(** ** The pixel style when Esc is never pressed *)
(* ------------------------------------------------------------------ *)

Section PixelNever.
Import ColorSpace Matcher PixelStyle Shape.

Lemma poll_never (s : Trace) : poll never s = (false, s ++ [EPoll]).
Proof. reflexivity. Qed.

Lemma grid_cells_perm (x1 y1 : Z) (pixels : list Point)
    (cells : list (Z * Z * list Point)) :
  Permutation (flat_map snd (grid_cells x1 y1 pixels cells))
    (flat_map snd cells ++ pixels).
Proof.
  revert cells. induction pixels as [| p pixels IH]; intros cells;
    cbn [grid_cells].
  - now rewrite app_nil_r.
  - rewrite IH, (dict_append_values _ _ cell_eqb), <- app_assoc. reflexivity.
Qed.

Lemma draw_cells_never (cells : list (list Point)) (s : Trace) :
  exists pts,
    draw_cells never cells s = (Next, s ++ flat_map point_events pts)
    /\ Permutation pts (concat cells).
Proof.
  revert s. induction cells as [| cell cells IH]; intros s; cbn [draw_cells concat].
  - exists []. unfold ret. cbn. now rewrite app_nil_r.
  - destruct (order_cell_perm cell) as (l & -> & Hl).
    unfold bind. rewrite draw_cell_pixels_never.
    destruct (IH (s ++ flat_map point_events l)) as (pts & -> & Hp).
    exists (l ++ pts). split.
    + now rewrite flat_map_app, app_assoc.
    + now rewrite Hl, Hp.
Qed.

Lemma draw_colors_never (x1 y1 : Z) (d : ColorDict) (colors : list Color)
    (s : Trace) :
  exists groups,
    draw_colors never x1 y1 d colors s = (Next, s ++ flat_map group_events groups)
    /\ map fst groups = colors
    /\ Permutation (flat_map snd groups)
         (flat_map (fun c => dict_get key_eqb (Some c) d) colors).
Proof.
  revert s. induction colors as [| c colors IH]; intros s; cbn [draw_colors].
  - exists []. unfold ret. cbn. now rewrite app_nil_r.
  - unfold bind, emit. rewrite poll_never. cbv beta iota.
    destruct (draw_cells_never
                (map snd (grid_cells x1 y1 (dict_get key_eqb (Some c) d) []))
                ((s ++ [EPoll]) ++ [EAct (SelectColor c)]))
      as (pts & -> & Hp).
    destruct (IH (((s ++ [EPoll]) ++ [EAct (SelectColor c)])
                  ++ flat_map point_events pts)) as (groups & -> & Hk & Hperm).
    exists ((c, pts) :: groups). split; [| split].
    + cbn [flat_map group_events fst snd]. f_equal.
      rewrite <- !app_assoc. reflexivity.
    + cbn [map fst]. now rewrite Hk.
    + cbn [flat_map snd]. rewrite Hperm, Hp.
      rewrite <- flat_map_concat_map, grid_cells_perm. reflexivity.
Qed.

Lemma color_keys_some (keys : list (option Color)) :
  (forall k, In k keys -> exists c, k = Some c) ->
  exists cs, color_keys keys = Some cs /\ map Some cs = keys.
Proof.
  induction keys as [| k keys IH]; intros H.
  - exists []. split; reflexivity.
  - destruct (H k (or_introl eq_refl)) as (c & ->).
    destruct IH as (cs & Hcs & Hmap).
    { intros k Hk. apply H. now right. }
    exists (c :: cs). cbn [color_keys map]. rewrite Hcs, Hmap. split; reflexivity.
Qed.

Lemma actions_map_ELab (l : list Color) : actions (map ELab l) = [].
Proof. induction l as [| q l IH]; [reflexivity | exact IH]. Qed.

Lemma matcher_no_actions (P : Palette) (c : Color) :
  actions (snd (find_closest_color P c [])) = [].
Proof.
  rewrite find_closest_color_events. destruct P as [| p P]; [reflexivity |].
  apply (actions_map_ELab (p :: P)).
Qed.

Lemma actions_group_events (g : Color * list Point) :
  actions (group_events g) = group_actions g.
Proof.
  destruct g as [c pts]. unfold group_events, group_actions, pairs.
  cbn [fst snd actions flat_map app]. f_equal.
  fold (actions (flat_map point_events pts)).
  rewrite actions_flat_map. reflexivity.
Qed.

Lemma pairs_cons (p : Point) (pts : list Point) :
  pairs (p :: pts) = MoveTo (fst p) (snd p) :: Click :: pairs pts.
Proof. reflexivity. Qed.

Lemma filter_pairs (pts : list Point) :
  length (filter is_click (pairs pts)) = length pts
  /\ length (filter is_move (pairs pts)) = length pts
  /\ filter is_select (pairs pts) = [].
Proof.
  induction pts as [| p pts (IH1 & IH2 & IH3)]; [repeat split |].
  rewrite pairs_cons. cbn [filter is_click is_move is_select length].
  rewrite IH1, IH2, IH3. repeat split.
Qed.

Lemma count_groups (groups : list (Color * list Point)) :
  length (filter is_click (flat_map group_actions groups))
  = length (flat_map snd groups)
  /\ length (filter is_move (flat_map group_actions groups))
     = length (flat_map snd groups)
  /\ length (filter is_select (flat_map group_actions groups))
     = length groups.
Proof.
  induction groups as [| [c pts] groups (IH1 & IH2 & IH3)]; [repeat split |].
  change (flat_map group_actions ((c, pts) :: groups))
    with (SelectColor c :: (pairs pts ++ flat_map group_actions groups)).
  change (flat_map snd ((c, pts) :: groups)) with (pts ++ flat_map snd groups).
  cbn [filter is_click is_move is_select length].
  rewrite !filter_app, !length_app.
  destruct (filter_pairs pts) as (H1 & H2 & H3).
  rewrite IH1, IH2, IH3, H1, H2, H3. cbn [length]. repeat split; lia.
Qed.

End PixelNever.

Section PixelClaims.
Import ColorSpace Matcher PixelStyle Shape.

Lemma flat_map_perm {A B : Type} (f : A -> list B) (l l' : list A) :
  Permutation l l' -> Permutation (flat_map f l) (flat_map f l').
Proof.
  induction 1; cbn [flat_map].
  - reflexivity.
  - now apply Permutation_app_head.
  - rewrite !app_assoc. apply Permutation_app_tail, Permutation_app_comm.
  - etransitivity; eassumption.
Qed.

Lemma flat_map_of_map {A B C : Type} (g : A -> B) (f : B -> list C)
    (l : list A) :
  flat_map f (map g l) = flat_map (fun a => f (g a)) l.
Proof.
  induction l as [| a l IH]; cbn [map flat_map]; [reflexivity | now rewrite IH].
Qed.

(** The uncancelled pixel run, with the dictionary it draws from. *)
Lemma pixel_run_never (P : Palette) (x1 y1 : Z) (pw ph : R) (img : Image)
    (s : Trace) :
  exists groups : list (Color * list Point),
    draw_pixel_style never P x1 y1 pw ph img s
    = (Next,
       (s ++ flat_map (fun xy => snd (find_closest_color P
                                        (pixel_color img (fst xy) (snd xy)) []))
               (visible_pixels img))
       ++ flat_map group_events groups)
    /\ NoDup (map fst groups)
    /\ (forall c, In c (map fst groups) <->
                  exists xy, In xy (visible_pixels img)
                             /\ closest P (pixel_color img (fst xy) (snd xy))
                                = Some c)
    /\ Permutation (flat_map snd groups)
         (map (center x1 y1 pw ph) (visible_pixels img)).
Proof.
  unfold draw_pixel_style, bind.
  destruct (group_pixels_run P x1 y1 pw ph img
              (coords (width img) (height img)) [] s)
    as (d & Hrun & Hkeys & Hnd & Hperm).
  rewrite Hrun. fold (visible_pixels img) in *. cbn [app map flat_map] in *.
  destruct (color_keys_some (map fst d)) as (cs0 & Hcs0 & Hmap).
  { intros k Hk. apply Hkeys in Hk. destruct Hk as [[] | (xy & _ & <-)].
    destruct (closest_some P (pixel_color img (fst xy) (snd xy))) as (p & Hp & _).
    exists p. exact Hp. }
  unfold sorted_colors. rewrite Hcs0.
  destruct (draw_colors_never x1 y1 d (sorted color_sum cs0)
              (s ++ flat_map (fun xy => snd (find_closest_color P
                                          (pixel_color img (fst xy) (snd xy)) []))
                 (visible_pixels img)))
    as (groups & Hdraw & Hfst & Hpts).
  exists groups. split; [exact Hdraw |].
  assert (Hsorted : Permutation (sorted color_sum cs0) cs0) by apply sorted_perm.
  assert (Hnd0 : NoDup cs0).
  { apply (NoDup_map_inv Some). rewrite Hmap. apply Hnd. constructor. }
  split; [| split].
  - rewrite Hfst. apply (Permutation_NoDup (Permutation_sym Hsorted) Hnd0).
  - intros c0. rewrite Hfst. split.
    + intros Hin. apply (Permutation_in _ Hsorted) in Hin.
      apply (in_map Some) in Hin. rewrite Hmap in Hin.
      apply Hkeys in Hin. destruct Hin as [[] | H]. exact H.
    + intros H. apply (Permutation_in _ (Permutation_sym Hsorted)).
      assert (Hin : In (Some c0) (map fst d)) by (apply Hkeys; now right).
      rewrite <- Hmap in Hin. apply in_map_iff in Hin.
      destruct Hin as (c1 & Heq & Hin). now injection Heq as <-.
  - rewrite Hpts, (flat_map_perm _ _ _ Hsorted).
    rewrite <- (flat_map_of_map Some (fun k => dict_get key_eqb k d)).
    rewrite Hmap, (dict_get_all _ _ key_eqb key_eqb_eq d) by (apply Hnd; constructor).
    exact Hperm.
Qed.

Lemma actions_matcher_pass (P : Palette) (img : Image) (l : list (nat * nat)) :
  actions (flat_map (fun xy => snd (find_closest_color P
                                      (pixel_color img (fst xy) (snd xy)) [])) l)
  = [].
Proof.
  rewrite actions_flat_map.
  induction l as [| xy l IH]; cbn [flat_map]; [reflexivity |].
  now rewrite matcher_no_actions, IH.
Qed.

End PixelClaims.

(* ------------------------------------------------------------------ *)
(** ** The matcher events of a pixel run *)
(* ------------------------------------------------------------------ *)

Section PixelAnyOracle.
Import ColorSpace Matcher PixelStyle Shape.

Variable stop : Oracle.

Lemma filter_snoc {A : Type} (f : A -> bool) (l : list A) (a : A) :
  f a = false -> filter f (l ++ [a]) = filter f l.
Proof. intros H. rewrite filter_app. cbn. rewrite H. apply app_nil_r. Qed.

Lemma draw_cell_pixels_matcher (l : list Point) (s : Trace) :
  filter is_matcher (snd (draw_cell_pixels stop l s)) = filter is_matcher s.
Proof.
  revert s. induction l as [| [x y] l IH]; intros s; cbn [draw_cell_pixels].
  - reflexivity.
  - unfold bind, poll, emit. destruct (stop (length s)).
    + cbn [ret snd]. now apply filter_snoc.
    + rewrite IH. now rewrite !filter_snoc.
Qed.

Lemma draw_cells_matcher (cells : list (list Point)) (s : Trace) :
  filter is_matcher (snd (draw_cells stop cells s)) = filter is_matcher s.
Proof.
  revert s. induction cells as [| cell cells IH]; intros s; cbn [draw_cells].
  - reflexivity.
  - destruct (order_cell cell) as [l |]; [| reflexivity].
    unfold bind.
    generalize (draw_cell_pixels_matcher l s).
    destruct (draw_cell_pixels stop l s) as [f s1]. cbn [snd]. intros H1.
    destruct f; [rewrite IH | |]; exact H1.
Qed.

Lemma draw_colors_matcher (x1 y1 : Z) (d : ColorDict) (colors : list Color)
    (s : Trace) :
  filter is_matcher (snd (draw_colors stop x1 y1 d colors s))
  = filter is_matcher s.
Proof.
  revert s. induction colors as [| c colors IH]; intros s; cbn [draw_colors].
  - reflexivity.
  - unfold bind, poll, emit. destruct (stop (length s)).
    + cbn [ret snd]. now apply filter_snoc.
    + match goal with
      | |- context [draw_cells stop ?cells ?s0] =>
          generalize (draw_cells_matcher cells s0);
          destruct (draw_cells stop cells s0) as [f s1]
      end.
      cbn [snd]. intros H1. rewrite !filter_snoc in H1 by reflexivity.
      destruct f; [rewrite IH | |]; exact H1.
Qed.

Lemma filter_matcher_events (P : Palette) (c : Color) :
  filter is_matcher (snd (find_closest_color P c []))
  = snd (find_closest_color P c []).
Proof.
  rewrite find_closest_color_events. destruct P as [| p P]; [reflexivity |].
  cbn [filter is_matcher]. do 2 f_equal.
  induction (p :: P) as [| q l IH]; [reflexivity |].
  cbn [map filter is_matcher]. now rewrite IH.
Qed.

(** The Lab conversions and palette scans of a pixel run, whatever the
    Esc key does: one call of the matcher per visible pixel. *)
Lemma pixel_run_matcher_events (P : Palette) (x1 y1 : Z) (pw ph : R)
    (img : Image) :
  filter is_matcher (snd (draw_pixel_style stop P x1 y1 pw ph img []))
  = flat_map (fun xy => snd (find_closest_color P
                               (pixel_color img (fst xy) (snd xy)) []))
      (visible_pixels img).
Proof.
  unfold draw_pixel_style, bind.
  destruct (group_pixels_run P x1 y1 pw ph img
              (coords (width img) (height img)) [] [])
    as (d & Hrun & _).
  rewrite Hrun. fold (visible_pixels img). cbn [app].
  assert (Hf : filter is_matcher
                 (flat_map (fun xy => snd (find_closest_color P
                               (pixel_color img (fst xy) (snd xy)) []))
                    (visible_pixels img))
               = flat_map (fun xy => snd (find_closest_color P
                               (pixel_color img (fst xy) (snd xy)) []))
                   (visible_pixels img)).
  { induction (visible_pixels img) as [| xy l IH]; [reflexivity |].
    cbn [flat_map]. now rewrite filter_app, filter_matcher_events, IH. }
  destruct (sorted_colors d) as [colors |].
  - now rewrite draw_colors_matcher.
  - exact Hf.
Qed.

End PixelAnyOracle.

(* ------------------------------------------------------------------ *)
(** ** No memo table in the matcher *)
(* ------------------------------------------------------------------ *)

Section MemoClaims.
Import ColorSpace Matcher PixelStyle Shape Samples.

Lemma filter_filter_sub {A : Type} (f g : A -> bool) (l : list A) :
  (forall a, f a = true -> g a = true) ->
  filter f (filter g l) = filter f l.
Proof.
  intros H. induction l as [| a l IH]; cbn [filter]; [reflexivity |].
  destruct (g a) eqn:Hg; cbn [filter].
  - now rewrite IH.
  - destruct (f a) eqn:Hf; [| exact IH].
    apply H in Hf. congruence.
Qed.

Lemma scan_is_matcher (c : Color) (e : Event) :
  is_scan_of c e = true -> is_matcher e = true.
Proof. destruct e; cbn; congruence. Qed.

Lemma lab_is_matcher (c : Color) (e : Event) :
  is_lab_of c e = true -> is_matcher e = true.
Proof. destruct e; cbn; congruence. Qed.

Lemma filter_scan_map_ELab (c : Color) (l : list Color) :
  filter (is_scan_of c) (map ELab l) = [].
Proof. induction l as [| q l IH]; [reflexivity | exact IH]. Qed.

Lemma filter_lab_map_ELab (c : Color) (l : list Color) :
  length (filter (is_lab_of c) (map ELab l)) = length (filter (Color_eqb c) l).
Proof.
  induction l as [| q l IH]; [reflexivity |].
  cbn [map filter is_lab_of]. destruct (Color_eqb c q); cbn [length]; now rewrite IH.
Qed.

(** C2, as amended: the matcher keeps no table.  In one pass the
    conversions and scans are, pixel by pixel in scan order, one
    conversion of the pixel colour, one palette scan and one conversion of
    every palette entry; so a colour carried by [n] visible pixels is
    scanned for [n] times and converted [n] times as a query. *)
Theorem matcher_runs_once_per_pixel (stop : Oracle) (P : Palette)
    (x1 y1 : Z) (pw ph : R) (img : Image) :
  let t := snd (draw_pixel_style stop P x1 y1 pw ph img []) in
  let pc := fun xy : nat * nat => pixel_color img (fst xy) (snd xy) in
  filter is_matcher t
  = flat_map (fun xy => match P with
                        | [] => []
                        | _ => ELab (pc xy) :: EScan (pc xy) :: map ELab P
                        end) (visible_pixels img)
  /\ (P <> [] ->
      forall c,
        length (filter (is_scan_of c) t)
        = length (filter (fun xy => Color_eqb c (pc xy)) (visible_pixels img))
        /\ length (filter (is_lab_of c) t)
           = (length (filter (fun xy => Color_eqb c (pc xy)) (visible_pixels img))
              + length (visible_pixels img) * length (filter (Color_eqb c) P))%nat).
Proof.
  intros t pc.
  assert (Hseq : filter is_matcher t
                 = flat_map (fun xy => match P with
                        | [] => []
                        | _ => ELab (pc xy) :: EScan (pc xy) :: map ELab P
                        end) (visible_pixels img)).
  { unfold t. rewrite pixel_run_matcher_events.
    apply flat_map_ext. intros xy. apply find_closest_color_events. }
  split; [exact Hseq |].
  intros HP c.
  rewrite <- (filter_filter_sub (is_scan_of c) is_matcher t (scan_is_matcher c)).
  rewrite <- (filter_filter_sub (is_lab_of c) is_matcher t (lab_is_matcher c)).
  rewrite Hseq. clear Hseq t. destruct P as [| p P']; [congruence |].
  clear HP. generalize (p :: P'). intros Q.
  induction (visible_pixels img) as [| xy l (IH1 & IH2)]; [split; reflexivity |].
  cbn [flat_map]. rewrite !filter_app, !length_app.
  cbn [filter is_scan_of is_lab_of].
  destruct (Color_eqb c (pc xy)); cbn [length];
    rewrite filter_scan_map_ELab, filter_lab_map_ELab, IH1, IH2;
    cbn [length Nat.mul]; split; lia.
Qed.

Lemma matcher_runs_once_per_pixel_witness :
  let t := snd (draw_pixel_style never [(0, 0, 0)%Z] 0 0 1 1 two_alike []) in
  length (filter (is_scan_of (10, 20, 30)%Z) t) = 2%nat.
Proof.
  intros t.
  destruct (matcher_runs_once_per_pixel never [(0, 0, 0)%Z] 0 0 1 1 two_alike)
    as [_ H].
  destruct (H ltac:(discriminate) (10, 20, 30)%Z) as [H1 _].
  exact H1.
Defined.

(** C2 as stated fails: two pixels of one colour cause two scans and two
    conversions of that colour. *)
Lemma memoization_counterexample :
  let t := snd (draw_pixel_style never [(0, 0, 0)%Z] 0 0 1 1 two_alike []) in
  ~ (length (filter (is_scan_of (10, 20, 30)%Z) t) <= 1
     /\ length (filter (is_lab_of (10, 20, 30)%Z) t) <= 1)%nat.
Proof.
  intros t [H1 _]. revert H1. unfold t.
  rewrite <- (filter_filter_sub (is_scan_of (10, 20, 30)%Z) is_matcher _
                (scan_is_matcher (10, 20, 30)%Z)).
  rewrite pixel_run_matcher_events.
  erewrite flat_map_ext by (intros xy; apply find_closest_color_events).
  cbn. lia.
Qed.

End MemoClaims.

(* ------------------------------------------------------------------ *)
(** ** The tracing loops of the outline style *)
(* ------------------------------------------------------------------ *)

Section OutlineFacts.
Import Matcher OutlineStyle OutlineShape.

(** Tracing only reads the flag. *)
Lemma extend_polls (stop : Oracle) (fuel : nat) (outline visited segment : list Pt)
    (current : Pt) (s : Trace) :
  exists k, snd (extend stop fuel outline visited segment current s)
            = s ++ repeat EPoll k.
Proof.
  revert visited segment current s.
  induction fuel as [| fuel IH]; intros visited segment current s; cbn [extend].
  - exists 0%nat. cbn. now rewrite app_nil_r.
  - unfold bind, poll. destruct (stop (length s)).
    + exists 1%nat. reflexivity.
    + destruct (find_next outline visited current directions) as [n |].
      * destruct (IH (n :: visited) (segment ++ [n]) n (s ++ [EPoll])) as (k & ->).
        exists (S k). now rewrite <- app_assoc.
      * exists 1%nat. reflexivity.
Qed.

Lemma trace_segments_polls (stop : Oracle) (outline todo visited : list Pt)
    (segs : list (list Pt)) (s : Trace) :
  exists k, snd (trace_segments stop outline todo visited segs s)
            = s ++ repeat EPoll k.
Proof.
  revert visited segs s.
  induction todo as [| p todo IH]; intros visited segs s; cbn [trace_segments].
  - exists 0%nat. cbn. now rewrite app_nil_r.
  - destruct (mem p visited); [apply IH |].
    unfold bind, poll. destruct (stop (length s)).
    + destruct (IH visited segs (s ++ [EPoll])) as (k & ->).
      exists (S k). now rewrite <- app_assoc.
    + destruct (extend_polls stop (S (length outline)) outline (p :: visited)
                  [p] p (s ++ [EPoll])) as (k1 & Hk1).
      destruct (extend stop (S (length outline)) outline (p :: visited) [p] p
                  (s ++ [EPoll])) as [r s1].
      cbn [snd] in Hk1. subst s1.
      destruct r as [[segment visited'] |].
      * match goal with
        | |- context [trace_segments stop outline todo visited' ?sg ?s0] =>
            destruct (IH visited' sg s0) as (k2 & ->)
        end.
        exists (S (k1 + k2)). rewrite <- !app_assoc. cbn [app repeat].
        now rewrite repeat_app.
      * exists (S k1). cbn [ret snd]. now rewrite <- app_assoc.
Qed.

Lemma actions_repeat_poll (k : nat) : actions (repeat EPoll k) = [].
Proof. induction k as [| k IH]; [reflexivity | exact IH]. Qed.

Lemma trace_segments_actions (stop : Oracle) (outline todo visited : list Pt)
    (segs : list (list Pt)) (s : Trace) :
  actions (snd (trace_segments stop outline todo visited segs s)) = actions s.
Proof.
  destruct (trace_segments_polls stop outline todo visited segs s) as (k & ->).
  now rewrite actions_app, actions_repeat_poll, app_nil_r.
Qed.

Lemma extend_length (stop : Oracle) (fuel : nat) (outline visited segment : list Pt)
    (current : Pt) (s : Trace) :
  (length s <= length (snd (extend stop fuel outline visited segment current s)))%nat.
Proof.
  destruct (extend_polls stop fuel outline visited segment current s) as (k & ->).
  rewrite length_app. lia.
Qed.

Lemma trace_segments_length (stop : Oracle) (outline todo visited : list Pt)
    (segs : list (list Pt)) (s : Trace) :
  (length s
   <= length (snd (trace_segments stop outline todo visited segs s)))%nat.
Proof.
  destruct (trace_segments_polls stop outline todo visited segs s) as (k & ->).
  rewrite length_app. lia.
Qed.

(** One round of the tracing loops. *)
Lemma extend_step (stop : Oracle) (fuel : nat)
    (outline visited segment : list Pt) (current : Pt) (s : Trace) :
  extend stop (S fuel) outline visited segment current s
  = if stop (length s) then (Some (segment, visited), s ++ [EPoll])
    else match find_next outline visited current directions with
         | Some n =>
             extend stop fuel outline (n :: visited) (segment ++ [n]) n
               (s ++ [EPoll])
         | None => (Some (segment, visited), s ++ [EPoll])
         end.
Proof.
  cbn [extend]. unfold bind, poll. destruct (stop (length s)); [reflexivity |].
  destruct (find_next outline visited current directions); reflexivity.
Qed.

Lemma trace_segments_step (stop : Oracle) (outline : list Pt) (p : Pt)
    (todo visited : list Pt) (segs : list (list Pt)) (s : Trace) :
  trace_segments stop outline (p :: todo) visited segs s
  = if mem p visited then trace_segments stop outline todo visited segs s
    else if stop (length s)
    then trace_segments stop outline todo visited segs (s ++ [EPoll])
    else
      let '(r, s1) :=
        extend stop (S (length outline)) outline (p :: visited) [p] p
          (s ++ [EPoll]) in
      match r with
      | None => (None, s1)
      | Some (segment, visited') =>
          trace_segments stop outline todo visited'
            (if (1 <? length segment)%nat then segs ++ [segment] else segs) s1
      end.
Proof.
  cbn [trace_segments]. destruct (mem p visited); [reflexivity |].
  unfold bind, poll. destruct (stop (length s)); [reflexivity |].
  destruct (extend stop (S (length outline)) outline (p :: visited) [p] p
              (s ++ [EPoll])) as [[[segment visited'] |] s1]; reflexivity.
Qed.

(** Two keyboards that agree up to the end of a tracing run produce the
    same run. *)
Lemma extend_agree (stop stop' : Oracle) (fuel : nat)
    (outline visited segment : list Pt) (current : Pt) (s : Trace) :
  (forall n, (n < length (snd (extend stop fuel outline visited segment current s)))%nat ->
             stop n = stop' n) ->
  extend stop' fuel outline visited segment current s
  = extend stop fuel outline visited segment current s.
Proof.
  revert visited segment current s.
  induction fuel as [| fuel IH]; intros visited segment current s;
    [reflexivity |].
  rewrite !extend_step. intros H.
  assert (Hs : stop (length s) = stop' (length s)).
  { apply H. destruct (stop (length s)).
    - cbn [snd]. rewrite length_app. cbn. lia.
    - destruct (find_next outline visited current directions) as [n |].
      + eapply Nat.lt_le_trans; [| apply extend_length].
        rewrite length_app. cbn. lia.
      + cbn [snd]. rewrite length_app. cbn. lia. }
  rewrite <- Hs. destruct (stop (length s)); [reflexivity |].
  destruct (find_next outline visited current directions) as [n |];
    [| reflexivity].
  apply IH, H.
Qed.

Lemma trace_segments_agree (stop stop' : Oracle) (outline todo visited : list Pt)
    (segs : list (list Pt)) (s : Trace) :
  (forall n, (n < length (snd (trace_segments stop outline todo visited segs s)))%nat ->
             stop n = stop' n) ->
  trace_segments stop' outline todo visited segs s
  = trace_segments stop outline todo visited segs s.
Proof.
  revert visited segs s.
  induction todo as [| p todo IH]; intros visited segs s; [reflexivity |].
  rewrite !trace_segments_step.
  destruct (mem p visited); [apply IH |].
  intros H.
  assert (Hs : stop (length s) = stop' (length s)).
  { apply H. destruct (stop (length s)).
    - eapply Nat.lt_le_trans; [| apply trace_segments_length].
      rewrite length_app. cbn. lia.
    - generalize (extend_length stop (S (length outline)) outline
                    (p :: visited) [p] p (s ++ [EPoll])).
      destruct (extend stop (S (length outline)) outline (p :: visited) [p] p
                  (s ++ [EPoll])) as [[[segment visited'] |] s1];
        cbn [snd]; rewrite length_app; cbn [length]; intros Hl.
      + eapply Nat.lt_le_trans; [| apply trace_segments_length]. lia.
      + lia. }
  rewrite <- Hs. destruct (stop (length s)); [apply IH, H |].
  assert (He : extend stop' (S (length outline)) outline (p :: visited) [p] p
                 (s ++ [EPoll])
               = extend stop (S (length outline)) outline (p :: visited) [p] p
                   (s ++ [EPoll])).
  { apply extend_agree. intros n Hn. apply H.
    eapply Nat.lt_le_trans; [exact Hn |].
    destruct (extend stop (S (length outline)) outline (p :: visited) [p] p
                (s ++ [EPoll])) as [[[segment visited'] |] s1]; cbn [snd].
    - apply trace_segments_length.
    - lia. }
  rewrite He.
  destruct (extend stop (S (length outline)) outline (p :: visited) [p] p
              (s ++ [EPoll])) as [[[segment visited'] |] s1];
    [apply IH, H | reflexivity].
Qed.

End OutlineFacts.

(* ------------------------------------------------------------------ *)
(** ** The stroke loop of the outline style *)
(* ------------------------------------------------------------------ *)

Section OutlineDrawFacts.
Import Matcher OutlineStyle OutlineShape.

Lemma emit_all_run (l : list Action) (s : Trace) :
  emit_all l s = (tt, s ++ map EAct l).
Proof.
  revert s. induction l as [| a l IH]; intros s; cbn [emit_all map].
  - unfold ret. now rewrite app_nil_r.
  - unfold bind, emit. rewrite IH. now rewrite <- app_assoc.
Qed.

Lemma actions_map_EAct (l : list Action) : actions (map EAct l) = l.
Proof. induction l as [| a l IH]; cbn; [reflexivity | now f_equal]. Qed.

(** Whatever the Esc key does, the drawing loop issues the strokes of a
    prefix of the segments, each stroke whole. *)
Lemma draw_segments_prefix (stop : Oracle) (x1 y1 : Z) (segs : list (list Pt))
    (s : Trace) :
  exists j,
    actions (snd (draw_segments stop x1 y1 segs s))
    = actions s ++ flat_map (segment_actions x1 y1) (firstn j segs).
Proof.
  revert s. induction segs as [| seg segs IH]; intros s; cbn [draw_segments].
  - exists 0%nat. cbn. now rewrite app_nil_r.
  - unfold bind, poll. destruct (stop (length s)).
    + exists 0%nat. cbn [ret snd firstn flat_map].
      now rewrite actions_app, !app_nil_r.
    + destruct seg as [| first others].
      * exists 0%nat. cbn [ret snd firstn flat_map].
        now rewrite actions_app, !app_nil_r.
      * rewrite emit_all_run. destruct (IH ((s ++ [EPoll]) ++ map EAct (stroke x1 y1 first others)))
          as (j & ->).
        exists (S j). cbn [firstn flat_map segment_actions].
        rewrite !actions_app, actions_map_EAct. cbn [actions flat_map app].
        now rewrite app_nil_r, <- app_assoc.
Qed.

(** Once the flag reads [True], nothing is drawn. *)
Lemma draw_segments_stopped (T : nat) (x1 y1 : Z) (segs : list (list Pt))
    (s : Trace) :
  (T <= length s)%nat ->
  actions (snd (draw_segments (stop_after T) x1 y1 segs s)) = actions s.
Proof.
  intros HT. destruct segs as [| seg segs]; cbn [draw_segments]; [reflexivity |].
  unfold bind, poll, stop_after.
  destruct (Nat.leb_spec T (length s)) as [_ | H]; [| lia].
  cbn [ret snd]. now rewrite actions_app, app_nil_r.
Qed.

Lemma draw_segments_never (x1 y1 : Z) (segs : list (list Pt)) (s : Trace) :
  Forall (fun seg => seg <> []) segs ->
  fst (draw_segments never x1 y1 segs s) = Next
  /\ actions (snd (draw_segments never x1 y1 segs s))
     = actions s ++ flat_map (segment_actions x1 y1) segs.
Proof.
  revert s. induction segs as [| seg segs IH]; intros s Hne; cbn [draw_segments].
  - cbn. now rewrite app_nil_r.
  - inversion Hne as [| ? ? Hseg Hrest]; subst.
    unfold bind. rewrite poll_never. cbv beta iota.
    destruct seg as [| first others]; [congruence |].
    rewrite emit_all_run.
    destruct (IH ((s ++ [EPoll]) ++ map EAct (stroke x1 y1 first others)) Hrest)
      as (H1 & H2).
    split; [exact H1 |]. rewrite H2.
    cbn [flat_map segment_actions].
    rewrite !actions_app, actions_map_EAct. cbn [actions flat_map app].
    now rewrite app_nil_r, <- app_assoc.
Qed.

(** Segments kept by the tracing loop have at least two points. *)
Lemma trace_segments_nonempty (stop : Oracle) (outline todo visited : list Pt)
    (segs : list (list Pt)) (s : Trace) (r : list (list Pt)) :
  Forall (fun seg => seg <> []) segs ->
  fst (trace_segments stop outline todo visited segs s) = Some r ->
  Forall (fun seg => seg <> []) r.
Proof.
  revert visited segs s.
  induction todo as [| p todo IH]; intros visited segs s Hsegs;
    cbn [trace_segments].
  - cbn. intros H. now injection H as <-.
  - destruct (mem p visited); [now apply IH |].
    unfold bind, poll. destruct (stop (length s)); [now apply IH |].
    destruct (extend stop (S (length outline)) outline (p :: visited) [p] p
                (s ++ [EPoll])) as [[[segment visited'] |] s1];
      [| discriminate].
    apply IH. destruct (1 <? length segment)%nat eqn:E; [| exact Hsegs].
    apply Forall_app. split; [exact Hsegs |].
    constructor; [| constructor].
    intros ->. discriminate.
Qed.

End OutlineDrawFacts.

(* ------------------------------------------------------------------ *)
(** ** Tracing ends within its fuel *)
(* ------------------------------------------------------------------ *)

Section TracingTerminates.
Import Matcher OutlineStyle OutlineShape.

Lemma Pt_eqb_eq (p q : Pt) : Pt_eqb p q = true <-> p = q.
Proof.
  destruct p, q. unfold Pt_eqb. cbn [fst snd].
  rewrite andb_true_iff, !Z.eqb_eq.
  split; [intros [-> ->] | intros H; injection H]; auto.
Qed.

Lemma mem_In (p : Pt) (l : list Pt) : mem p l = true <-> In p l.
Proof.
  unfold mem. rewrite existsb_exists. split.
  - intros (q & Hq & E). apply Pt_eqb_eq in E. now subst.
  - intros H. exists p. split; [exact H | now apply Pt_eqb_eq].
Qed.

Lemma find_next_spec (outline visited : list Pt) (current : Pt)
    (dirs : list (Z * Z)) (n : Pt) :
  find_next outline visited current dirs = Some n ->
  In n outline /\ ~ In n visited.
Proof.
  induction dirs as [| [dx dy] dirs IH]; cbn [find_next]; [discriminate |].
  destruct (mem _ outline && negb (mem _ visited)) eqn:E; [| exact IH].
  intros H. injection H as <-.
  apply andb_true_iff in E. destruct E as [E1 E2].
  apply mem_In in E1. split; [exact E1 |].
  intros Hin. apply mem_In in Hin. rewrite Hin in E2. discriminate.
Qed.

Lemma filter_length_lt {A : Type} (f g : A -> bool) (l : list A) (x : A) :
  (forall a, g a = true -> f a = true) ->
  In x l -> f x = true -> g x = false ->
  (length (filter g l) < length (filter f l))%nat.
Proof.
  intros Hsub. induction l as [| a l IH]; intros Hin Hf Hg; [destruct Hin |].
  assert (Hle : forall l', (length (filter g l') <= length (filter f l'))%nat).
  { induction l' as [| b l' IHl']; cbn [filter]; [lia |].
    destruct (g b) eqn:Eg.
    - rewrite (Hsub b Eg). cbn [length]. lia.
    - destruct (f b); cbn [length]; lia. }
  cbn [filter]. destruct Hin as [-> | Hin].
  - rewrite Hf, Hg. cbn [length]. specialize (Hle l). lia.
  - specialize (IH Hin Hf Hg). destruct (g a) eqn:Eg.
    + rewrite (Hsub a Eg). cbn [length]. lia.
    + destruct (f a); cbn [length]; lia.
Qed.

Lemma unvisited_decreases (outline visited : list Pt) (n : Pt) :
  In n outline -> ~ In n visited ->
  (unvisited outline (n :: visited) < unvisited outline visited)%nat.
Proof.
  intros Hin Hnot. unfold unvisited.
  apply (filter_length_lt _ _ outline n).
  - intros a. cbn [mem existsb]. rewrite negb_orb, andb_true_iff. tauto.
  - exact Hin.
  - apply negb_true_iff. destruct (mem n visited) eqn:E; [| reflexivity].
    apply mem_In in E. contradiction.
  - cbn [mem existsb]. replace (Pt_eqb n n) with true; [reflexivity |].
    symmetry. now apply Pt_eqb_eq.
Qed.

(** With more fuel than unvisited outline pixels the [while] loop ends by
    itself. *)
Lemma extend_total (stop : Oracle) (fuel : nat) (outline visited segment : list Pt)
    (current : Pt) (s : Trace) :
  (unvisited outline visited < fuel)%nat ->
  exists r, fst (extend stop fuel outline visited segment current s) = Some r.
Proof.
  revert visited segment current s.
  induction fuel as [| fuel IH]; intros visited segment current s Hf; [lia |].
  cbn [extend]. unfold bind, poll. destruct (stop (length s)).
  - eexists. reflexivity.
  - destruct (find_next outline visited current directions) as [n |] eqn:E.
    + apply IH. apply find_next_spec in E. destruct E as [E1 E2].
      generalize (unvisited_decreases outline visited n E1 E2). lia.
    + eexists. reflexivity.
Qed.

Lemma unvisited_le (outline visited : list Pt) :
  (unvisited outline visited <= length outline)%nat.
Proof. apply filter_length_le. Qed.

(** The tracing loop never runs out of fuel. *)
Lemma trace_segments_total (stop : Oracle) (outline todo visited : list Pt)
    (segs : list (list Pt)) (s : Trace) :
  exists r, fst (trace_segments stop outline todo visited segs s) = Some r.
Proof.
  revert visited segs s.
  induction todo as [| p todo IH]; intros visited segs s; cbn [trace_segments].
  - eexists. reflexivity.
  - destruct (mem p visited); [apply IH |].
    unfold bind, poll. destruct (stop (length s)); [apply IH |].
    destruct (extend_total stop (S (length outline)) outline (p :: visited) [p] p
                (s ++ [EPoll])) as (r & Hr).
    { generalize (unvisited_le outline (p :: visited)). lia. }
    destruct (extend stop (S (length outline)) outline (p :: visited) [p] p
                (s ++ [EPoll])) as [r' s1].
    cbn [fst] in Hr. subst r'. destruct r as [segment visited'].
    apply IH.
Qed.

End TracingTerminates.

(* ------------------------------------------------------------------ *)
(** ** Cancellation in pixel style *)
(* ------------------------------------------------------------------ *)

Section CancelPixel.
Import Matcher PixelStyle Shape.

Variable T : nat.

Local Abbreviation late := (Shape.late T).

Lemma late_app (s l : Trace) : (late (s ++ l) <= late s + count_act l)%nat.
Proof.
  unfold late. rewrite skipn_app, count_act_app.
  apply Nat.add_le_mono_l.
  rewrite <- (firstn_skipn (T - length s) l) at 2.
  rewrite count_act_app. lia.
Qed.

Lemma late_early (s : Trace) : (length s <= T)%nat -> late s = 0%nat.
Proof. intros H. unfold late. now rewrite skipn_all2. Qed.

Lemma late_silent (s l : Trace) : count_act l = 0%nat -> (late (s ++ l) <= late s)%nat.
Proof. intros H. generalize (late_app s l). lia. Qed.

Lemma count_total (t : Trace) : count_act t = (count_act (firstn T t) + late t)%nat.
Proof.
  unfold late. rewrite <- (firstn_skipn T t) at 1. apply count_act_app.
Qed.

(** After a read of the flag that saw [False], the calls made since the
    key was pressed are among those issued after that read. *)
Lemma late_after_poll (s l : Trace) :
  stop_after T (length s) = false ->
  (late ((s ++ [EPoll]) ++ l) <= count_act l)%nat.
Proof.
  unfold stop_after. intros H. apply Nat.leb_gt in H.
  generalize (late_app (s ++ [EPoll]) l).
  rewrite (late_early (s ++ [EPoll])); [lia |].
  rewrite length_app. cbn. lia.
Qed.

Lemma draw_cell_pixels_late (l : list Point) (s : Trace) :
  (late s <= 2)%nat ->
  (late (snd (draw_cell_pixels (stop_after T) l s)) <= 2)%nat.
Proof.
  revert s. induction l as [| [x y] l IH]; intros s Hs; cbn [draw_cell_pixels].
  - exact Hs.
  - unfold bind, poll, emit.
    destruct (stop_after T (length s)) eqn:E.
    + cbn [ret snd]. generalize (late_silent s [EPoll] eq_refl). lia.
    + apply IH. rewrite <- app_assoc.
      apply (late_after_poll s [EAct (MoveTo x y); EAct Click] E).
Qed.

Lemma draw_cells_late (cells : list (list Point)) (s : Trace) :
  (late s <= 2)%nat ->
  (late (snd (draw_cells (stop_after T) cells s)) <= 2)%nat.
Proof.
  revert s. induction cells as [| cell cells IH]; intros s Hs; cbn [draw_cells].
  - exact Hs.
  - destruct (order_cell cell) as [l |]; [| exact Hs].
    unfold bind.
    generalize (draw_cell_pixels_late l s Hs).
    destruct (draw_cell_pixels (stop_after T) l s) as [f s1]. cbn [snd]. intros H1.
    destruct f; [apply IH | |]; exact H1.
Qed.

Lemma draw_colors_late (x1 y1 : Z) (d : ColorDict) (colors : list Color)
    (s : Trace) :
  (late s <= 2)%nat ->
  (late (snd (draw_colors (stop_after T) x1 y1 d colors s)) <= 2)%nat.
Proof.
  revert s. induction colors as [| c colors IH]; intros s Hs; cbn [draw_colors].
  - exact Hs.
  - unfold bind, poll, emit.
    destruct (stop_after T (length s)) eqn:E.
    + cbn [ret snd]. generalize (late_silent s [EPoll] eq_refl). lia.
    + match goal with
      | |- context [draw_cells (stop_after T) ?cells ?s0] =>
          assert (H0 : (late s0 <= 2)%nat);
          [| generalize (draw_cells_late cells s0 H0);
             destruct (draw_cells (stop_after T) cells s0) as [f s1] ]
      end.
      { generalize (late_after_poll s [EAct (SelectColor c)] E).
        cbn [count_act actions flat_map app length]. lia. }
      cbn [snd]. intros H1.
      destruct f; [apply IH | |]; exact H1.
Qed.

Lemma draw_pixel_style_late (P : Palette) (x1 y1 : Z) (pw ph : R) (img : Image)
    (s : Trace) :
  (late s <= 2)%nat ->
  (late (snd (draw_pixel_style (stop_after T) P x1 y1 pw ph img s)) <= 2)%nat.
Proof.
  intros Hs. unfold draw_pixel_style, bind.
  destruct (group_pixels_run P x1 y1 pw ph img
              (coords (width img) (height img)) [] s)
    as (d & Hrun & _).
  rewrite Hrun.
  assert (H0 : (late (s ++ flat_map (fun xy => snd (find_closest_color P
                               (pixel_color img (fst xy) (snd xy)) []))
                    (filter (visible img) (coords (width img) (height img))))
                <= 2)%nat).
  { etransitivity; [apply late_silent | exact Hs].
    unfold count_act. now rewrite actions_matcher_pass. }
  destruct (sorted_colors d) as [colors |]; [| exact H0].
  apply draw_colors_late, H0.
Qed.

End CancelPixel.

(* ------------------------------------------------------------------ *)
(** ** Cancellation in outline style *)
(* ------------------------------------------------------------------ *)

Section CancelOutline.
Import Matcher OutlineStyle OutlineShape.

Lemma actions_snoc_silent (s : Trace) (e : Event) :
  is_act e = false -> actions (s ++ [e]) = actions s.
Proof.
  intros H. rewrite actions_app. destruct e; try discriminate; apply app_nil_r.
Qed.

(** The outline branch, step by step. *)
Lemma draw_outline_style_unfold (stop : Oracle) (P : Palette)
    (cps : list (Color * (Z * Z))) (x1 y1 : Z) (img : Image) (s : Trace) :
  draw_outline_style stop P cps x1 y1 img s
  = match find_outline_pixels img (coords (width img) (height img)) [] with
    | None => (Raise, s)
    | Some [] => (Return false, s ++ [EInfo NoOutlinePixels])
    | Some (p0 :: outline) =>
        let s0 := s ++ snd (find_closest_color P (0, 0, 0)%Z []) in
        match closest P (0, 0, 0)%Z with
        | None => (Return false, s0 ++ [EInfo SelectBlackPrompt])
        | Some c =>
            match position_of c cps with
            | None => (Return false, s0 ++ [EInfo SelectBlackPrompt])
            | Some _ =>
                let '(r, s2) :=
                  trace_segments stop (p0 :: outline) (p0 :: outline) [] []
                    (s0 ++ [EAct (SelectColor c)]) in
                match r with
                | None => (Raise, s2)
                | Some line_segments =>
                    draw_segments stop x1 y1 line_segments s2
                end
            end
        end
    end.
Proof.
  unfold draw_outline_style.
  destruct (find_outline_pixels img (coords (width img) (height img)) [])
    as [[| p0 outline] |]; try reflexivity.
  unfold bind at 1. rewrite (find_closest_color_run P (0, 0, 0)%Z s).
  destruct (closest P (0, 0, 0)%Z) as [c |]; [| reflexivity].
  destruct (position_of c cps) as [pos |]; [| reflexivity].
  unfold bind, emit.
  destruct (trace_segments stop (p0 :: outline) (p0 :: outline) [] [] _)
    as [[segs |] s2]; reflexivity.
Qed.

(** Cancellation of an outline drawing takes effect between strokes
    only: what is drawn is the colour click and the whole strokes of a
    prefix of the segments that an undisturbed run draws. *)
Lemma draw_outline_style_cancel (T : nat) (P : Palette)
    (cps : list (Color * (Z * Z))) (x1 y1 : Z) (img : Image) (s : Trace) :
  exists pre segs j,
    (length pre <= 1)%nat
    /\ actions (snd (draw_outline_style never P cps x1 y1 img s))
       = actions s ++ pre ++ flat_map (segment_actions x1 y1) segs
    /\ actions (snd (draw_outline_style (stop_after T) P cps x1 y1 img s))
       = actions s ++ pre ++ flat_map (segment_actions x1 y1) (firstn j segs).
Proof.
  rewrite !draw_outline_style_unfold.
  destruct (find_outline_pixels img (coords (width img) (height img)) [])
    as [[| p0 outline] |].
  - exists [], [], 0%nat. cbn [snd length flat_map firstn app].
    rewrite actions_snoc_silent, app_nil_r by reflexivity. auto.
  - cbv zeta.
    set (s0 := s ++ snd (find_closest_color P (0, 0, 0)%Z [])).
    assert (Hs0 : actions s0 = actions s).
    { unfold s0. now rewrite actions_app, matcher_no_actions, app_nil_r. }
    destruct (closest P (0, 0, 0)%Z) as [c |].
    2:{ exists [], [], 0%nat. cbn [snd length flat_map firstn app].
        rewrite actions_snoc_silent, app_nil_r, Hs0 by reflexivity. auto. }
    destruct (position_of c cps) as [pos |].
    2:{ exists [], [], 0%nat. cbn [snd length flat_map firstn app].
        rewrite actions_snoc_silent, app_nil_r, Hs0 by reflexivity. auto. }
    set (s1 := s0 ++ [EAct (SelectColor c)]).
    assert (Hs1 : actions s1 = actions s ++ [SelectColor c]).
    { unfold s1. now rewrite actions_app, Hs0. }
    set (outl := p0 :: outline).
    (* the undisturbed run *)
    destruct (trace_segments_total never outl outl [] [] s1) as (segs & Hsegs).
    assert (Hne : Forall (fun seg => seg <> []) segs).
    { apply (trace_segments_nonempty never outl outl [] [] s1);
        [constructor | exact Hsegs]. }
    assert (HactN := trace_segments_actions never outl outl [] [] s1).
    destruct (trace_segments never outl outl [] [] s1) as [rN sN] eqn:EN.
    cbn [fst snd] in Hsegs, HactN. subst rN.
    destruct (draw_segments_never x1 y1 segs sN Hne) as (_ & HdrawN).
    exists [SelectColor c], segs.
    (* the cancelled run *)
    assert (HactT := trace_segments_actions (stop_after T) outl outl [] [] s1).
    assert (HlenT := trace_segments_agree (stop_after T) never outl outl [] [] s1).
    destruct (trace_segments (stop_after T) outl outl [] [] s1) as [rT sT] eqn:ET.
    cbn [snd] in HactT, HlenT.
    destruct (Nat.le_gt_cases T (length sT)) as [Hseen | Hnot].
    + exists 0%nat. split; [cbn; lia |]. split.
      * rewrite HdrawN, HactN, Hs1, <- app_assoc. reflexivity.
      * cbn [firstn flat_map]. rewrite app_nil_r, <- Hs1, <- HactT.
        destruct rT as [segsT |]; [| reflexivity].
        now apply draw_segments_stopped.
    + assert (Hsame : (rT, sT) = (Some segs, sN)).
      { rewrite <- EN. symmetry. apply HlenT.
        intros n0 Hn. unfold stop_after, never. apply Nat.leb_gt. lia. }
      injection Hsame as -> ->.
      destruct (draw_segments_prefix (stop_after T) x1 y1 segs sN) as (j & Hj).
      exists j. split; [cbn; lia |]. split.
      * rewrite HdrawN, HactN, Hs1, <- app_assoc. reflexivity.
      * rewrite Hj, HactN, Hs1, <- app_assoc. reflexivity.
  - exists [], [], 0%nat. cbn [snd length flat_map firstn app].
    rewrite app_nil_r. auto.
Qed.

End CancelOutline.

(* ------------------------------------------------------------------ *)
(** ** Nothing is drawn once the flag has been seen *)
(* ------------------------------------------------------------------ *)

Section HaltedQuiet.
Import Matcher OutlineStyle OutlineShape Shape Draw Samples.

Variable T : nat.

(** A trace none of whose reads saw the flag. *)
Lemma quiet_unseen (t : Trace) :
  (forall n, nth_error t n = Some EPoll -> (n < T)%nat) -> halted_quiet T t.
Proof. intros H n m a Hn HT _ _. specialize (H n Hn). lia. Qed.

Lemma quiet_app_silent (s l : Trace) :
  halted_quiet T s -> (forall e, In e l -> is_act e = false) ->
  halted_quiet T (s ++ l).
Proof.
  intros Hs Hl n m a Hn HT Hnm Hm.
  destruct (Nat.lt_ge_cases m (length s)) as [Hin | Hout].
  - rewrite nth_error_app1 in Hm by exact Hin.
    rewrite nth_error_app1 in Hn by lia.
    exact (Hs n m a Hn HT Hnm Hm).
  - rewrite nth_error_app2 in Hm by exact Hout.
    apply nth_error_In, Hl in Hm. discriminate.
Qed.

(** A stroke let through by a read that did not see the flag. *)
Lemma quiet_stroke (s : Trace) (acts : list Action) :
  stop_after T (length s) = false ->
  halted_quiet T ((s ++ [EPoll]) ++ map EAct acts).
Proof.
  intros Hstop. apply Nat.leb_gt in Hstop. apply quiet_unseen. intros n Hn.
  destruct (Nat.lt_ge_cases n (length (s ++ [EPoll]))) as [Hin | Hout].
  - rewrite length_app in Hin. cbn [length] in Hin. lia.
  - rewrite nth_error_app2 in Hn by exact Hout.
    apply nth_error_In, in_map_iff in Hn. destruct Hn as (a & Ha & _).
    discriminate.
Qed.

Lemma draw_segments_quiet (x1 y1 : Z) (segs : list (list Pt)) (s : Trace) :
  halted_quiet T s ->
  halted_quiet T (snd (draw_segments (stop_after T) x1 y1 segs s)).
Proof.
  revert s. induction segs as [| seg segs IH]; intros s Hs; [exact Hs |].
  cbn [draw_segments]. unfold bind at 1, poll.
  assert (Hpoll : halted_quiet T (s ++ [EPoll])).
  { apply quiet_app_silent; [exact Hs |]. now intros e [<- | []]. }
  destruct (stop_after T (length s)) eqn:Hstop; [exact Hpoll |].
  destruct seg as [| first others]; [exact Hpoll |].
  unfold bind. rewrite emit_all_run. apply IH.
  now apply quiet_stroke.
Qed.

Lemma no_poll_app (s l : Trace) :
  (forall n, nth_error s n <> Some EPoll) -> ~ In EPoll l ->
  forall n, nth_error (s ++ l) n <> Some EPoll.
Proof.
  intros Hs Hl n Hn.
  destruct (Nat.lt_ge_cases n (length s)) as [Hin | Hout].
  - rewrite nth_error_app1 in Hn by exact Hin. exact (Hs n Hn).
  - rewrite nth_error_app2 in Hn by exact Hout. apply nth_error_In in Hn.
    exact (Hl Hn).
Qed.

Lemma matcher_events_no_poll (P : Palette) (c : Color) :
  ~ In EPoll (snd (find_closest_color P c [])).
Proof.
  rewrite find_closest_color_events. destruct P as [| p P]; [intros [] |].
  intros [H | [H | H]]; try discriminate.
  apply in_map_iff in H. destruct H as (q & Hq & _). discriminate.
Qed.

(** Once a read has seen the flag, the outline branch makes no further
    actuator call. *)
Lemma draw_outline_style_quiet (P : Palette) (cps : list (Color * (Z * Z)))
    (x1 y1 : Z) (img : Image) (s : Trace) :
  (forall n, nth_error s n <> Some EPoll) ->
  halted_quiet T (snd (draw_outline_style (stop_after T) P cps x1 y1 img s)).
Proof.
  intros Hs. rewrite draw_outline_style_unfold.
  assert (Hq : forall t, (forall n, nth_error t n <> Some EPoll) ->
                         halted_quiet T t).
  { intros t Ht. apply quiet_unseen. intros n Hn. destruct (Ht n Hn). }
  assert (Hinfo : forall t ntc, (forall n, nth_error t n <> Some EPoll) ->
                                halted_quiet T (t ++ [EInfo ntc])).
  { intros t ntc Ht. apply quiet_app_silent; [now apply Hq |].
    now intros e [<- | []]. }
  destruct (find_outline_pixels img (coords (width img) (height img)) [])
    as [[| p0 outline] |]; cbn [snd].
  - now apply Hinfo.
  - cbv zeta.
    assert (Hs0 : forall n, nth_error (s ++ snd (find_closest_color P (0, 0, 0)%Z [])) n
                            <> Some EPoll)
      by (apply no_poll_app; [exact Hs | apply matcher_events_no_poll]).
    destruct (closest P (0, 0, 0)%Z) as [c |]; [| now apply Hinfo].
    destruct (position_of c cps) as [pos |]; [| now apply Hinfo].
    assert (Hs1 : forall n,
               nth_error ((s ++ snd (find_closest_color P (0, 0, 0)%Z []))
                          ++ [EAct (SelectColor c)]) n <> Some EPoll).
    { apply no_poll_app; [exact Hs0 |]. intros [H | []]. discriminate. }
    destruct (trace_segments_polls (stop_after T) (p0 :: outline)
                (p0 :: outline) [] []
                ((s ++ snd (find_closest_color P (0, 0, 0)%Z []))
                 ++ [EAct (SelectColor c)])) as (k & Hk).
    destruct (trace_segments (stop_after T) (p0 :: outline) (p0 :: outline)
                [] [] _) as [r s2].
    cbn [snd] in Hk. subst s2.
    assert (Hs2 : halted_quiet T
                    (((s ++ snd (find_closest_color P (0, 0, 0)%Z []))
                      ++ [EAct (SelectColor c)]) ++ repeat EPoll k)).
    { apply quiet_app_silent; [now apply Hq |].
      intros e He. apply repeat_spec in He. now subst e. }
    destruct r as [segs |]; [| exact Hs2].
    now apply draw_segments_quiet.
  - now apply Hq.
Qed.

End HaltedQuiet.

Section HaltedQuietPixel.
Import Matcher PixelStyle Shape Draw Samples.

Variable T : nat.

(** No read of the flag in [t] saw it set. *)
Local Abbreviation unseen t :=
  (forall n, nth_error t n = Some EPoll -> (n < T)%nat).

Lemma unseen_app_quiet (s l : Trace) :
  unseen s -> ~ In EPoll l -> unseen (s ++ l).
Proof.
  intros Hs Hl n Hn.
  destruct (Nat.lt_ge_cases n (length s)) as [Hin | Hout].
  - rewrite nth_error_app1 in Hn by exact Hin. now apply Hs.
  - rewrite nth_error_app2 in Hn by exact Hout. apply nth_error_In in Hn.
    destruct (Hl Hn).
Qed.

Lemma unseen_poll (s : Trace) :
  unseen s -> stop_after T (length s) = false -> unseen (s ++ [EPoll]).
Proof.
  intros Hs Hstop n Hn. apply Nat.leb_gt in Hstop.
  destruct (Nat.lt_ge_cases n (length s)) as [Hin | Hout]; [| ].
  - rewrite nth_error_app1 in Hn by exact Hin. now apply Hs.
  - assert (n < length (s ++ [EPoll]))%nat
      by (apply nth_error_Some; congruence).
    rewrite length_app in H. cbn [length] in H. lia.
Qed.

Lemma quiet_seen_poll (s : Trace) :
  unseen s -> halted_quiet T (s ++ [EPoll]).
Proof.
  intros Hs. apply quiet_app_silent; [now apply quiet_unseen |].
  now intros e [<- | []].
Qed.

(** A loop of the pixel style, started when no read has seen the flag:
    the run is quiet once halted, and no read has seen the flag if the
    loop falls through. *)
Local Abbreviation pixel_quiet r :=
  (halted_quiet T (snd r) /\ (fst r = Next -> unseen (snd r))).

Lemma draw_cell_pixels_quiet (l : list Point) (s : Trace) :
  unseen s -> pixel_quiet (draw_cell_pixels (stop_after T) l s).
Proof.
  revert s. induction l as [| [x y] l IH]; intros s Hs.
  - split; [now apply quiet_unseen | intros _; exact Hs].
  - cbn [draw_cell_pixels]. unfold bind, poll, emit, ret.
    destruct (stop_after T (length s)) eqn:Hstop; cbn [fst snd].
    + split; [now apply quiet_seen_poll | discriminate].
    + apply IH.
      rewrite <- app_assoc. apply unseen_app_quiet.
      * now apply unseen_poll.
      * intros [H | [H | []]]; discriminate.
Qed.

Lemma draw_cells_quiet (cells : list (list Point)) (s : Trace) :
  unseen s -> pixel_quiet (draw_cells (stop_after T) cells s).
Proof.
  revert s. induction cells as [| cell cells IH]; intros s Hs;
    cbn [draw_cells].
  - split; [now apply quiet_unseen | intros _; exact Hs].
  - destruct (order_cell cell) as [l |].
    2:{ unfold ret. cbn [fst snd].
        split; [now apply quiet_unseen | discriminate]. }
    unfold bind.
    destruct (draw_cell_pixels_quiet l s Hs) as [Hq Hn].
    destruct (draw_cell_pixels (stop_after T) l s) as [f s1].
    cbn [fst snd] in Hq, Hn.
    destruct f; [apply IH; now apply Hn | |];
      (unfold ret; cbn [fst snd]; split; [exact Hq | discriminate]).
Qed.

Lemma draw_colors_quiet (x1 y1 : Z) (d : ColorDict) (colors : list Color)
    (s : Trace) :
  unseen s -> pixel_quiet (draw_colors (stop_after T) x1 y1 d colors s).
Proof.
  revert s. induction colors as [| c colors IH]; intros s Hs;
    cbn [draw_colors].
  - split; [now apply quiet_unseen | intros _; exact Hs].
  - unfold bind, poll, emit, ret.
    destruct (stop_after T (length s)) eqn:Hstop; cbn [fst snd].
    + split; [now apply quiet_seen_poll | discriminate].
    + assert (Hs1 : unseen ((s ++ [EPoll]) ++ [EAct (SelectColor c)])).
      { apply unseen_app_quiet; [now apply unseen_poll |].
        intros [H | []]; discriminate. }
      destruct (draw_cells_quiet
                  (map snd (grid_cells x1 y1 (dict_get key_eqb (Some c) d) []))
                  _ Hs1) as [Hq Hn].
      destruct (draw_cells (stop_after T) _ _) as [f s1].
      cbn [fst snd] in Hq, Hn.
      destruct f; [apply IH; now apply Hn | |];
        (unfold ret; cbn [fst snd]; split; [exact Hq | discriminate]).
Qed.

Lemma matcher_pass_no_poll (P : Palette) (img : Image) (l : list (nat * nat)) :
  ~ In EPoll (flat_map (fun xy => snd (find_closest_color P
                          (pixel_color img (fst xy) (snd xy)) [])) l).
Proof.
  intros H. apply in_flat_map in H. destruct H as (xy & _ & H).
  exact (matcher_events_no_poll _ _ H).
Qed.

Lemma draw_pixel_style_quiet (P : Palette) (x1 y1 : Z) (pw ph : R)
    (img : Image) (s : Trace) :
  unseen s ->
  halted_quiet T (snd (draw_pixel_style (stop_after T) P x1 y1 pw ph img s)).
Proof.
  intros Hs. unfold draw_pixel_style, bind.
  destruct (group_pixels_run P x1 y1 pw ph img
              (coords (width img) (height img)) [] s) as (d & -> & _).
  assert (Hs1 : unseen (s ++ flat_map (fun xy => snd (find_closest_color P
                              (pixel_color img (fst xy) (snd xy)) []))
                         (filter (visible img)
                            (coords (width img) (height img)))))
    by (apply unseen_app_quiet; [exact Hs | apply matcher_pass_no_poll]).
  destruct (sorted_colors d) as [colors |].
  - now apply draw_colors_quiet.
  - now apply quiet_unseen.
Qed.

End HaltedQuietPixel.

(* ------------------------------------------------------------------ *)
(** ** Cancellation of [draw_image] *)
(* ------------------------------------------------------------------ *)

Section CancelClaims.
Import Matcher PixelStyle OutlineStyle Shape OutlineShape Draw Samples.

Lemma handle_actions (f : Flow) (s : Trace) :
  actions (snd (handle f s)) = actions s.
Proof.
  destruct f; cbn; [reflexivity | reflexivity |].
  unfold bind, emit. cbn [ret snd]. now apply actions_snoc_silent.
Qed.

Lemma handle_trace (f : Flow) (s : Trace) :
  exists l, snd (handle f s) = s ++ l /\ count_act l = 0%nat.
Proof.
  destruct f.
  - exists []. cbn. now rewrite app_nil_r.
  - exists []. cbn. now rewrite app_nil_r.
  - exists [EInfo DrawError]. split; reflexivity.
Qed.

Lemma draw_image_unfold (stop : Oracle) (self : AutoDraw) (s : Trace) :
  draw_image stop self s
  = match processed_image self with
    | None => (false, s)
    | Some img =>
        let '(x1, y1, x2, y2) := canvas self img in
        if ((width img =? 0) || (height img =? 0))%nat then handle Raise s
        else
          let '(f, s1) :=
            match style self with
            | Pixel =>
                draw_pixel_style stop (palette self) x1 y1
                  (IZR (x2 - x1) / INR (width img))%R
                  (IZR (y2 - y1) / INR (height img))%R img
            | Outline =>
                draw_outline_style stop (palette self) (color_positions self)
                  x1 y1 img
            | Vector => ret Next
            end (s ++ [EAct (MoveTo (IZR x1) (IZR y1))]) in
          handle f s1
    end.
Proof.
  unfold draw_image. destruct (processed_image self) as [img |]; [| reflexivity].
  destruct (canvas self img) as [[[x1 y1] x2] y2].
  destruct ((width img =? 0)%nat || (height img =? 0)%nat); reflexivity.
Qed.

(** Once a read has seen the flag, a drawing makes no further actuator
    call. *)
Lemma draw_image_pixel_quiet (T : nat) (self : AutoDraw) :
  style self = Pixel ->
  halted_quiet T (snd (draw_image (stop_after T) self [])).
Proof.
  intros Hstyle. rewrite draw_image_unfold.
  assert (Hnil : halted_quiet T []).
  { intros n m a Hn. destruct n; discriminate. }
  destruct (processed_image self) as [img |]; [| exact Hnil].
  destruct (canvas self img) as [[[x1 y1] x2] y2].
  destruct ((width img =? 0)%nat || (height img =? 0)%nat).
  { cbn. apply (quiet_app_silent T [] [EInfo DrawError] Hnil).
    now intros e [<- | []]. }
  rewrite Hstyle.
  match goal with
  | |- context [draw_pixel_style (stop_after T) ?P ?a ?b ?pw ?ph img ?s0] =>
      pose proof (draw_pixel_style_quiet T P a b pw ph img s0) as Hq;
      destruct (draw_pixel_style (stop_after T) P a b pw ph img s0) as [f s1]
  end.
  cbn [snd] in Hq.
  assert (Hs1 : halted_quiet T s1).
  { apply Hq. intros [| [| n]]; cbn; discriminate. }
  destruct f; cbn [handle ret snd]; try exact Hs1.
  unfold bind, emit. cbn [snd ret].
  apply (quiet_app_silent T); [exact Hs1 |]. now intros e [<- | []].
Qed.

Lemma draw_image_outline_quiet (T : nat) (self : AutoDraw) :
  style self = Outline ->
  halted_quiet T (snd (draw_image (stop_after T) self [])).
Proof.
  intros Hstyle. rewrite draw_image_unfold.
  assert (Hnil : halted_quiet T []).
  { intros n m a Hn. destruct n; discriminate. }
  destruct (processed_image self) as [img |]; [| exact Hnil].
  destruct (canvas self img) as [[[x1 y1] x2] y2].
  destruct ((width img =? 0)%nat || (height img =? 0)%nat).
  { destruct (handle_trace Raise []) as (l & -> & Hl).
    apply (quiet_app_silent T); [exact Hnil |].
    intros e He. unfold count_act in Hl.
    destruct e; try reflexivity.
    apply in_split in He. destruct He as (l1 & l2 & ->).
    rewrite actions_app in Hl. cbn in Hl. rewrite length_app in Hl. cbn in Hl. lia. }
  rewrite Hstyle.
  pose proof (draw_outline_style_quiet T (palette self) (color_positions self)
                x1 y1 img ([] ++ [EAct (MoveTo (IZR x1) (IZR y1))])) as Hq.
  destruct (draw_outline_style (stop_after T) (palette self)
              (color_positions self) x1 y1 img
              ([] ++ [EAct (MoveTo (IZR x1) (IZR y1))])) as [f s1].
  cbn [snd] in Hq.
  assert (Hs1 : halted_quiet T s1).
  { apply Hq. intros [| [| n]]; cbn; discriminate. }
  destruct f; cbn [handle ret snd]; try exact Hs1.
  unfold bind, emit. cbn [snd ret].
  apply (quiet_app_silent T); [exact Hs1 |]. now intros e [<- | []].
Qed.




End CancelClaims.

(* ------------------------------------------------------------------ *)
(** ** The action stream of the pixel style *)
(* ------------------------------------------------------------------ *)

Section PixelStreamClaims.
Import ColorSpace Matcher PixelStyle Shape Draw.

(** C1.  When Esc is never pressed, a pixel drawing succeeds and its
    actuator calls are the initial move to the canvas corner followed by
    a sequence of colour groups: one [SelectColor], then the
    [MoveTo]+[Click] pairs of the group.  The selected colours are
    pairwise distinct and are exactly the colours that the matcher
    assigns to some visible pixel; the points clicked are, up to order,
    the centres of the visible pixels, each once.  Hence as many clicks as
    visible pixels and as many selections as colours used. *)
Theorem pixel_stream_one_pair_per_pixel (self : AutoDraw) (img : Image) :
  processed_image self = Some img ->
  style self = Pixel ->
  (0 < width img)%nat -> (0 < height img)%nat ->
  let '(x1, y1, x2, y2) := canvas self img in
  let pixel_width := (IZR (x2 - x1) / INR (width img))%R in
  let pixel_height := (IZR (y2 - y1) / INR (height img))%R in
  let run := draw_image never self [] in
  exists groups : list (Color * list Point),
    fst run = true
    /\ actions (snd run)
       = MoveTo (IZR x1) (IZR y1) :: flat_map group_actions groups
    /\ NoDup (map fst groups)
    /\ (forall c, In c (map fst groups) <->
                  exists xy, In xy (visible_pixels img)
                             /\ closest (palette self)
                                  (pixel_color img (fst xy) (snd xy)) = Some c)
    /\ Permutation (flat_map snd groups)
         (map (center x1 y1 pixel_width pixel_height) (visible_pixels img))
    /\ length (filter is_click (actions (snd run))) = length (visible_pixels img)
    /\ length (filter is_select (actions (snd run))) = length groups.
Proof.
  intros Himg Hstyle Hw Hh.
  rewrite draw_image_unfold, Himg.
  destruct (canvas self img) as [[[x1 y1] x2] y2].
  replace ((width img =? 0)%nat || (height img =? 0)%nat) with false.
  2:{ symmetry. apply orb_false_iff. split; apply Nat.eqb_neq; lia. }
  rewrite Hstyle. cbv zeta.
  destruct (pixel_run_never (palette self) x1 y1
              (IZR (x2 - x1) / INR (width img))%R
              (IZR (y2 - y1) / INR (height img))%R img
              ([] ++ [EAct (MoveTo (IZR x1) (IZR y1))]))
    as (groups & Hrun & Hnd & Hkeys & Hperm).
  exists groups. rewrite Hrun. cbn [handle ret fst snd].
  assert (Hact : actions
                   (([EAct (MoveTo (IZR x1) (IZR y1))]
                     ++ flat_map (fun xy => snd (find_closest_color (palette self)
                                    (pixel_color img (fst xy) (snd xy)) []))
                          (visible_pixels img))
                    ++ flat_map group_events groups)
                 = MoveTo (IZR x1) (IZR y1) :: flat_map group_actions groups).
  { rewrite !actions_app, actions_matcher_pass, actions_flat_map.
    cbn [actions flat_map app]. f_equal.
    apply flat_map_ext. intros g. apply actions_group_events. }
  cbn [app] in Hact |- *. rewrite Hact.
  destruct (count_groups groups) as (H1 & H2 & H3).
  cbn [filter is_click is_select].
  rewrite H1, H3, (Permutation_length Hperm), length_map.
  repeat split; auto; apply Hkeys; auto.
Qed.

Lemma pixel_stream_one_pair_per_pixel_witness :
  let img := Samples.uniform ModeRGB 1 1 (0, 0, 0, 255)%Z in
  let run := draw_image never Samples.one_black_pixel_bw [] in
  exists groups : list (Color * list Point),
    fst run = true
    /\ actions (snd run) = MoveTo (IZR 0) (IZR 0) :: flat_map group_actions groups
    /\ NoDup (map fst groups)
    /\ (forall c, In c (map fst groups) <->
                  exists xy, In xy (visible_pixels img)
                             /\ closest [(0, 0, 0)%Z; (255, 255, 255)%Z]
                                  (pixel_color img (fst xy) (snd xy)) = Some c)
    /\ Permutation (flat_map snd groups)
         (map (center 0 0 (IZR (1 - 0) / INR 1) (IZR (1 - 0) / INR 1))
            (visible_pixels img))
    /\ length (filter is_click (actions (snd run))) = length (visible_pixels img)
    /\ length (filter is_select (actions (snd run))) = length groups.
Proof.
  apply (pixel_stream_one_pair_per_pixel Samples.one_black_pixel_bw
           (Samples.uniform ModeRGB 1 1 (0, 0, 0, 255)%Z)).
  - reflexivity.
  - reflexivity.
  - cbn. lia.
  - cbn. lia.
Defined.

(** C10.  The nearest-neighbour reordering of a cell always succeeds and
    returns a permutation of the cell; the drawing loop then issues one
    [MoveTo]+[Click] pair for each point of that permutation. *)
Theorem order_cell_permutation (cell_pixels : list Point) :
  exists ordered,
    order_cell cell_pixels = Some ordered
    /\ Permutation cell_pixels ordered
    /\ forall s,
         draw_cell_pixels never ordered s = (Next, s ++ flat_map point_events ordered)
         /\ actions (flat_map point_events ordered) = pairs ordered.
Proof.
  destruct (order_cell_perm cell_pixels) as (l & H & Hp).
  exists l. repeat split; auto.
  - apply draw_cell_pixels_never.
  - rewrite actions_flat_map. reflexivity.
Qed.

End PixelStreamClaims.

(* ------------------------------------------------------------------ *)
(** ** The scan for dark pixels *)
(* ------------------------------------------------------------------ *)

Section ScanFacts.
Import Matcher PixelStyle OutlineStyle Shape OutlineShape Draw.

Lemma in_coords (w h x y : nat) :
  In (x, y) (coords w h) <-> (x < w /\ y < h)%nat.
Proof.
  unfold coords. rewrite in_flat_map. split.
  - intros (y' & Hy & Hx). apply in_map_iff in Hx.
    destruct Hx as (x' & Heq & Hx). injection Heq as -> ->.
    apply in_seq in Hy, Hx. lia.
  - intros [Hx Hy]. exists y. split; [apply in_seq; lia |].
    apply in_map_iff. exists x. split; [reflexivity | apply in_seq; lia].
Qed.

(** The scan for dark pixels, on an image that is not grey. *)
Lemma find_outline_pixels_filter (img : Image) (todo : list (nat * nat))
    (acc : list Pt) :
  mode img <> ModeL ->
  find_outline_pixels img todo acc
  = Some (acc ++ map to_pt (filter (fun xy => is_dark img (fst xy) (snd xy)) todo)).
Proof.
  intros Hmode. revert acc.
  induction todo as [| [x y] todo IH]; intros acc; cbn [find_outline_pixels filter].
  - cbn. now rewrite app_nil_r.
  - unfold is_dark. cbn [fst snd].
    assert (Hs : exists v, pixel_sum img x y = Some v).
    { unfold pixel_sum. destruct (px img x y) as [[[r g] b] a].
      destruct (mode img); [congruence | eexists; reflexivity ..]. }
    destruct Hs as (v & ->).
    destruct (v <? 450)%Z.
    + rewrite IH. cbn [map]. now rewrite <- app_assoc.
    + apply IH.
Qed.

Lemma filter_nil_iff {A : Type} (f : A -> bool) (l : list A) :
  filter f l = [] <-> forall a, In a l -> f a = false.
Proof.
  induction l as [| a l IH]; cbn [filter].
  - split; [intros _ a [] | reflexivity].
  - destruct (f a) eqn:E.
    + split; [discriminate |]. intros H. specialize (H a (or_introl eq_refl)).
      congruence.
    + rewrite IH. split.
      * intros H b [<- | Hb]; auto.
      * intros H b Hb. apply H. now right.
Qed.

End ScanFacts.

(* ------------------------------------------------------------------ *)
(** ** An image without dark pixels *)
(* ------------------------------------------------------------------ *)

Section EmptyOutline.
Import Matcher PixelStyle OutlineStyle Shape OutlineShape Draw Samples.

(** C4, as amended.  An outline drawing of an image without dark pixels
    moves the pointer to the canvas corner, shows the notice
    "No outline pixels found in the image", issues no other call, and
    returns [False], the value [draw_image] also returns when it fails. *)
Theorem no_dark_pixels_outcome (stop : Oracle) (self : AutoDraw) (img : Image) :
  processed_image self = Some img ->
  style self = Outline ->
  mode img <> ModeL ->
  (0 < width img)%nat -> (0 < height img)%nat ->
  (forall x y, (x < width img)%nat -> (y < height img)%nat ->
               is_dark img x y = false) ->
  let '(x1, y1, _, _) := canvas self img in
  draw_image stop self []
  = (false, [EAct (MoveTo (IZR x1) (IZR y1)); EInfo NoOutlinePixels]).
Proof.
  intros Himg Hstyle Hmode Hw Hh Hdark.
  rewrite draw_image_unfold, Himg.
  destruct (canvas self img) as [[[x1 y1] x2] y2].
  replace ((width img =? 0)%nat || (height img =? 0)%nat) with false.
  2:{ symmetry. apply orb_false_iff. split; apply Nat.eqb_neq; lia. }
  rewrite Hstyle, draw_outline_style_unfold.
  rewrite (find_outline_pixels_filter img _ [] Hmode).
  replace (filter (fun xy => is_dark img (fst xy) (snd xy))
             (coords (width img) (height img))) with (@nil (nat * nat)).
  2:{ symmetry. apply filter_nil_iff. intros [x y] Hin.
      apply in_coords in Hin. now apply Hdark. }
  reflexivity.
Qed.

Lemma no_dark_pixels_outcome_witness :
  draw_image never white_dot []
  = (false, [EAct (MoveTo (IZR 0) (IZR 0)); EInfo NoOutlinePixels]).
Proof.
  apply (no_dark_pixels_outcome never white_dot
           (uniform ModeRGB 1 1 (255, 255, 255, 255)%Z)).
  - reflexivity.
  - reflexivity.
  - discriminate.
  - cbn. lia.
  - cbn. lia.
  - intros x y _ _. reflexivity.
Defined.

(** C4 as stated fails: the run without dark pixels returns [False], as
    does the run that has no image to draw. *)
Lemma no_dark_pixels_counterexample :
  fst (draw_image never white_dot []) = false
  /\ fst (draw_image never white_dot []) = fst (draw_image never no_image []).
Proof. split; reflexivity. Qed.

End EmptyOutline.

(* ------------------------------------------------------------------ *)
(** ** White pixels *)
(* ------------------------------------------------------------------ *)

Section WhiteMarking.
Import Matcher PixelStyle OutlineStyle Shape OutlineShape Draw Preprocess.

(** Without visible pixels the pixel branch does nothing. *)
Lemma draw_pixel_style_blank (stop : Oracle) (P : Palette) (x1 y1 : Z)
    (pw ph : R) (img : Image) (s : Trace) :
  visible_pixels img = [] ->
  draw_pixel_style stop P x1 y1 pw ph img s = (Next, s).
Proof.
  intros Hvis. unfold draw_pixel_style, bind.
  destruct (group_pixels_run P x1 y1 pw ph img
              (coords (width img) (height img)) [] s)
    as (d & Hrun & Hkeys & _).
  rewrite Hrun. fold (visible_pixels img) in *. rewrite Hvis in *.
  cbn [flat_map]. rewrite app_nil_r.
  assert (Hd : d = []).
  { destruct d as [| [k v] d]; [reflexivity |].
    destruct (proj1 (Hkeys k) (or_introl eq_refl)) as [[] | (xy & [] & _)]. }
  subst d. reflexivity.
Qed.




End WhiteMarking.

(* ------------------------------------------------------------------ *)
(** ** The scan order *)
(* ------------------------------------------------------------------ *)

Section ScanOrder.
Import OutlineStyle OutlineShape.

Lemma scan_lt_irrefl (p : Pt) : ~ scan_lt p p.
Proof. unfold scan_lt. lia. Qed.

Lemma scan_lt_trans (p q r : Pt) : scan_lt p q -> scan_lt q r -> scan_lt p r.
Proof. unfold scan_lt. lia. Qed.

Lemma sorted_same_elements (l1 l2 : list Pt) :
  StronglySorted scan_lt l1 -> StronglySorted scan_lt l2 ->
  (forall p, In p l1 <-> In p l2) -> l1 = l2.
Proof.
  intros H1. revert l2. induction H1 as [| a l1 Hs1 IH Ha]; intros l2 H2 Hsame.
  - destruct l2 as [| b l2]; [reflexivity |].
    destruct (proj2 (Hsame b) (or_introl eq_refl)).
  - destruct H2 as [| b l2 Hs2 Hb].
    + destruct (proj1 (Hsame a) (or_introl eq_refl)).
    + rewrite Forall_forall in Ha, Hb.
      assert (Hab : a = b).
      { destruct (proj1 (Hsame a) (or_introl eq_refl)) as [E | Hin]; [auto |].
        destruct (proj2 (Hsame b) (or_introl eq_refl)) as [E | Hin']; [auto |].
        exfalso. apply (scan_lt_irrefl a).
        apply scan_lt_trans with b; [apply Ha, Hin' | apply Hb, Hin]. }
      subst b. f_equal. apply IH; [exact Hs2 |].
      intros p. split; intros Hp.
      * destruct (proj1 (Hsame p) (or_intror Hp)) as [E | Hin]; [| exact Hin].
        subst p. exfalso. apply (scan_lt_irrefl a), Ha, Hp.
      * destruct (proj2 (Hsame p) (or_intror Hp)) as [E | Hin]; [| exact Hin].
        subst p. exfalso. apply (scan_lt_irrefl a), Hb, Hp.
Qed.

Lemma sorted_app (l1 l2 : list Pt) :
  StronglySorted scan_lt l1 -> StronglySorted scan_lt l2 ->
  (forall p q, In p l1 -> In q l2 -> scan_lt p q) ->
  StronglySorted scan_lt (l1 ++ l2).
Proof.
  intros H1 H2 H12. induction H1 as [| a l1 Hs1 IH Ha]; [exact H2 |].
  cbn [app]. constructor.
  - apply IH. intros p q Hp Hq. apply H12; [now right | exact Hq].
  - apply Forall_app. split; [exact Ha |].
    apply Forall_forall. intros q Hq. apply H12; [now left | exact Hq].
Qed.

Lemma row_sorted (y a w : nat) :
  StronglySorted scan_lt (map (fun x => to_pt (x, y)) (seq a w)).
Proof.
  revert a. induction w as [| w IH]; intros a; cbn [seq map]; constructor.
  - apply IH.
  - apply Forall_forall. intros q Hq. apply in_map_iff in Hq.
    destruct Hq as (x & <- & Hx). apply in_seq in Hx.
    unfold scan_lt, to_pt. cbn [fst snd]. lia.
Qed.

Lemma coords_sorted_from (w b h : nat) :
  StronglySorted scan_lt
    (map to_pt (flat_map (fun y => map (fun x => (x, y)) (seq 0 w)) (seq b h))).
Proof.
  revert b. induction h as [| h IH]; intros b; cbn [seq flat_map map].
  - constructor.
  - rewrite map_app, map_map. apply sorted_app.
    + apply (row_sorted b 0 w).
    + apply IH.
    + intros p q Hp Hq.
      apply in_map_iff in Hp. destruct Hp as (x & <- & Hx).
      apply in_map_iff in Hq. destruct Hq as ([x' y'] & <- & Hq).
      apply in_flat_map in Hq. destruct Hq as (y0 & Hy0 & Hq).
      apply in_map_iff in Hq. destruct Hq as (x0 & Heq & _).
      injection Heq as -> ->. apply in_seq in Hy0.
      unfold scan_lt, to_pt. cbn [fst snd]. lia.
Qed.

Lemma coords_sorted (w h : nat) : StronglySorted scan_lt (map to_pt (coords w h)).
Proof. apply coords_sorted_from. Qed.

Lemma line_sorted (x0 y0 dx dy : Z) (n : nat) :
  In (dx, dy) line_directions ->
  StronglySorted scan_lt (line x0 y0 dx dy n).
Proof.
  intros Hd. revert x0 y0.
  assert (Hall : forall n x0 y0 q, In q (line x0 y0 dx dy n) ->
                   (snd q > y0 \/ (snd q = y0 /\ fst q >= x0) )%Z
                   /\ (dy = 0 -> snd q = y0)%Z /\ (dy = 1 \/ (dy = 0 /\ dx = 1))%Z).
  { intros m. induction m as [| m IH]; intros x0 y0 q; cbn [line]; [intros [] |].
    assert (Hdir : (dy = 1 \/ (dy = 0 /\ dx = 1))%Z).
    { cbn in Hd. destruct Hd as [E | [E | [E | [E | []]]]]; injection E; lia. }
    intros [<- | Hq]; cbn [fst snd].
    - split; [lia | split; [lia | exact Hdir]].
    - destruct (IH _ _ _ Hq) as (H1 & H2 & _).
      split; [| split; [| exact Hdir]]; lia. }
  induction n as [| n IH]; intros x0 y0; cbn [line]; constructor.
  - apply IH.
  - apply Forall_forall. intros q Hq.
    destruct (Hall _ _ _ _ Hq) as (H1 & H2 & H3).
    unfold scan_lt. cbn [fst snd]. lia.
Qed.

End ScanOrder.

(* ------------------------------------------------------------------ *)
(** ** Tracing commutes with translations *)
(* ------------------------------------------------------------------ *)

Section Translation.
Import OutlineStyle OutlineShape.

Variables a b : Z.

Local Abbreviation sh := (shift a b).

Lemma Pt_eqb_shift (p q : Pt) : Pt_eqb (sh p) (sh q) = Pt_eqb p q.
Proof.
  unfold Pt_eqb, sh. cbn [fst snd].
  f_equal; apply eq_iff_eq_true; rewrite !Z.eqb_eq; lia.
Qed.

Lemma mem_shift (p : Pt) (l : list Pt) : mem (sh p) (map sh l) = mem p l.
Proof.
  unfold mem. induction l as [| q l IH]; cbn [map existsb]; [reflexivity |].
  now rewrite Pt_eqb_shift, IH.
Qed.

Lemma find_next_shift (outline visited : list Pt) (current : Pt)
    (dirs : list (Z * Z)) :
  find_next (map sh outline) (map sh visited) (sh current) dirs
  = option_map sh (find_next outline visited current dirs).
Proof.
  induction dirs as [| [dx dy] dirs IH]; cbn [find_next]; [reflexivity |].
  replace (fst (sh current) + dx, snd (sh current) + dy)%Z
    with (sh (fst current + dx, snd current + dy)%Z)
    by (unfold sh; cbn [fst snd]; f_equal; lia).
  rewrite !mem_shift.
  destruct (mem _ outline && negb (mem _ visited)); [reflexivity | exact IH].
Qed.

Lemma extend_shift (stop : Oracle) (fuel : nat)
    (outline visited segment : list Pt) (current : Pt) (s : Trace) :
  extend stop fuel (map sh outline) (map sh visited) (map sh segment)
    (sh current) s
  = let '(r, s') := extend stop fuel outline visited segment current s in
    (option_map (fun sv => (map sh (fst sv), map sh (snd sv))) r, s').
Proof.
  revert visited segment current s.
  induction fuel as [| fuel IH]; intros visited segment current s; cbn [extend].
  - reflexivity.
  - unfold bind, poll. destruct (stop (length s)); [reflexivity |].
    rewrite find_next_shift.
    destruct (find_next outline visited current directions) as [n |];
      cbn [option_map]; [| reflexivity].
    rewrite <- IH. cbn [map]. now rewrite map_app.
Qed.

Lemma trace_segments_shift (stop : Oracle) (outline todo visited : list Pt)
    (segs : list (list Pt)) (s : Trace) :
  trace_segments stop (map sh outline) (map sh todo) (map sh visited)
    (map (map sh) segs) s
  = let '(r, s') := trace_segments stop outline todo visited segs s in
    (option_map (map (map sh)) r, s').
Proof.
  revert visited segs s.
  induction todo as [| p todo IH]; intros visited segs s;
    cbn [trace_segments map].
  - reflexivity.
  - rewrite mem_shift. destruct (mem p visited); [apply IH |].
    unfold bind, poll. destruct (stop (length s)); [apply IH |].
    rewrite length_map.
    generalize (extend_shift stop (S (length outline)) outline (p :: visited)
                  [p] p (s ++ [EPoll])).
    cbn [map]. intros ->.
    destruct (extend stop (S (length outline)) outline (p :: visited) [p] p
                (s ++ [EPoll])) as [[[segment visited'] |] s1];
      cbn [option_map fst snd]; [| reflexivity].
    rewrite length_map.
    destruct (1 <? length segment)%nat; [| apply IH].
    rewrite <- IH. now rewrite map_app.
Qed.

Lemma line_shift (dx dy : Z) (n : nat) (x0 y0 : Z) :
  line (x0 + a) (y0 + b) dx dy n = map sh (line x0 y0 dx dy n).
Proof.
  revert x0 y0. induction n as [| n IH]; intros x0 y0; cbn [line map];
    [reflexivity |].
  unfold sh at 1. cbn [fst snd].
  replace (x0 + a + dx)%Z with (x0 + dx + a)%Z by lia.
  replace (y0 + b + dy)%Z with (y0 + dy + b)%Z by lia.
  now rewrite IH.
Qed.

End Translation.

(* ------------------------------------------------------------------ *)
(** ** A straight line of ten pixels *)
(* ------------------------------------------------------------------ *)

Section StraightLine.
Import Matcher OutlineStyle OutlineShape Draw.

(** Tracing a straight run of ten pixels, wherever it lies, yields the
    run itself as the only segment. *)
Lemma trace_line (x0 y0 dx dy : Z) (s : Trace) :
  In (dx, dy) line_directions ->
  fst (trace_segments never (line x0 y0 dx dy 10) (line x0 y0 dx dy 10) [] [] s)
  = Some [line x0 y0 dx dy 10].
Proof.
  intros Hd.
  replace x0 with (0 + x0)%Z by lia. replace y0 with (0 + y0)%Z by lia.
  rewrite line_shift.
  generalize (trace_segments_shift x0 y0 never (line 0 0 dx dy 10)
                (line 0 0 dx dy 10) [] [] s).
  cbn [map]. intros ->.
  assert (H0 : fst (trace_segments never (line 0 0 dx dy 10)
                      (line 0 0 dx dy 10) [] [] s)
               = Some [line 0 0 dx dy 10]).
  { cbn in Hd. destruct Hd as [E | [E | [E | [E | []]]]]; injection E as <- <-;
      vm_compute; reflexivity. }
  destruct (trace_segments never (line 0 0 dx dy 10) (line 0 0 dx dy 10) [] [] s)
    as [r s'].
  cbn [fst] in *. subst r. reflexivity.
Qed.

End StraightLine.

Section StraightLineClaim.
Import Matcher OutlineStyle OutlineShape Draw.

Lemma sorted_map_filter (f : nat * nat -> bool) (l : list (nat * nat)) :
  StronglySorted scan_lt (map to_pt l) ->
  StronglySorted scan_lt (map to_pt (filter f l)).
Proof.
  induction l as [| a l IH]; cbn [map filter]; [auto |].
  intros H. inversion H as [| ? ? Hs Ha]; subst.
  destruct (f a); [| now apply IH].
  cbn [map]. constructor; [now apply IH |].
  rewrite Forall_forall in *. intros q Hq. apply Ha.
  apply in_map_iff in Hq. destruct Hq as (xy & <- & Hxy).
  apply in_map. apply filter_In in Hxy. tauto.
Qed.

(** The scan of an image whose dark pixels are the pixels of a straight
    run finds that run, in its own order. *)
Lemma find_outline_pixels_line (img : Image) (x0 y0 dx dy : Z) (n : nat) :
  mode img <> ModeL ->
  In (dx, dy) line_directions ->
  (forall x y, (x < width img)%nat -> (y < height img)%nat ->
               (is_dark img x y = true <-> In (to_pt (x, y)) (line x0 y0 dx dy n))) ->
  (forall p, In p (line x0 y0 dx dy n) ->
             (0 <= fst p < Z.of_nat (width img)
              /\ 0 <= snd p < Z.of_nat (height img))%Z) ->
  find_outline_pixels img (coords (width img) (height img)) []
  = Some (line x0 y0 dx dy n).
Proof.
  intros Hmode Hd Hdark Hin.
  rewrite (find_outline_pixels_filter img _ [] Hmode). cbn [app]. f_equal.
  apply sorted_same_elements.
  - apply sorted_map_filter, coords_sorted.
  - apply line_sorted, Hd.
  - intros p. rewrite in_map_iff. split.
    + intros ([x y] & <- & Hxy). apply filter_In in Hxy.
      destruct Hxy as [Hc Hdk]. apply in_coords in Hc.
      apply (Hdark x y); tauto.
    + intros Hp. destruct (Hin p Hp) as [Hx Hy].
      exists (Z.to_nat (fst p), Z.to_nat (snd p)).
      assert (Hpt : to_pt (Z.to_nat (fst p), Z.to_nat (snd p)) = p).
      { unfold to_pt. cbn [fst snd]. rewrite !Z2Nat.id by lia.
        now destruct p. }
      split; [exact Hpt |].
      apply filter_In. split.
      * apply in_coords. lia.
      * cbn [fst snd]. apply Hdark; [lia | lia |]. now rewrite Hpt.
Qed.

(** An undisturbed outline drawing whose tracing finds one segment. *)
Lemma draw_outline_style_one_segment (P : Palette)
    (cps : list (Color * (Z * Z))) (x1 y1 : Z) (img : Image) (L : list Pt)
    (c : Color) (pos : Z * Z) (s : Trace) :
  find_outline_pixels img (coords (width img) (height img)) [] = Some L ->
  L <> [] ->
  closest P (0, 0, 0)%Z = Some c ->
  position_of c cps = Some pos ->
  (forall s', fst (trace_segments never L L [] [] s') = Some [L]) ->
  fst (draw_outline_style never P cps x1 y1 img s) = Next
  /\ actions (snd (draw_outline_style never P cps x1 y1 img s))
     = actions s ++ SelectColor c :: segment_actions x1 y1 L.
Proof.
  intros Hscan Hne Hc Hpos Htrace.
  rewrite draw_outline_style_unfold, Hscan.
  destruct L as [| p0 outline]; [congruence |].
  cbv zeta. rewrite Hc, Hpos.
  match goal with
  | |- context [trace_segments never ?l ?l [] [] ?s1] =>
      generalize (Htrace s1);
      generalize (trace_segments_actions never l l [] [] s1);
      destruct (trace_segments never l l [] [] s1) as [r s2]
  end.
  cbn [fst snd]. intros Hact ->.
  destruct (draw_segments_never x1 y1 [p0 :: outline] s2) as [Hf Ha].
  { constructor; [discriminate | constructor]. }
  split; [exact Hf |].
  rewrite Ha, Hact, !actions_app, matcher_no_actions.
  cbn [flat_map app actions]. now rewrite !app_nil_r, <- app_assoc.
Qed.

(** C8.  An outline drawing of an image whose dark pixels are ten
    consecutive pixels of a row, a column or a diagonal traces exactly one
    segment, the ten pixels in order, and draws it with one stroke: after
    the initial move and the click on black, a [MoveTo] to the first
    pixel, [PressDown], nine [DragTo] through the other pixels, and
    [Release] last. *)
Theorem straight_line_single_stroke (self : AutoDraw) (img : Image)
    (x0 y0 dx dy : Z) (c : Color) (pos : Z * Z) :
  processed_image self = Some img ->
  style self = Outline ->
  mode img <> ModeL ->
  In (dx, dy) line_directions ->
  (forall x y, (x < width img)%nat -> (y < height img)%nat ->
               (is_dark img x y = true
                <-> In (to_pt (x, y)) (line x0 y0 dx dy 10))) ->
  (forall p, In p (line x0 y0 dx dy 10) ->
             (0 <= fst p < Z.of_nat (width img)
              /\ 0 <= snd p < Z.of_nat (height img))%Z) ->
  closest (palette self) (0, 0, 0)%Z = Some c ->
  position_of c (color_positions self) = Some pos ->
  let L := line x0 y0 dx dy 10 in
  let '(x1, y1, _, _) := canvas self img in
  find_outline_pixels img (coords (width img) (height img)) [] = Some L
  /\ (forall s, fst (trace_segments never L L [] [] s) = Some [L])
  /\ length L = 10%nat
  /\ fst (draw_image never self []) = true
  /\ actions (snd (draw_image never self []))
     = MoveTo (IZR x1) (IZR y1)
       :: SelectColor c
       :: MoveTo (IZR (x1 + x0)) (IZR (y1 + y0))
       :: PressDown
       :: map (fun p => DragTo (IZR (x1 + fst p)) (IZR (y1 + snd p)))
            (line (x0 + dx) (y0 + dy) dx dy 9)
       ++ [Release].
Proof.
  intros Himg Hstyle Hmode Hd Hdark Hin Hc Hpos L.
  assert (Hscan := find_outline_pixels_line img x0 y0 dx dy 10 Hmode Hd Hdark Hin).
  assert (Htrace : forall s, fst (trace_segments never L L [] [] s) = Some [L])
    by (intros s; apply trace_line, Hd).
  destruct (Hin (x0, y0) (or_introl eq_refl)) as [Hx Hy]. cbn [fst snd] in Hx, Hy.
  rewrite draw_image_unfold, Himg.
  destruct (canvas self img) as [[[x1 y1] x2] y2].
  split; [exact Hscan |]. split; [exact Htrace |]. split; [reflexivity |].
  replace ((width img =? 0)%nat || (height img =? 0)%nat) with false.
  2:{ symmetry. apply orb_false_iff. split; apply Nat.eqb_neq; lia. }
  rewrite Hstyle.
  destruct (draw_outline_style_one_segment (palette self) (color_positions self)
              x1 y1 img L c pos ([] ++ [EAct (MoveTo (IZR x1) (IZR y1))])
              Hscan ltac:(discriminate) Hc Hpos Htrace) as [Hf Ha].
  destruct (draw_outline_style never (palette self) (color_positions self)
              x1 y1 img ([] ++ [EAct (MoveTo (IZR x1) (IZR y1))])) as [fl s3].
  cbn [fst snd] in Hf, Ha. subst fl.
  split; [reflexivity |].
  rewrite handle_actions, Ha. reflexivity.
Qed.

Lemma straight_line_single_stroke_witness :
  let L := line 0 0 1 0 10 in
  find_outline_pixels (Samples.uniform ModeRGB 10 1 (0, 0, 0, 255)%Z)
    (coords 10 1) [] = Some L
  /\ (forall s, fst (trace_segments never L L [] [] s) = Some [L])
  /\ length L = 10%nat
  /\ fst (draw_image never Samples.black_line []) = true
  /\ actions (snd (draw_image never Samples.black_line []))
     = MoveTo (IZR 0) (IZR 0)
       :: SelectColor (0, 0, 0)%Z
       :: MoveTo (IZR (0 + 0)) (IZR (0 + 0))
       :: PressDown
       :: map (fun p => DragTo (IZR (0 + fst p)) (IZR (0 + snd p)))
            (line (0 + 1) (0 + 0) 1 0 9)
       ++ [Release].
Proof.
  apply (straight_line_single_stroke Samples.black_line
           (Samples.uniform ModeRGB 10 1 (0, 0, 0, 255)%Z)
           0 0 1 0 (0, 0, 0)%Z (5, 5)%Z).
  - reflexivity.
  - reflexivity.
  - discriminate.
  - left. reflexivity.
  - intros x y Hx Hy. cbn in Hx, Hy.
    assert (y = 0%nat) by lia. subst y.
    split; [intros _ | reflexivity].
    do 10 (destruct x as [| x]; [cbn; tauto |]). lia.
  - intros p Hp. cbn in Hp.
    repeat (destruct Hp as [<- | Hp]; [cbn; lia |]). destruct Hp.
  - apply closest_exact. left. reflexivity.
  - reflexivity.
Defined.

End StraightLineClaim.

(* ------------------------------------------------------------------ *)
(** ** The range of [rgb2lab] and the asymmetry of [delta_e_cie94] *)
(* ------------------------------------------------------------------ *)

Section ColorSpaceMore.
Import ColorSpace Matcher.
Local Open Scope R_scope.

Lemma srgb_zero : srgb 0 = 0.
Proof. unfold srgb. destruct (Rlt_dec 0.04045 0); lra. Qed.

Lemma srgb_one : srgb 1 = 1.
Proof.
  unfold srgb. destruct (Rlt_dec 0.04045 1); [| lra].
  replace ((1 + 0.055) / 1.055) with 1 by lra.
  unfold Rpower. rewrite ln_1, Rmult_0_r. apply exp_0.
Qed.

Lemma lab_f_one : lab_f 1 = 1.
Proof.
  unfold lab_f. destruct (Rlt_dec 0.008856 1); [| lra].
  unfold Rpower. rewrite ln_1, Rmult_0_r. apply exp_0.
Qed.

Lemma lab_f_zero : lab_f 0 = 16 / 116.
Proof. unfold lab_f. destruct (Rlt_dec 0.008856 0); lra. Qed.

Lemma increasing_le (f : R -> R) :
  (forall x y, x < y -> f x < f y) -> forall x y, x <= y -> f x <= f y.
Proof.
  intros Hf x y [H | ->]; [left; now apply Hf | right; reflexivity].
Qed.

Lemma srgb_unit (v : Z) :
  (0 <= v <= 255)%Z -> 0 <= srgb (IZR v / 255.0) <= 1.
Proof.
  intros [H0 H1]. apply IZR_le in H0, H1.
  assert (A : srgb 0 <= srgb (IZR v / 255.0))
    by (apply (increasing_le srgb srgb_increasing); lra).
  assert (B : srgb (IZR v / 255.0) <= srgb 1)
    by (apply (increasing_le srgb srgb_increasing); lra).
  rewrite srgb_zero in A. rewrite srgb_one in B. lra.
Qed.

Lemma rgb2lab_black : rgb2lab (0, 0, 0)%Z = (0, 0, 0).
Proof.
  cbv beta iota zeta delta [rgb2lab].
  replace (0 / 255.0) with 0 by lra. rewrite srgb_zero.
  replace ((0 * 0.4124 + 0 * 0.3576 + 0 * 0.1805) * 100 / 95.047) with 0 by lra.
  replace ((0 * 0.2126 + 0 * 0.7152 + 0 * 0.0722) * 100 / 100.0) with 0 by lra.
  replace ((0 * 0.0193 + 0 * 0.1192 + 0 * 0.9505) * 100 / 108.883) with 0 by lra.
  rewrite lab_f_zero. f_equal; [f_equal |]; lra.
Qed.

Lemma lightness_white : fst (fst (rgb2lab (255, 255, 255)%Z)) = 100.
Proof.
  cbv beta iota zeta delta [rgb2lab].
  replace (255 / 255.0) with 1 by lra. rewrite srgb_one.
  replace ((1 * 0.2126 + 1 * 0.7152 + 1 * 0.0722) * 100 / 100.0) with 1 by lra.
  rewrite lab_f_one. cbn [fst]. lra.
Qed.

(** X3.  For channels between 0 and 255 the lightness computed by
    [rgb2lab] lies between 0 and 100; black is converted to the origin
    [(0, 0, 0)] and white has lightness 100. *)
Theorem lightness_range :
  (forall r g b : Z,
     (0 <= r <= 255)%Z -> (0 <= g <= 255)%Z -> (0 <= b <= 255)%Z ->
     0 <= fst (fst (rgb2lab (r, g, b))) <= 100)
  /\ rgb2lab (0, 0, 0)%Z = (0, 0, 0)
  /\ fst (fst (rgb2lab (255, 255, 255)%Z)) = 100.
Proof.
  split; [| split; [apply rgb2lab_black | apply lightness_white]].
  intros r g b Hr Hg Hb. cbv beta iota zeta delta [rgb2lab]. cbn [fst].
  pose proof (srgb_unit r Hr) as Sr.
  pose proof (srgb_unit g Hg) as Sg.
  pose proof (srgb_unit b Hb) as Sb.
  set (y := (srgb (IZR r / 255.0) * 0.2126 + srgb (IZR g / 255.0) * 0.7152
             + srgb (IZR b / 255.0) * 0.0722) * 100 / 100.0).
  assert (Hy : 0 <= y <= 1) by (unfold y; lra).
  assert (H0 : lab_f 0 <= lab_f y)
    by (apply (increasing_le lab_f lab_f_increasing); lra).
  assert (H1 : lab_f y <= lab_f 1)
    by (apply (increasing_le lab_f lab_f_increasing); lra).
  rewrite lab_f_zero in H0. rewrite lab_f_one in H1. lra.
Qed.

Lemma lightness_range_witness :
  0 <= fst (fst (rgb2lab (12, 200, 255)%Z)) <= 100.
Proof. apply (proj1 lightness_range 12 200 255)%Z; lia. Defined.

(** X4.  [delta_e_cie94] is not symmetric.  Between a grey and a colour
    of the same lightness and of chroma [C > 0], it is [C] when the grey
    comes first and [C / (1 + 0.045 * C)], which is less, when the colour
    comes first: the weights are taken from the first argument. *)
Theorem delta_e_cie94_asymmetric (L a b : R) :
  0 < a ^ 2 + b ^ 2 ->
  let C := sqrt (a ^ 2 + b ^ 2) in
  delta_e_cie94 (L, 0, 0) (L, a, b) = Some C
  /\ delta_e_cie94 (L, a, b) (L, 0, 0) = Some (C / (1 + 0.045 * C))
  /\ C / (1 + 0.045 * C) < C.
Proof.
  intros Hpos C.
  assert (HC : 0 < C) by (apply sqrt_lt_R0; exact Hpos).
  assert (HCC : C ^ 2 = a ^ 2 + b ^ 2).
  { unfold C. rewrite <- Rsqr_pow2. apply Rsqr_sqrt. lra. }
  assert (H0 : sqrt (0 ^ 2 + 0 ^ 2) = 0).
  { replace (0 ^ 2 + 0 ^ 2) with 0 by lra. apply sqrt_0. }
  assert (Hh : forall x, x = 0 -> hue_term x = Some 0).
  { intros x ->. unfold hue_term, pow_half.
    destruct (Rlt_dec 0 0); [lra |]. now rewrite sqrt_0. }
  assert (Hdiv : 0 < 1 + 0.045 * C) by lra.
  split; [| split].
  - cbv beta iota zeta delta [delta_e_cie94].
    rewrite (pow_half_defined (0 ^ 2 + 0 ^ 2)) by lra.
    rewrite (pow_half_defined (a ^ 2 + b ^ 2)) by lra.
    fold C. rewrite H0.
    rewrite Hh by nra.
    rewrite pow_half_defined by apply sum_sq3_nonneg.
    f_equal.
    replace (((L - L) / (1 * 1)) ^ 2 + ((0 - C) / (1 + 0.045 * 0)) ^ 2
             + (0 / (1 + 0.015 * 0)) ^ 2) with (C ^ 2) by (field; lra).
    apply sqrt_pow2. lra.
  - cbv beta iota zeta delta [delta_e_cie94].
    rewrite (pow_half_defined (0 ^ 2 + 0 ^ 2)) by lra.
    rewrite (pow_half_defined (a ^ 2 + b ^ 2)) by lra.
    fold C. rewrite H0.
    rewrite Hh by nra.
    rewrite pow_half_defined by apply sum_sq3_nonneg.
    f_equal.
    replace (((L - L) / (1 * 1)) ^ 2 + ((C - 0) / (1 + 0.045 * C)) ^ 2
             + (0 / (1 + 0.015 * C)) ^ 2)
      with ((C / (1 + 0.045 * C)) ^ 2) by (field; lra).
    apply sqrt_pow2. apply Rlt_le, Rdiv_lt_0_compat; lra.
  - apply (Rmult_lt_reg_r (1 + 0.045 * C)); [exact Hdiv |].
    unfold Rdiv. rewrite Rmult_assoc, Rinv_l by lra. nra.
Qed.

Lemma delta_e_cie94_asymmetric_witness :
  delta_e_cie94 (50, 0, 0) (50, 3, 4) = Some (sqrt (3 ^ 2 + 4 ^ 2))
  /\ delta_e_cie94 (50, 3, 4) (50, 0, 0)
     = Some (sqrt (3 ^ 2 + 4 ^ 2) / (1 + 0.045 * sqrt (3 ^ 2 + 4 ^ 2)))
  /\ sqrt (3 ^ 2 + 4 ^ 2) / (1 + 0.045 * sqrt (3 ^ 2 + 4 ^ 2))
     < sqrt (3 ^ 2 + 4 ^ 2).
Proof. apply (delta_e_cie94_asymmetric 50 3 4). lra. Defined.

End ColorSpaceMore.

(* ------------------------------------------------------------------ *)
(** ** The matcher: identity of the distance, idempotence *)
(* ------------------------------------------------------------------ *)

Section MatcherMore.
Import ColorSpace Matcher.
Local Open Scope R_scope.

(** X1.  The distance that the matcher minimises is never negative, and
    it is zero exactly when the two colours are the same tuple: no two
    different colours are at distance zero of each other. *)
Theorem distance_identity (c p : Color) :
  0 <= distance c p /\ (distance c p = 0 <-> c = p).
Proof.
  split; [apply distance_nonneg |].
  split; [apply distance_zero | intros ->; apply distance_refl].
Qed.

(** X2.  The matcher is idempotent: the colour it answers for a query is
    answered unchanged when it is itself the query, and it is an entry of
    the palette whenever the palette is not empty. *)
Theorem closest_idempotent (P : Palette) (c p : Color) :
  closest P c = Some p ->
  closest P p = Some p /\ (P <> [] -> In p P).
Proof.
  intros H. destruct (closest_some P c) as (q & Hq & Hin).
  rewrite H in Hq. injection Hq as <-.
  destruct Hin as [-> | Hin].
  - split; [reflexivity | congruence].
  - split; [now apply closest_exact | auto].
Qed.

Lemma closest_idempotent_witness :
  closest [(255, 0, 0); (0, 0, 0)]%Z (0, 0, 0)%Z = Some (0, 0, 0)%Z
  /\ In (0, 0, 0)%Z [(255, 0, 0); (0, 0, 0)]%Z.
Proof.
  assert (H : closest [(255, 0, 0); (0, 0, 0)]%Z (0, 0, 0)%Z
              = Some (0, 0, 0)%Z)
    by (apply closest_exact; simpl; auto).
  destruct (closest_idempotent _ _ _ H) as [H1 H2].
  split; [exact H1 | apply H2; discriminate].
Defined.

End MatcherMore.

(* ------------------------------------------------------------------ *)
(** ** The nearest-neighbour order is greedy *)
(* ------------------------------------------------------------------ *)

Section GreedyOrder.
Import ColorSpace Matcher PixelStyle Order.
Local Open Scope R_scope.

Lemma pop_nth {A : Type} (i : nat) (l : list A) (a : A) (r : list A) :
  pop i l = Some (a, r) -> nth_error l i = Some a.
Proof.
  revert i a r. induction l as [| b l IH]; intros i a r H;
    [destruct i; discriminate |].
  destruct i as [| i]; simpl in *.
  - congruence.
  - destruct (pop i l) as [[c r'] |] eqn:E; [| discriminate].
    apply (IH i a r'). congruence.
Qed.

(** The scan of [remaining], resumed after the points [pre]: the index
    it answers is that of a point of [pre ++ remaining] nearest to
    [last]. *)
Lemma nearest_scan_min (last : Point) (rem pre : list Point) (idx : nat)
    (nd : option R) :
  match nd with
  | None => pre = []
  | Some d0 =>
      exists p, nth_error pre idx = Some p /\ d0 = dist p last
                /\ forall q, In q pre -> d0 <= dist q last
  end ->
  pre ++ rem <> [] ->
  exists p,
    nth_error (pre ++ rem) (nearest_scan last rem (length pre) idx nd) = Some p
    /\ forall q, In q (pre ++ rem) -> dist p last <= dist q last.
Proof.
  revert pre idx nd. induction rem as [| x rem IH]; intros pre idx nd Hinv Hne.
  - cbn [nearest_scan]. rewrite app_nil_r in *.
    destruct nd as [d0 |]; [| contradiction].
    destruct Hinv as (p & Hp & -> & Hmin). exists p. split; assumption.
  - cbn [nearest_scan].
    replace (pre ++ x :: rem) with ((pre ++ [x]) ++ rem)
      by (rewrite <- app_assoc; reflexivity).
    replace (S (length pre)) with (length (pre ++ [x]))
      by (rewrite length_app; cbn [length]; lia).
    destruct (lt_inf (dist x last) nd) eqn:E.
    + apply IH.
      * exists x. split; [| split].
        -- rewrite nth_error_app2 by lia. now rewrite Nat.sub_diag.
        -- reflexivity.
        -- intros q Hq. apply in_app_or in Hq. destruct Hq as [Hq | [<- | []]].
           ++ apply lt_inf_spec in E. destruct nd as [d0 |].
              ** destruct Hinv as (p & _ & _ & Hmin). specialize (Hmin q Hq). lra.
              ** subst pre. destruct Hq.
           ++ lra.
      * intros H. apply app_eq_nil in H. destruct H as [H _].
        apply app_eq_nil in H. destruct H as [_ H]. discriminate.
    + destruct nd as [d0 |]; [| discriminate].
      destruct Hinv as (p & Hp & -> & Hmin).
      apply IH.
      * exists p. split; [| split].
        -- rewrite nth_error_app1; [exact Hp |].
           apply nth_error_Some. congruence.
        -- reflexivity.
        -- intros q Hq. apply in_app_or in Hq. destruct Hq as [Hq | [<- | []]].
           ++ now apply Hmin.
           ++ cbn [lt_inf] in E.
              destruct (Rlt_dec (dist x last) (dist p last)); [discriminate | lra].
      * intros H. apply app_eq_nil in H. destruct H as [H _].
        apply app_eq_nil in H. destruct H as [_ H]. discriminate.
Qed.

Lemma nn_loop_greedy (fuel : nat) (sorted_pixels remaining : list Point) :
  (length remaining <= fuel)%nat ->
  exists ext,
    nn_loop fuel sorted_pixels remaining = Some (sorted_pixels ++ ext)
    /\ Permutation remaining ext
    /\ greedy_from (List.last sorted_pixels (0, 0)) ext.
Proof.
  revert sorted_pixels remaining.
  induction fuel as [| fuel IH]; intros sp rem Hlen.
  - destruct rem; [| cbn [length] in Hlen; lia].
    exists []. cbn. rewrite app_nil_r. repeat split. constructor.
  - destruct rem as [| x rem].
    { exists []. cbn. rewrite app_nil_r. repeat split. constructor. }
    cbn [nn_loop].
    set (last := List.last sp (0, 0)).
    destruct (nearest_scan_min last (x :: rem) [] 0 None eq_refl)
      as (p & Hp & Hmin); [discriminate |].
    cbn [app length] in Hp, Hmin.
    set (idx := nearest_scan last (x :: rem) 0 0 None) in *.
    assert (Hidx : (idx < length (x :: rem))%nat)
      by (apply nth_error_Some; congruence).
    destruct (@pop_some _ idx (x :: rem) Hidx) as (a & r & Hpop & Hperm & Hl).
    rewrite Hpop. apply pop_nth in Hpop. rewrite Hp in Hpop.
    injection Hpop as <-.
    destruct (IH (sp ++ [p]) r) as (ext & Hrun & Hpe & Hg).
    { cbn [length] in Hl, Hlen. lia. }
    rewrite last_last in Hg.
    exists (p :: ext). split; [| split].
    + rewrite Hrun, <- app_assoc. reflexivity.
    + rewrite Hperm. now constructor.
    + cbn [greedy_from]. split; [| exact Hg].
      intros q Hq. apply Hmin.
      apply (Permutation_in _ (Permutation_sym Hperm)). right.
      apply (Permutation_in _ (Permutation_sym Hpe)). exact Hq.
Qed.

(** X6.  The order in which a cell is drawn starts with the first point
    of the cell and is greedy: every later point is, among the points not
    yet drawn, one nearest to the point drawn just before it. *)
Theorem order_cell_greedy (first : Point) (rest : list Point) :
  exists ordered,
    order_cell (first :: rest) = Some (first :: ordered)
    /\ Permutation rest ordered
    /\ greedy_from first ordered.
Proof.
  destruct rest as [| x rest].
  - exists []. repeat split. constructor.
  - cbn [order_cell].
    destruct (nn_loop_greedy (length (x :: rest)) [first] (x :: rest))
      as (ext & Hrun & Hperm & Hg); [lia |].
    exists ext. split; [exact Hrun | split; assumption].
Qed.

End GreedyOrder.

(* ------------------------------------------------------------------ *)
(** ** The cells of the grid *)
(* ------------------------------------------------------------------ *)

Section GridCells.
Import PixelStyle.
Local Open Scope R_scope.

Lemma cell_eqb_eq (a b : Z * Z) : cell_eqb a b = true <-> a = b.
Proof.
  destruct a as [a1 a2], b as [b1 b2]. unfold cell_eqb. cbn [fst snd].
  rewrite andb_true_iff, !Z.eqb_eq. split.
  - intros [-> ->]. reflexivity.
  - intros H. injection H as -> ->. split; reflexivity.
Qed.

Lemma dict_append_cell (k0 : Z * Z) (v : Point)
    (d : list (Z * Z * list Point)) (k : Z * Z) (pts : list Point) :
  In (k, pts) (dict_append cell_eqb k0 v d) ->
  In (k, pts) d
  \/ (k = k0 /\ exists pts0, pts = pts0 ++ [v]
                            /\ (pts0 = [] \/ In (k, pts0) d)).
Proof.
  induction d as [| [k' vs] d IH]; cbn [dict_append].
  - intros [H | []]. injection H as <- <-. right. split; [reflexivity |].
    exists []. split; [reflexivity | now left].
  - destruct (cell_eqb k0 k') eqn:E.
    + apply cell_eqb_eq in E. subst k'. intros [H | H].
      * injection H as <- <-. right. split; [reflexivity |].
        exists vs. split; [reflexivity | right; now left].
      * left. now right.
    + intros [H | H].
      * left. now left.
      * destruct (IH H) as [H1 | (-> & pts0 & -> & [-> | H1])].
        -- left. now right.
        -- right. split; [reflexivity |]. exists []. split; [reflexivity | now left].
        -- right. split; [reflexivity |]. exists pts0.
           split; [reflexivity | right; now right].
Qed.

Lemma grid_cells_keys (x1 y1 : Z) (pixels : list Point)
    (cells : list (Z * Z * list Point)) :
  (forall k pts, In (k, pts) cells ->
     pts <> [] /\ forall p, In p pts -> cell_key x1 y1 p = k) ->
  forall k pts, In (k, pts) (grid_cells x1 y1 pixels cells) ->
    pts <> [] /\ forall p, In p pts -> cell_key x1 y1 p = k.
Proof.
  revert cells. induction pixels as [| v pixels IH]; intros cells Hinv;
    cbn [grid_cells]; [exact Hinv |].
  apply IH. intros k pts Hin.
  apply dict_append_cell in Hin.
  destruct Hin as [Hin | (-> & pts0 & -> & Hpts0)]; [now apply Hinv |].
  split.
  - intros H. apply app_eq_nil in H. destruct H as [_ H]. discriminate.
  - intros p Hp. apply in_app_or in Hp. destruct Hp as [Hp | [<- | []]].
    + destruct Hpts0 as [-> | Hin0]; [destruct Hp |].
      now apply (Hinv _ _ Hin0).
    + reflexivity.
Qed.

Lemma same_int_part (u v : R) :
  Int_part u = Int_part v -> Rabs (u - v) < 1.
Proof.
  intros H.
  destruct (base_Int_part u) as [U1 U2], (base_Int_part v) as [V1 V2].
  rewrite H in U1, U2.
  apply Rabs_def1; lra.
Qed.

Lemma same_cell_near (a b : R) (x1 : Z) :
  Int_part ((a - IZR x1) / GRID_SIZE) = Int_part ((b - IZR x1) / GRID_SIZE) ->
  Rabs (a - b) < GRID_SIZE.
Proof.
  intros H. apply same_int_part in H. unfold GRID_SIZE in *.
  apply Rabs_def2 in H. destruct H as [H1 H2].
  apply Rabs_def1; lra.
Qed.

(** X7.  The cells of the grid are never empty, and two points of one
    cell have the same cell key and differ by less than [GRID_SIZE] = 20
    in each coordinate. *)
Theorem grid_cell_extent (x1 y1 : Z) (pixels cell : list Point) :
  In cell (map snd (grid_cells x1 y1 pixels [])) ->
  cell <> []
  /\ forall p q, In p cell -> In q cell ->
       cell_key x1 y1 p = cell_key x1 y1 q
       /\ Rabs (fst p - fst q) < GRID_SIZE
       /\ Rabs (snd p - snd q) < GRID_SIZE.
Proof.
  intros Hin. apply in_map_iff in Hin. destruct Hin as ([k pts] & <- & Hin).
  cbn [snd].
  destruct (grid_cells_keys x1 y1 pixels [] (fun k pts H => match H with end)
              k pts Hin) as [Hne Hkey].
  split; [exact Hne |].
  intros p q Hp Hq.
  assert (E : cell_key x1 y1 p = cell_key x1 y1 q)
    by (rewrite (Hkey p Hp), (Hkey q Hq); reflexivity).
  split; [exact E |].
  unfold cell_key in E. injection E as E1 E2.
  split; [apply (same_cell_near _ _ x1 E1) | apply (same_cell_near _ _ y1 E2)].
Qed.

Lemma grid_cell_extent_witness :
  [(1, 2); (3, 4)] <> []
  /\ forall p q, In p [(1, 2); (3, 4)] -> In q [(1, 2); (3, 4)] ->
       cell_key 0 0 p = cell_key 0 0 q
       /\ Rabs (fst p - fst q) < GRID_SIZE
       /\ Rabs (snd p - snd q) < GRID_SIZE.
Proof.
  apply (grid_cell_extent 0 0 [(1, 2); (3, 4)]).
  cbn [grid_cells dict_append map snd].
  assert (E : cell_eqb (cell_key 0 0 (3, 4)) (cell_key 0 0 (1, 2)) = true).
  { apply cell_eqb_eq. unfold cell_key, GRID_SIZE. cbn [fst snd].
    assert (I : forall r, 0 <= r < 1 -> Int_part r = 0%Z).
    { intros r Hr. symmetry. apply Int_part_spec. lra. }
    rewrite !I by lra. reflexivity. }
  rewrite E. cbn [map snd app]. left. reflexivity.
Defined.

End GridCells.

(* ------------------------------------------------------------------ *)
(** ** [sorted] sorts *)
(* ------------------------------------------------------------------ *)

Section SortedMore.

Variables (A : Type) (key : A -> Z).

Local Abbreviation le_key := (fun a b : A => (key a <= key b)%Z).

Lemma insert_sorted_sorted (a : A) (l : list A) :
  StronglySorted le_key l -> StronglySorted le_key (insert_sorted key a l).
Proof.
  induction 1 as [| b r Hr IH Hb]; cbn [insert_sorted].
  - repeat constructor.
  - destruct (key a <=? key b)%Z eqn:E.
    + apply Z.leb_le in E. constructor; [now constructor |].
      constructor; [exact E |].
      rewrite Forall_forall in *. intros x Hx. specialize (Hb x Hx). cbn in *. lia.
    + apply Z.leb_gt in E. constructor; [exact IH |].
      rewrite Forall_forall in *. intros x Hx.
      apply (Permutation_in _ (insert_sorted_perm _ key a r)) in Hx.
      destruct Hx as [<- | Hx]; [cbn; lia | now apply Hb].
Qed.

Lemma sorted_sorted (l : list A) : StronglySorted le_key (sorted key l).
Proof.
  induction l as [| a l IH]; cbn [sorted]; [constructor |].
  now apply insert_sorted_sorted.
Qed.

End SortedMore.

Section SortedPrefix.

Lemma sorted_prefix {A : Type} (R : A -> A -> Prop) (l1 l2 : list A) :
  StronglySorted R (l1 ++ l2) -> StronglySorted R l1.
Proof.
  induction l1 as [| a l1 IH]; cbn [app]; intros H; [constructor |].
  inversion H as [| ? ? Hs Hf]; subst. constructor; [now apply IH |].
  rewrite Forall_forall in *. intros x Hx. apply Hf, in_or_app. now left.
Qed.

End SortedPrefix.

(* ------------------------------------------------------------------ *)
(** ** A cancelled pixel run against the uncancelled one *)
(* ------------------------------------------------------------------ *)

Section PixelCut.
Import ColorSpace Matcher PixelStyle Shape Order Draw.

Variable stop : Oracle.

Lemma cut_short_refl (s : Trace) : cut_short (Next, s) (Next, s) s.
Proof.
  exists [], []. cbn [fst snd]. rewrite !app_nil_r.
  repeat split. now left.
Qed.

Lemma cut_short_prepend (r1 r2 : Flow * Trace) (s pre : Trace) :
  cut_short r1 r2 (s ++ pre) -> cut_short r1 r2 s.
Proof.
  intros (evs & rest & H1 & H2 & H3 & H4).
  exists (pre ++ evs), rest. rewrite <- !app_assoc in *. repeat split; assumption.
Qed.

(** A block followed by the rest of its loop: [f <- a ;; match f with Next
    => k | _ => ret f end]. *)
Lemma cut_short_seq (a a' k k' : M Flow) (s : Trace) :
  cut_short (a s) (a' s) s ->
  (forall s', cut_short (k s') (k' s') s') ->
  cut_short
    (bind a (fun f => match f with Next => k | _ => ret f end) s)
    (bind a' (fun f => match f with Next => k' | _ => ret f end) s) s.
Proof.
  intros (evs & rest & H1 & H2 & H3 & H4) Hk. unfold bind.
  destruct (a s) as [f1 t1], (a' s) as [f2 t2]. cbn [fst snd] in *. subst.
  destruct H4 as [[-> ->] | ->].
  - rewrite app_nil_r. apply cut_short_prepend with (pre := evs). apply Hk.
  - destruct (Hk (s ++ evs ++ rest)) as (evs' & rest' & _ & K2 & K3 & _).
    exists evs, (rest ++ evs' ++ rest'). unfold ret. cbn [fst snd].
    rewrite K2, K3, <- !app_assoc. repeat split. now right.
Qed.

Lemma draw_cell_pixels_step (st : Oracle) (p : Point) (l : list Point)
    (s : Trace) :
  draw_cell_pixels st (p :: l) s
  = if st (length s) then (Return true, s ++ [EPoll])
    else draw_cell_pixels st l
           (s ++ [EPoll; EAct (MoveTo (fst p) (snd p)); EAct Click]).
Proof.
  destruct p as [x y]. cbn [draw_cell_pixels fst snd].
  unfold bind, poll, emit, ret.
  destruct (st (length s)); [reflexivity |].
  now rewrite <- !app_assoc.
Qed.

Lemma draw_cell_pixels_cut (l : list Point) (s : Trace) :
  cut_short (draw_cell_pixels stop l s) (draw_cell_pixels never l s) s.
Proof.
  revert s. induction l as [| p l IH]; intros s.
  - apply cut_short_refl.
  - rewrite draw_cell_pixels_never, draw_cell_pixels_step.
    destruct (stop (length s)).
    + exists [EPoll], (EAct (MoveTo (fst p) (snd p)) :: EAct Click
                        :: flat_map point_events l).
      cbn [fst snd]. repeat split. now right.
    + specialize (IH (s ++ [EPoll; EAct (MoveTo (fst p) (snd p)); EAct Click])).
      rewrite draw_cell_pixels_never in IH.
      apply cut_short_prepend in IH.
      cbn [flat_map point_events app] in *.
      now rewrite <- app_assoc in IH.
Qed.

Lemma draw_cells_cut (cells : list (list Point)) (s : Trace) :
  cut_short (draw_cells stop cells s) (draw_cells never cells s) s.
Proof.
  revert s. induction cells as [| cell cells IH]; intros s;
    cbn [draw_cells].
  - apply cut_short_refl.
  - destruct (order_cell_perm cell) as (l & -> & _).
    apply cut_short_seq; [apply draw_cell_pixels_cut | exact IH].
Qed.

Lemma draw_colors_step (st : Oracle) (x1 y1 : Z) (d : ColorDict) (c : Color)
    (colors : list Color) (s : Trace) :
  draw_colors st x1 y1 d (c :: colors) s
  = if st (length s) then (Return true, s ++ [EPoll])
    else
      bind (draw_cells st
              (map snd (grid_cells x1 y1 (dict_get key_eqb (Some c) d) [])))
        (fun f => match f with
                  | Next => draw_colors st x1 y1 d colors
                  | _ => ret f
                  end)
        (s ++ [EPoll; EAct (SelectColor c)]).
Proof.
  cbn [draw_colors]. unfold bind at 1, poll.
  destruct (st (length s)); [reflexivity |].
  unfold bind at 1, emit. now rewrite <- !app_assoc.
Qed.

Lemma draw_colors_cut (x1 y1 : Z) (d : ColorDict) (colors : list Color)
    (s : Trace) :
  cut_short (draw_colors stop x1 y1 d colors s)
    (draw_colors never x1 y1 d colors s) s.
Proof.
  revert s. induction colors as [| c colors IH]; intros s.
  - apply cut_short_refl.
  - rewrite (draw_colors_step stop).
    destruct (stop (length s)).
    + destruct (draw_colors_never x1 y1 d (c :: colors) s)
        as (groups & -> & Hfst & _).
      destruct groups as [| g groups]; [discriminate |].
      exists [EPoll], (EAct (SelectColor (fst g))
                        :: flat_map point_events (snd g)
                        ++ flat_map group_events groups).
      cbn [fst snd flat_map group_events app]. repeat split. now right.
    + rewrite (draw_colors_step never). cbv beta iota delta [never].
      apply cut_short_prepend
        with (pre := [EPoll; EAct (SelectColor c)]).
      apply cut_short_seq; [apply draw_cells_cut | exact IH].
Qed.

Lemma draw_pixel_style_cut (P : Palette) (x1 y1 : Z) (pw ph : R)
    (img : Image) (s : Trace) :
  cut_short (draw_pixel_style stop P x1 y1 pw ph img s)
    (draw_pixel_style never P x1 y1 pw ph img s) s.
Proof.
  unfold draw_pixel_style, bind.
  destruct (group_pixels_run P x1 y1 pw ph img
              (coords (width img) (height img)) [] s)
    as (d & -> & Hkeys & _).
  destruct (color_keys_some (map fst d)) as (cs0 & Hcs0 & _).
  { intros k Hk. apply Hkeys in Hk. destruct Hk as [[] | (xy & _ & <-)].
    destruct (closest_some P (pixel_color img (fst xy) (snd xy))) as (p & Hp & _).
    exists p. exact Hp. }
  unfold sorted_colors. rewrite Hcs0.
  eapply cut_short_prepend. apply draw_colors_cut.
Qed.

End PixelCut.

(* ------------------------------------------------------------------ *)
(** ** The pixel drawing under any oracle *)
(* ------------------------------------------------------------------ *)

Section PixelDrawing.
Import ColorSpace Matcher PixelStyle Shape Order Draw Samples.
Local Open Scope R_scope.

(** The uncancelled pixel run, with the order of its colours. *)
Lemma pixel_run_never_sorted (P : Palette) (x1 y1 : Z) (pw ph : R)
    (img : Image) (s : Trace) :
  exists groups : list (Color * list Point),
    draw_pixel_style never P x1 y1 pw ph img s
    = (Next,
       (s ++ flat_map (fun xy => snd (find_closest_color P
                                        (pixel_color img (fst xy) (snd xy)) []))
               (visible_pixels img))
       ++ flat_map group_events groups)
    /\ StronglySorted le_sum (map fst groups)
    /\ Permutation (flat_map snd groups)
         (map (center x1 y1 pw ph) (visible_pixels img)).
Proof.
  unfold draw_pixel_style, bind.
  destruct (group_pixels_run P x1 y1 pw ph img
              (coords (width img) (height img)) [] s)
    as (d & Hrun & Hkeys & Hnd & Hperm).
  rewrite Hrun. fold (visible_pixels img) in *. cbn [app map flat_map] in *.
  destruct (color_keys_some (map fst d)) as (cs0 & Hcs0 & Hmap).
  { intros k Hk. apply Hkeys in Hk. destruct Hk as [[] | (xy & _ & <-)].
    destruct (closest_some P (pixel_color img (fst xy) (snd xy))) as (p & Hp & _).
    exists p. exact Hp. }
  unfold sorted_colors. rewrite Hcs0.
  destruct (draw_colors_never x1 y1 d (sorted color_sum cs0)
              (s ++ flat_map (fun xy => snd (find_closest_color P
                                          (pixel_color img (fst xy) (snd xy)) []))
                 (visible_pixels img)))
    as (groups & Hdraw & Hfst & Hpts).
  exists groups. split; [exact Hdraw |].
  split.
  - rewrite Hfst. apply sorted_sorted.
  - rewrite Hpts, (flat_map_perm _ _ _ (sorted_perm _ color_sum cs0)).
    rewrite <- (flat_map_of_map Some (fun k => dict_get key_eqb k d)).
    rewrite Hmap, (dict_get_all _ _ key_eqb key_eqb_eq d) by (apply Hnd; constructor).
    exact Hperm.
Qed.

(** A pixel drawing on an image that is not empty: the actuator calls of
    the uncancelled run, and the run under any oracle as an initial part
    of them. *)
Lemma draw_image_pixel (stop : Oracle) (self : AutoDraw) (img : Image)
    (x1 y1 x2 y2 : Z) :
  processed_image self = Some img ->
  style self = Pixel ->
  canvas self img = (x1, y1, x2, y2) ->
  (0 < width img)%nat -> (0 < height img)%nat ->
  exists (groups : list (Color * list Point)) (rest : list Action),
    actions (snd (draw_image never self []))
    = MoveTo (IZR x1) (IZR y1) :: flat_map group_actions groups
    /\ actions (snd (draw_image never self []))
       = actions (snd (draw_image stop self [])) ++ rest
    /\ fst (draw_image stop self []) = true
    /\ fst (draw_image never self []) = true
    /\ StronglySorted le_sum (map fst groups)
    /\ Permutation (flat_map snd groups)
         (map (center x1 y1 (IZR (x2 - x1) / INR (width img))
                 (IZR (y2 - y1) / INR (height img)))
            (visible_pixels img)).
Proof.
  intros Himg Hstyle Hcanvas Hw Hh.
  rewrite !draw_image_unfold, Himg, Hcanvas.
  replace ((width img =? 0)%nat || (height img =? 0)%nat) with false.
  2:{ symmetry. apply orb_false_iff. split; apply Nat.eqb_neq; lia. }
  rewrite Hstyle. cbv zeta.
  set (pw := IZR (x2 - x1) / INR (width img)).
  set (ph := IZR (y2 - y1) / INR (height img)).
  set (s0 := [] ++ [EAct (MoveTo (IZR x1) (IZR y1))]).
  destruct (draw_pixel_style_cut stop (palette self) x1 y1 pw ph img s0)
    as (evs & rest & H1 & H2 & H3 & H4).
  destruct (pixel_run_never_sorted (palette self) x1 y1 pw ph img s0)
    as (groups & Hrun & Hsorted & Hperm).
  exists groups, (actions rest).
  destruct (draw_pixel_style stop (palette self) x1 y1 pw ph img s0)
    as [f1 t1].
  rewrite Hrun in *. cbn [fst snd] in *. subst t1.
  assert (E1 : handle f1 (s0 ++ evs) = (true, s0 ++ evs))
    by (destruct H4 as [[-> _] | ->]; reflexivity).
  rewrite E1. cbn [handle ret fst snd].
  split; [| split; [| repeat split; assumption]].
  - unfold s0. rewrite !actions_app, actions_matcher_pass, actions_flat_map.
    cbn [actions flat_map app]. f_equal.
    apply flat_map_ext. intros g. apply actions_group_events.
  - rewrite H2, app_assoc, actions_app. reflexivity.
Qed.

(** The first pointer call of a pixel drawing is the move to the corner
    of the canvas. *)
Lemma draw_image_pixel_home (stop : Oracle) (self : AutoDraw) (img : Image)
    (x1 y1 x2 y2 : Z) :
  processed_image self = Some img ->
  style self = Pixel ->
  canvas self img = (x1, y1, x2, y2) ->
  (0 < width img)%nat -> (0 < height img)%nat ->
  In (MoveTo (IZR x1) (IZR y1)) (actions (snd (draw_image stop self []))).
Proof.
  intros Himg Hstyle Hcanvas Hw Hh.
  rewrite draw_image_unfold, Himg, Hcanvas.
  replace ((width img =? 0)%nat || (height img =? 0)%nat) with false.
  2:{ symmetry. apply orb_false_iff. split; apply Nat.eqb_neq; lia. }
  rewrite Hstyle. cbv zeta.
  destruct (draw_pixel_style_cut stop (palette self) x1 y1
              (IZR (x2 - x1) / INR (width img))
              (IZR (y2 - y1) / INR (height img)) img
              ([] ++ [EAct (MoveTo (IZR x1) (IZR y1))]))
    as (evs & rest & H1 & _).
  destruct (draw_pixel_style stop (palette self) x1 y1
              (IZR (x2 - x1) / INR (width img))
              (IZR (y2 - y1) / INR (height img)) img
              ([] ++ [EAct (MoveTo (IZR x1) (IZR y1))])) as [f t].
  cbn [snd] in H1. subst t. rewrite handle_actions, actions_app.
  now left.
Qed.

(** The run of a pixel drawing that has no image or an empty one does
    not depend on the oracle. *)
Lemma draw_image_degenerate (stop : Oracle) (self : AutoDraw) :
  match processed_image self with
  | None => True
  | Some img => width img = 0%nat \/ height img = 0%nat
  end ->
  draw_image stop self [] = draw_image never self []
  /\ actions (snd (draw_image stop self [])) = [].
Proof.
  rewrite !draw_image_unfold.
  destruct (processed_image self) as [img |]; [| now split].
  intros H. destruct (canvas self img) as [[[x1 y1] x2] y2].
  replace ((width img =? 0)%nat || (height img =? 0)%nat) with true.
  2:{ symmetry. apply orb_true_iff. destruct H as [-> | ->]; auto. }
  now split.
Qed.

Lemma image_cases (self : AutoDraw) :
  match processed_image self with
  | None => True
  | Some img => width img = 0%nat \/ height img = 0%nat
  end
  \/ exists img, processed_image self = Some img
                 /\ (0 < width img)%nat /\ (0 < height img)%nat.
Proof.
  destruct (processed_image self) as [img |]; [| now left].
  destruct (width img) eqn:W; [left; now left |].
  destruct (height img) eqn:H; [left; now right |].
  right. exists img. rewrite W, H. repeat split; lia.
Qed.

(** X8.  In pixel style, at whatever moment Esc is pressed, if at all, the actuator calls
    made are an initial part of those of the run in which it is never
    pressed, and [draw_image] answers the same value as that run: the
    cancelled drawing of a drawable image reports success. *)
Theorem pixel_cancel_prefix (stop : Oracle) (self : AutoDraw) :
  style self = Pixel ->
  prefix (actions (snd (draw_image stop self [])))
    (actions (snd (draw_image never self [])))
  /\ fst (draw_image stop self []) = fst (draw_image never self []).
Proof.
  intros Hstyle.
  destruct (image_cases self) as [H | (img & Himg & Hw & Hh)].
  - destruct (draw_image_degenerate stop self H) as [-> _].
    split; [exists []; now rewrite app_nil_r | reflexivity].
  - destruct (canvas self img) as [[[x1 y1] x2] y2] eqn:Hc.
    destruct (draw_image_pixel stop self img x1 y1 x2 y2 Himg Hstyle Hc Hw Hh)
      as (groups & rest & _ & Hpre & Ht & Hn & _).
    split; [exists rest; exact Hpre | congruence].
Qed.

Lemma pixel_cancel_prefix_witness :
  prefix (actions (snd (draw_image (stop_after 2) one_black_pixel [])))
    (actions (snd (draw_image never one_black_pixel [])))
  /\ fst (draw_image (stop_after 2) one_black_pixel [])
     = fst (draw_image never one_black_pixel []).
Proof. apply (pixel_cancel_prefix (stop_after 2) one_black_pixel). reflexivity. Defined.

Lemma selected_colors_app (l1 l2 : list Action) :
  selected_colors (l1 ++ l2) = selected_colors l1 ++ selected_colors l2.
Proof. apply flat_map_app. Qed.

Lemma selected_colors_pairs (pts : list Point) : selected_colors (pairs pts) = [].
Proof. induction pts as [| p pts IH]; [reflexivity | exact IH]. Qed.

Lemma selected_colors_groups (groups : list (Color * list Point)) :
  selected_colors (flat_map group_actions groups) = map fst groups.
Proof.
  induction groups as [| [c pts] groups IH]; [reflexivity |].
  cbn [flat_map map fst]. rewrite selected_colors_app, IH.
  change (selected_colors (group_actions (c, pts)))
    with (c :: selected_colors (pairs pts)).
  now rewrite selected_colors_pairs.
Qed.

Lemma group_pixels_keys (P : Palette) (x1 y1 : Z) (pw ph : R) (img : Image)
    (todo : list (nat * nat)) (d : ColorDict) (s : Trace) :
  map fst (fst (group_pixels P x1 y1 pw ph img todo d s))
  = first_seen (map fst d)
      (map (fun xy => closest P (pixel_color img (fst xy) (snd xy)))
         (filter (visible img) todo)).
Proof.
  revert d s. induction todo as [| [x y] todo IH]; intros d s; [reflexivity |].
  cbn [group_pixels filter]. rewrite visible_spec.
  destruct (is_white (pixel_color img x y)); [apply IH |].
  destruct (is_transparent img x y); [apply IH |].
  cbn [negb andb map first_seen fst snd]. unfold bind.
  rewrite find_closest_color_run, IH.
  now rewrite (dict_append_keys _ _ key_eqb).
Qed.

(** The colours selected by the uncancelled pixel drawing. *)
Lemma draw_image_pixel_colours (self : AutoDraw) (img : Image) :
  processed_image self = Some img ->
  style self = Pixel ->
  (0 < width img)%nat -> (0 < height img)%nat ->
  exists cs : list Color,
    map Some cs
    = first_seen []
        (map (fun xy => closest (palette self)
                          (pixel_color img (fst xy) (snd xy)))
           (visible_pixels img))
    /\ selected_colors (actions (snd (draw_image never self [])))
       = sorted color_sum cs.
Proof.
  intros Himg Hstyle Hw Hh.
  rewrite draw_image_unfold, Himg.
  destruct (canvas self img) as [[[x1 y1] x2] y2].
  replace ((width img =? 0)%nat || (height img =? 0)%nat) with false.
  2:{ symmetry. apply orb_false_iff. split; apply Nat.eqb_neq; lia. }
  rewrite Hstyle. cbv zeta.
  set (pw := (IZR (x2 - x1) / INR (width img))%R).
  set (ph := (IZR (y2 - y1) / INR (height img))%R).
  set (s0 := [] ++ [EAct (MoveTo (IZR x1) (IZR y1))]).
  unfold draw_pixel_style, bind.
  pose proof (group_pixels_keys (palette self) x1 y1 pw ph img
                (coords (width img) (height img)) [] s0) as Hkeys.
  destruct (group_pixels_run (palette self) x1 y1 pw ph img
              (coords (width img) (height img)) [] s0)
    as (d & Hrun & Hin & _).
  rewrite Hrun in Hkeys |- *. cbn [fst map] in Hkeys.
  fold (visible_pixels img) in *.
  destruct (color_keys_some (map fst d)) as (cs & Hcs & Hmap).
  { intros k Hk. apply Hin in Hk. destruct Hk as [[] | (xy & _ & <-)].
    destruct (closest_some (palette self) (pixel_color img (fst xy) (snd xy)))
      as (p & Hp & _).
    exists p. exact Hp. }
  exists cs. split; [now rewrite Hmap |].
  unfold sorted_colors. rewrite Hcs.
  destruct (draw_colors_never x1 y1 d (sorted color_sum cs)
              (s0 ++ flat_map (fun xy => snd (find_closest_color (palette self)
                                 (pixel_color img (fst xy) (snd xy)) []))
                       (visible_pixels img)))
    as (groups & -> & Hfst & _).
  cbn [handle ret snd]. unfold s0.
  rewrite !actions_app, actions_matcher_pass, actions_flat_map.
  cbn [actions flat_map app].
  change (selected_colors
            (MoveTo (IZR x1) (IZR y1)
             :: flat_map (fun a => actions (group_events a)) groups))
    with (selected_colors
            (flat_map (fun a => actions (group_events a)) groups)).
  rewrite (flat_map_ext _ group_actions actions_group_events).
  now rewrite selected_colors_groups.
Qed.


(** The keys of the two-tone sample, in the order of the scan. *)
Lemma two_tone_keys :
  first_seen []
    (map (fun xy => closest [(200, 200, 200); (100, 100, 0)]%Z
                      (pixel_color two_tone_image (fst xy) (snd xy)))
       (visible_pixels two_tone_image))
  = [Some (200, 200, 200)%Z; Some (100, 100, 0)%Z].
Proof.
  change (visible_pixels two_tone_image) with [(0, 0); (1, 0)]%nat.
  cbn [map fst snd].
  change (pixel_color two_tone_image 0 0) with (200, 200, 200)%Z.
  change (pixel_color two_tone_image 1 0) with (100, 100, 0)%Z.
  rewrite !closest_exact by (cbn; auto).
  reflexivity.
Qed.

(** The two-tone sample meets light grey first and selects olive first. *)
Lemma two_tone_colours :
  selected_colors (actions (snd (draw_image never two_tone [])))
  = [(100, 100, 0); (200, 200, 200)]%Z.
Proof.
  destruct (draw_image_pixel_colours two_tone two_tone_image)
    as (cs & Hcs & Hsel); try reflexivity; try (cbn; lia).
  pose proof (eq_trans Hcs two_tone_keys) as Hk.
  destruct cs as [| c1 [| c2 [| c3 cs]]]; try discriminate Hk.
  injection Hk as -> ->. rewrite Hsel. reflexivity.
Qed.

(** X5.  In pixel style with a palette that is not empty, the colours
    are selected in ascending order of the sum of their channels, darkest
    first, at whatever moment Esc is pressed, if at all.  The colours
    are then entries of the palette, whose channels are plain integers. *)
Theorem colors_darkest_first (stop : Oracle) (self : AutoDraw) :
  palette self <> [] ->
  style self = Pixel ->
  StronglySorted le_sum
    (selected_colors (actions (snd (draw_image stop self [])))).
Proof.
  intros _ Hstyle.
  destruct (image_cases self) as [H | (img & Himg & Hw & Hh)].
  - destruct (draw_image_degenerate stop self H) as [_ ->]. constructor.
  - destruct (canvas self img) as [[[x1 y1] x2] y2] eqn:Hc.
    destruct (draw_image_pixel stop self img x1 y1 x2 y2 Himg Hstyle Hc Hw Hh)
      as (groups & rest & Hact & Hpre & _ & _ & Hsorted & _).
    apply (sorted_prefix le_sum _ (selected_colors rest)).
    rewrite <- selected_colors_app, <- Hpre, Hact.
    change (selected_colors (MoveTo (IZR x1) (IZR y1)
                             :: flat_map group_actions groups))
      with (selected_colors (flat_map group_actions groups)).
    now rewrite selected_colors_groups.
Qed.

Lemma colors_darkest_first_witness :
  selected_colors (actions (snd (draw_image never two_tone [])))
  = [(100, 100, 0); (200, 200, 200)]%Z
  /\ StronglySorted le_sum
       (selected_colors (actions (snd (draw_image never two_tone [])))).
Proof.
  split; [exact two_tone_colours |].
  apply (colors_darkest_first never two_tone); [discriminate | reflexivity].
Defined.

Lemma in_pairs (x y : R) (pts : list Point) :
  In (MoveTo x y) (pairs pts) -> In (x, y) pts.
Proof.
  induction pts as [| [px py] pts IH]; [intros [] |].
  rewrite pairs_cons. cbn [fst snd]. intros [H | [H | H]].
  - injection H as -> ->. now left.
  - discriminate.
  - right. now apply IH.
Qed.

Lemma in_groups (x y : R) (groups : list (Color * list Point)) :
  In (MoveTo x y) (flat_map group_actions groups) ->
  In (x, y) (flat_map snd groups).
Proof.
  induction groups as [| [c pts] groups IH]; [intros [] |].
  cbn [flat_map group_actions fst snd]. intros [H | H]; [discriminate |].
  apply in_or_app. apply in_app_or in H. destruct H as [H | H].
  - left. now apply in_pairs.
  - right. now apply IH.
Qed.

(** The centre of a pixel lies within the canvas. *)
Lemma center_inside (x1 x2 : Z) (w x : nat) :
  (x1 <= x2)%Z -> (x < w)%nat ->
  IZR x1 <= IZR x1 + INR x * (IZR (x2 - x1) / INR w)
            + IZR (x2 - x1) / INR w / 2 <= IZR x2.
Proof.
  intros Hle Hx.
  assert (Hw : 0 < INR w) by (apply lt_0_INR; lia).
  assert (Hd : 0 <= IZR (x2 - x1)) by (apply IZR_le; lia).
  assert (Hx' : INR x + 1 <= INR w).
  { rewrite <- S_INR. apply le_INR. lia. }
  assert (H0 : 0 <= INR x) by apply pos_INR.
  set (pw := IZR (x2 - x1) / INR w).
  assert (Hpw : 0 <= pw) by (apply Rmult_le_pos; [lra | left; now apply Rinv_0_lt_compat]).
  assert (E : pw * INR w = IZR x2 - IZR x1).
  { unfold pw. rewrite minus_IZR. field. lra. }
  split; [nra |]. nra.
Qed.

Lemma in_pairs_kind (a : Action) (pts : list Point) :
  In a (pairs pts) -> a = Click \/ exists x y, a = MoveTo x y.
Proof.
  induction pts as [| [px py] pts IH]; [intros [] |].
  rewrite pairs_cons. intros [H | [H | H]].
  - right. exists px, py. now symmetry.
  - left. now symmetry.
  - now apply IH.
Qed.

(** A call of a colour group is the selection of its colour, a click
    in place, or a move to one of its points. *)
Lemma in_group_actions (a : Action) (groups : list (Color * list Point)) :
  In a (flat_map group_actions groups) ->
  (exists c, a = SelectColor c) \/ a = Click
  \/ exists x y, a = MoveTo x y /\ In (x, y) (flat_map snd groups).
Proof.
  intros Hin.
  assert (K : (exists c, a = SelectColor c) \/ a = Click
              \/ exists x y, a = MoveTo x y).
  { induction groups as [| [c pts] groups IH]; [destruct Hin |].
    cbn [flat_map] in Hin. apply in_app_or in Hin.
    destruct Hin as [[H | H] | H].
    - left. exists c. now symmetry.
    - right. now apply (in_pairs_kind a pts).
    - now apply IH. }
  destruct K as [K | [K | (x & y & ->)]]; [now left | right; now left |].
  right. right. exists x, y. split; [reflexivity | now apply in_groups].
Qed.

(** The calls of a pixel drawing: [set_target_color], a click in place,
    or a [moveTo] that goes to a point of the canvas. *)
Lemma draw_image_pixel_inside (stop : Oracle) (self : AutoDraw)
    (img : Image) (x1 y1 x2 y2 : Z) :
  processed_image self = Some img ->
  style self = Pixel ->
  canvas self img = (x1, y1, x2, y2) ->
  (x1 <= x2)%Z -> (y1 <= y2)%Z ->
  forall a,
    In a (actions (snd (draw_image stop self []))) ->
    (exists c, a = SelectColor c) \/ a = Click
    \/ exists x y, a = MoveTo x y
                   /\ IZR x1 <= x <= IZR x2 /\ IZR y1 <= y <= IZR y2.
Proof.
  intros Himg Hstyle Hc Hx Hy a Hin.
  destruct (image_cases self) as [H | (img' & Himg' & Hw & Hh)].
  - destruct (draw_image_degenerate stop self H) as [_ E].
    rewrite E in Hin. destruct Hin.
  - rewrite Himg in Himg'. injection Himg' as <-.
    destruct (draw_image_pixel stop self img x1 y1 x2 y2 Himg Hstyle Hc Hw Hh)
      as (groups & rest & Hact & Hpre & _ & _ & _ & Hperm).
    assert (Hin' : In a (actions (snd (draw_image never self [])))).
    { rewrite Hpre. apply in_or_app. now left. }
    rewrite Hact in Hin'. destruct Hin' as [E | Hin'].
    + right. right. exists (IZR x1), (IZR y1). split; [now symmetry |].
      apply IZR_le in Hx, Hy. lra.
    + apply in_group_actions in Hin'.
      destruct Hin' as [Hs | [Hk | (x & y & -> & Hin')]];
        [now left | right; now left |].
      right. right. exists x, y. split; [reflexivity |].
      apply (Permutation_in _ Hperm) in Hin'.
      apply in_map_iff in Hin'. destruct Hin' as ([px py] & E & Hvis).
      unfold visible_pixels in Hvis. apply filter_In in Hvis.
      destruct Hvis as [Hvis _]. apply in_coords in Hvis.
      unfold center in E. injection E as <- <-.
      split; apply center_inside; lia.
Qed.

(** X9.  In pixel style the drawing loop itself never takes the pointer
    off the canvas.  Its calls are of three kinds: [set_target_color],
    a click in place, and [moveTo]; when the corners of the canvas are in
    order, every [moveTo] goes to a point of the closed rectangle
    [x1, x2] x [y1, y2].  What [set_target_color] does with the pointer
    (it clicks on the palette of the target application, which lies
    where that application puts it) is inside [SelectColor] and is not
    bounded by the canvas. *)
Theorem pixel_moves_inside_canvas (stop : Oracle) (self : AutoDraw)
    (img : Image) (x1 y1 x2 y2 : Z) :
  processed_image self = Some img ->
  style self = Pixel ->
  canvas self img = (x1, y1, x2, y2) ->
  (x1 <= x2)%Z -> (y1 <= y2)%Z ->
  forall a,
    In a (actions (snd (draw_image stop self []))) ->
    (exists c, a = SelectColor c) \/ a = Click
    \/ exists x y, a = MoveTo x y
                   /\ IZR x1 <= x <= IZR x2 /\ IZR y1 <= y <= IZR y2.
Proof. apply draw_image_pixel_inside. Qed.

Lemma pixel_moves_inside_canvas_witness :
  actions (snd (draw_image never one_black_pixel []))
  = [MoveTo 0 0; SelectColor (0, 0, 0)%Z; MoveTo (1 / 2) (1 / 2); Click]
  /\ IZR 0 <= 1 / 2 <= IZR 1 /\ IZR 0 <= 1 / 2 <= IZR 1.
Proof.
  destruct one_black_pixel_run as (x & y & Hrun & -> & ->).
  split; [rewrite Hrun; reflexivity |].
  destruct (pixel_moves_inside_canvas never one_black_pixel
              (uniform ModeRGB 1 1 (0, 0, 0, 255)%Z) 0 0 1 1
              eq_refl eq_refl eq_refl ltac:(lia) ltac:(lia)
              (MoveTo (1 / 2) (1 / 2)))
    as [(c & E) | [E | (x & y & E & Hb)]].
  - rewrite Hrun. cbn. right. right. now left.
  - discriminate E.
  - discriminate E.
  - injection E as -> ->. exact Hb.
Defined.

End PixelDrawing.

(* ------------------------------------------------------------------ *)
(** ** The canvas *)
(* ------------------------------------------------------------------ *)

Section Canvas.
Import PixelStyle Shape Order Draw Selection Samples.
Local Open Scope R_scope.

(** X10.  When no canvas is set, the canvas has the size of the image
    and is centred on the screen up to one pixel of rounding; a pixel of
    the image is then one pixel of the screen and pixel [(x, y)] is drawn
    at [(x1 + x + 1/2, y1 + y + 1/2)]. *)
Theorem default_canvas_centered (self : AutoDraw) (img : Image) :
  canvas_area self = None ->
  (0 < width img)%nat -> (0 < height img)%nat ->
  let w := Z.of_nat (width img) in
  let h := Z.of_nat (height img) in
  let '(screen_width, screen_height) := screen_size self in
  exists x1 y1 : Z,
    canvas self img = (x1, y1, x1 + w, y1 + h)%Z
    /\ (2 * x1 <= screen_width - w <= 2 * x1 + 1)%Z
    /\ (2 * y1 <= screen_height - h <= 2 * y1 + 1)%Z
    /\ forall x y : nat,
         center x1 y1 (IZR (x1 + w - x1) / INR (width img))
           (IZR (y1 + h - y1) / INR (height img)) (x, y)
         = (IZR x1 + INR x + 1 / 2, IZR y1 + INR y + 1 / 2).
Proof.
  intros Hnone Hw Hh w h. unfold canvas. rewrite Hnone.
  destruct (screen_size self) as [sw sh].
  exists ((sw - w) / 2)%Z, ((sh - h) / 2)%Z.
  split; [reflexivity |].
  pose proof (Z.div_mod (sw - w) 2 ltac:(lia)) as Dx.
  pose proof (Z.mod_pos_bound (sw - w) 2 ltac:(lia)) as Bx.
  pose proof (Z.div_mod (sh - h) 2 ltac:(lia)) as Dy.
  pose proof (Z.mod_pos_bound (sh - h) 2 ltac:(lia)) as By.
  split; [lia | split; [lia |]].
  intros x y. unfold center.
  assert (Ew : IZR ((sw - w) / 2 + w - (sw - w) / 2) / INR (width img) = 1).
  { replace ((sw - w) / 2 + w - (sw - w) / 2)%Z with w by lia.
    unfold w. rewrite <- INR_IZR_INZ. field.
    apply not_0_INR. lia. }
  assert (Eh : IZR ((sh - h) / 2 + h - (sh - h) / 2) / INR (height img) = 1).
  { replace ((sh - h) / 2 + h - (sh - h) / 2)%Z with h by lia.
    unfold h. rewrite <- INR_IZR_INZ. field.
    apply not_0_INR. lia. }
  rewrite Ew, Eh. f_equal; lra.
Qed.

Lemma default_canvas_centered_witness :
  exists x1 y1 : Z,
    canvas (mkAutoDraw None [] Pixel None [] (1920, 1080)%Z)
      (uniform ModeRGB 100 50 (0, 0, 0, 255)%Z)
    = (x1, y1, x1 + 100, y1 + 50)%Z
    /\ (2 * x1 <= 1920 - 100 <= 2 * x1 + 1)%Z
    /\ (2 * y1 <= 1080 - 50 <= 2 * y1 + 1)%Z
    /\ forall x y : nat,
         center x1 y1 (IZR (x1 + 100 - x1) / INR 100)
           (IZR (y1 + 50 - y1) / INR 50) (x, y)
         = (IZR x1 + INR x + 1 / 2, IZR y1 + INR y + 1 / 2).
Proof.
  apply (default_canvas_centered
           (mkAutoDraw None [] Pixel None [] (1920, 1080)%Z)
           (uniform ModeRGB 100 50 (0, 0, 0, 255)%Z)).
  - reflexivity.
  - cbn. lia.
  - cbn. lia.
Defined.

Lemma fold_on_click_full (a b : Z * Z) (more : list (Z * Z)) :
  fold_left on_click more [a; b] = [a; b].
Proof. induction more as [| c more IH]; [reflexivity | exact IH]. Qed.

Lemma select_two (c0 c1 : Z * Z) (more : list (Z * Z)) :
  select_drawing_area (c0 :: c1 :: more)
  = Some (Z.min (fst c0) (fst c1), Z.min (snd c0) (snd c1),
          Z.max (fst c0) (fst c1), Z.max (snd c0) (snd c1)).
Proof.
  unfold select_drawing_area. cbn [fold_left on_click length app].
  rewrite fold_on_click_full.
  destruct c0 as [xa ya], c1 as [xb yb]. cbn [process_coordinates fst snd].
  destruct (Z.gtb_spec xa xb), (Z.gtb_spec ya yb); do 4 f_equal; lia.
Qed.

(** X22.  [select_drawing_area] answers no area unless two clicks were
    made; otherwise it answers the rectangle spanned by the first two
    clicks, corners in order, whatever the order of the clicks, and later
    clicks are ignored.  The drawing loop of a pixel drawing on a canvas
    selected this way calls [set_target_color], clicks in place and
    moves the pointer, and each of its moves goes to a point of that
    rectangle.  The clicks that [set_target_color] makes on the palette
    are inside [SelectColor] and are not bounded by the rectangle. *)
Theorem selected_area_normal_form :
  select_drawing_area [] = None
  /\ (forall c0, select_drawing_area [c0] = None)
  /\ (forall c0 c1 more,
        select_drawing_area (c0 :: c1 :: more)
        = Some (Z.min (fst c0) (fst c1), Z.min (snd c0) (snd c1),
                Z.max (fst c0) (fst c1), Z.max (snd c0) (snd c1)))
  /\ (forall stop self img c0 c1 more,
        processed_image self = Some img ->
        style self = Pixel ->
        canvas_area self = select_drawing_area (c0 :: c1 :: more) ->
        forall a,
          In a (actions (snd (draw_image stop self []))) ->
          (exists c, a = SelectColor c) \/ a = Click
          \/ exists x y,
               a = MoveTo x y
               /\ IZR (Z.min (fst c0) (fst c1)) <= x
                  <= IZR (Z.max (fst c0) (fst c1))
               /\ IZR (Z.min (snd c0) (snd c1)) <= y
                  <= IZR (Z.max (snd c0) (snd c1))).
Proof.
  split; [reflexivity |].
  split; [intros [x y]; reflexivity |].
  split; [apply select_two |].
  intros stop self img c0 c1 more Himg Hstyle Harea.
  rewrite select_two in Harea.
  apply (draw_image_pixel_inside stop self img); auto; try lia.
  unfold canvas. now rewrite Harea.
Qed.

Lemma selected_area_normal_form_witness :
  select_drawing_area [(30, 5); (10, 20)]%Z = Some (10, 5, 30, 20)%Z
  /\ IZR (Z.min 30 10) <= IZR 10 <= IZR (Z.max 30 10)
  /\ IZR (Z.min 5 20) <= IZR 5 <= IZR (Z.max 5 20).
Proof.
  destruct selected_area_normal_form as (_ & _ & Harea & Hdraw).
  split; [exact (Harea (30, 5)%Z (10, 20)%Z []) |].
  destruct (Hdraw never
              (mkAutoDraw (Some (uniform ModeRGB 1 1 (0, 0, 0, 255)%Z)) []
                 Pixel (select_drawing_area [(30, 5); (10, 20)]%Z) []
                 (1920, 1080)%Z)
              (uniform ModeRGB 1 1 (0, 0, 0, 255)%Z) (30, 5)%Z (10, 20)%Z []
              eq_refl eq_refl eq_refl (MoveTo (IZR 10) (IZR 5)))
    as [(c & E) | [E | (x & y & E & Hb)]].
  - apply (draw_image_pixel_home never _
             (uniform ModeRGB 1 1 (0, 0, 0, 255)%Z) 10 5 30 20);
      try reflexivity; cbn; lia.
  - discriminate E.
  - discriminate E.
  - injection E as -> ->. exact Hb.
Defined.

End Canvas.

(* ------------------------------------------------------------------ *)
(** ** [skip_white] and the pixel drawing *)
(* ------------------------------------------------------------------ *)

Section SkipWhite.
Import Matcher PixelStyle Shape Order Draw Preprocess Samples.

Lemma pixel_color_processed (b : bool) (img : Image) (x y : nat) :
  pixel_color (process_image b img) x y = pixel_color img x y.
Proof.
  unfold process_image, pixel_color, convert_rgba, convert_rgb, mark_white.
  destruct b, (mode img) eqn:Hm; cbn [mode px]; rewrite ?Hm; cbn [mode px];
    destruct (px img x y) as [[[r g] bl] a];
    try destruct (near_white _ _); reflexivity.
Qed.

Lemma visible_processed (b : bool) (img : Image) (x y : nat) :
  visible (process_image b img) (x, y)
  = negb (is_white (pixel_color img x y)).
Proof.
  rewrite visible_spec, pixel_color_processed.
  destruct (is_white (pixel_color img x y)) eqn:W; [reflexivity |].
  cbn [negb andb]. unfold is_white, pixel_color in W.
  unfold process_image, is_transparent, convert_rgba, convert_rgb, mark_white.
  destruct b, (mode img) eqn:Hm; cbn [mode px]; rewrite ?Hm; cbn [mode px];
    try reflexivity;
    destruct (px img x y) as [[[r g] bl] a];
    unfold near_white, gui_white_threshold; unfold white_threshold in W;
    rewrite W; reflexivity.
Qed.

Lemma group_pixels_ext (P : Palette) (x1 y1 : Z) (pw ph : R)
    (img img' : Image) (todo : list (nat * nat)) (d : ColorDict) (s : Trace) :
  (forall x y, In (x, y) todo ->
     pixel_color img x y = pixel_color img' x y
     /\ is_transparent img x y
        || is_white (pixel_color img x y)
        = is_transparent img' x y || is_white (pixel_color img' x y)) ->
  group_pixels P x1 y1 pw ph img todo d s
  = group_pixels P x1 y1 pw ph img' todo d s.
Proof.
  revert d s. induction todo as [| [x y] todo IH]; intros d s H;
    [reflexivity |].
  cbn [group_pixels].
  destruct (H x y (or_introl eq_refl)) as [Hc Ht].
  assert (IH' : forall d s, group_pixels P x1 y1 pw ph img todo d s
                            = group_pixels P x1 y1 pw ph img' todo d s).
  { intros d' s'. apply IH. intros x' y' Hin. apply H. now right. }
  rewrite <- Hc in *.
  destruct (is_white (pixel_color img x y)).
  - apply IH'.
  - rewrite !orb_false_r in Ht. rewrite <- Ht.
    destruct (is_transparent img x y); [apply IH' |].
    unfold bind. destruct (find_closest_color P (pixel_color img x y) s).
    apply IH'.
Qed.

(** X11.  [process_image] keeps the colour of every pixel, and a pixel of
    its result is drawn in pixel style exactly when some channel of its
    colour is below 245, with or without [skip_white]; the alpha channel
    of the source is dropped.  Hence the pixel drawing of the processed
    image is the same, event by event, whether [skip_white] is set or
    not. *)
Theorem skip_white_irrelevant_to_pixel_style :
  (forall b img x y,
     pixel_color (process_image b img) x y = pixel_color img x y
     /\ visible (process_image b img) (x, y)
        = negb (is_white (pixel_color img x y)))
  /\ (forall stop self img s,
        style self = Pixel ->
        draw_image stop (set_processed_image self (process_image true img)) s
        = draw_image stop (set_processed_image self (process_image false img)) s).
Proof.
  split.
  - intros b img x y. split; [apply pixel_color_processed | apply visible_processed].
  - intros stop self img s Hstyle.
    rewrite !draw_image_unfold.
    unfold set_processed_image. cbn [processed_image style palette].
    assert (Hc : canvas (mkAutoDraw (Some (process_image true img)) (palette self)
                           (style self) (canvas_area self) (color_positions self)
                           (screen_size self)) (process_image true img)
                 = canvas (mkAutoDraw (Some (process_image false img)) (palette self)
                           (style self) (canvas_area self) (color_positions self)
                           (screen_size self)) (process_image false img)).
    { unfold canvas. cbn [canvas_area screen_size].
      destruct (canvas_area self); [reflexivity |].
      destruct (mode img) eqn:Hm;
        unfold process_image, convert_rgba, convert_rgb, mark_white;
        rewrite ?Hm; cbn [mode width height]; rewrite ?Hm;
        cbn [width height]; reflexivity. }
    rewrite Hc.
    destruct (canvas _ (process_image false img)) as [[[x1 y1] x2] y2].
    assert (Hw : width (process_image true img) = width (process_image false img)).
    { destruct (mode img) eqn:Hm;
        unfold process_image, convert_rgba, convert_rgb, mark_white;
        rewrite ?Hm; cbn [mode width height]; rewrite ?Hm; reflexivity. }
    assert (Hh : height (process_image true img) = height (process_image false img)).
    { destruct (mode img) eqn:Hm;
        unfold process_image, convert_rgba, convert_rgb, mark_white;
        rewrite ?Hm; cbn [mode width height]; rewrite ?Hm; reflexivity. }
    rewrite Hw, Hh.
    destruct ((width (process_image false img) =? 0)%nat
              || (height (process_image false img) =? 0)%nat); [reflexivity |].
    rewrite Hstyle. unfold draw_pixel_style, bind.
    rewrite Hw, Hh.
    rewrite (group_pixels_ext (palette self) x1 y1 _ _
               (process_image true img) (process_image false img)).
    + reflexivity.
    + intros x y _. rewrite !pixel_color_processed. split; [reflexivity |].
      pose proof (visible_processed true img x y) as V1.
      pose proof (visible_processed false img x y) as V2.
      rewrite visible_spec, pixel_color_processed in V1, V2.
      destruct (is_white (pixel_color img x y)); [now rewrite !orb_true_r |].
      cbn [negb andb] in V1, V2. rewrite !orb_false_r.
      destruct (is_transparent (process_image true img) x y),
               (is_transparent (process_image false img) x y);
        cbn in V1, V2; congruence.
Qed.

Lemma skip_white_irrelevant_to_pixel_style_witness :
  draw_image never (set_processed_image one_black_pixel
                      (process_image true white_page)) []
  = draw_image never (set_processed_image one_black_pixel
                        (process_image false white_page)) [].
Proof.
  apply (proj2 skip_white_irrelevant_to_pixel_style never one_black_pixel
           white_page []).
  reflexivity.
Defined.

End SkipWhite.

(* ------------------------------------------------------------------ *)
(** ** The segments traced by the outline style *)
(* ------------------------------------------------------------------ *)

Section SegmentShape.
Import Matcher OutlineStyle OutlineShape Order.

Variable stop : Oracle.

Lemma find_next_adjacent (outline visited : list Pt) (current : Pt)
    (dirs : list (Z * Z)) (n : Pt) :
  find_next outline visited current dirs = Some n ->
  In ((fst n - fst current)%Z, (snd n - snd current)%Z) dirs.
Proof.
  induction dirs as [| [dx dy] dirs IH]; cbn [find_next]; [discriminate |].
  destruct (mem _ outline && negb (mem _ visited)).
  - intros H. injection H as <-. cbn [fst snd]. left. f_equal; lia.
  - intros H. right. now apply IH.
Qed.

(** What one run of the inner loop adds to the segment and to the
    visited set. *)
Lemma extend_shape (fuel : nat) (outline visited segment : list Pt)
    (current : Pt) (s : Trace) (seg' vis' : list Pt) :
  fst (extend stop fuel outline visited segment current s) = Some (seg', vis') ->
  exists ext,
    seg' = segment ++ ext
    /\ vis' = rev ext ++ visited
    /\ NoDup ext
    /\ (forall p, In p ext -> In p outline /\ ~ In p visited)
    /\ chain (current :: ext).
Proof.
  revert visited segment current s.
  induction fuel as [| fuel IH]; intros visited segment current s;
    [discriminate |].
  rewrite extend_step.
  assert (Hstay : Some (segment, visited) = Some (seg', vis') ->
                  exists ext,
                    seg' = segment ++ ext /\ vis' = rev ext ++ visited
                    /\ NoDup ext
                    /\ (forall p, In p ext -> In p outline /\ ~ In p visited)
                    /\ chain (current :: ext)).
  { intros H. injection H as <- <-. exists []. rewrite app_nil_r.
    split; [reflexivity | split; [reflexivity |]].
    split; [constructor | split; [intros p [] | exact I]]. }
  destruct (stop (length s)); [exact Hstay |].
  destruct (find_next outline visited current directions) as [n |] eqn:En;
    [| exact Hstay].
  intros H. apply IH in H.
  destruct H as (ext & -> & -> & Hnd & Hin & Hch).
  destruct (find_next_spec _ _ _ _ _ En) as [Hno Hnv].
  exists (n :: ext). rewrite <- !app_assoc. cbn [rev app].
  rewrite <- app_assoc. cbn [app].
  split; [reflexivity | split; [reflexivity |]].
  split; [| split].
  - constructor; [| exact Hnd].
    intros Hn. apply Hin in Hn. destruct Hn as [_ Hn]. apply Hn. now left.
  - intros p [<- | Hp]; [now split |].
    destruct (Hin p Hp) as [H1 H2]. split; [exact H1 |].
    intros H3. apply H2. now right.
  - cbn [chain]. split; [| exact Hch].
    apply (find_next_adjacent _ _ _ _ _ En).
Qed.

Lemma trace_segments_shape (outline todo visited : list Pt)
    (segs : list (list Pt)) (s : Trace) (r : list (list Pt)) :
  incl todo outline ->
  NoDup (concat segs) ->
  incl (concat segs) visited ->
  Forall (well_formed outline) segs ->
  fst (trace_segments stop outline todo visited segs s) = Some r ->
  NoDup (concat r) /\ Forall (well_formed outline) r.
Proof.
  revert visited segs s.
  induction todo as [| p todo IH]; intros visited segs s Htodo Hnd Hsub Hwf.
  - cbn. intros H. injection H as <-. now split.
  - assert (Htodo' : incl todo outline)
      by (intros q Hq; apply Htodo; now right).
    rewrite trace_segments_step.
    destruct (mem p visited) eqn:Hmem; [now apply IH |].
    destruct (stop (length s)); [now apply IH |].
    destruct (extend stop (S (length outline)) outline (p :: visited) [p] p
                (s ++ [EPoll])) as [r0 s1] eqn:E.
    destruct r0 as [[segment visited'] |]; [| discriminate].
    destruct (extend_shape (S (length outline)) outline (p :: visited) [p] p
                (s ++ [EPoll]) segment visited')
      as (ext & -> & -> & Hne & Hin & Hch); [now rewrite E |].
    assert (Hp : ~ In p visited).
    { intros H. apply mem_In in H. congruence. }
    assert (Hsub' : incl (concat segs) (rev ext ++ p :: visited)).
    { intros q Hq. apply in_or_app. right. right. now apply Hsub. }
    apply IH; try assumption.
    + destruct (1 <? length ([p] ++ ext))%nat; [| assumption].
      rewrite concat_app. cbn [concat]. rewrite app_nil_r.
      apply NoDup_app; [assumption | |].
      * cbn [app]. constructor; [| exact Hne].
        intros H. apply Hin in H. destruct H as [_ H]. apply H. now left.
      * intros q Hq [<- | Hq'].
        -- apply Hp. now apply Hsub.
        -- apply Hin in Hq'. destruct Hq' as [_ Hq']. apply Hq'. right.
           now apply Hsub.
    + destruct (1 <? length ([p] ++ ext))%nat; [| assumption].
      rewrite concat_app. cbn [concat]. rewrite app_nil_r.
      intros q Hq. apply in_app_or in Hq. destruct Hq as [Hq | Hq].
      * now apply Hsub'.
      * apply in_or_app. cbn [app] in Hq. destruct Hq as [<- | Hq].
        -- right. now left.
        -- left. now apply in_rev in Hq.
    + destruct (1 <? length ([p] ++ ext))%nat eqn:Hlen; [| assumption].
      apply Forall_app. split; [assumption |]. constructor; [| constructor].
      apply Nat.ltb_lt in Hlen. split; [lia | split; [exact Hch |]].
      intros q [<- | Hq].
      * apply Htodo. now left.
      * now apply Hin.
Qed.

(** Tracing succeeds, and what it traces is well formed. *)
Lemma trace_segments_well_formed (outline : list Pt) (s : Trace) :
  exists segs,
    fst (trace_segments stop outline outline [] [] s) = Some segs
    /\ Forall (well_formed outline) segs
    /\ NoDup (concat segs)
    /\ (length (concat segs) <= length outline)%nat.
Proof.
  destruct (trace_segments_total stop outline outline [] [] s) as (segs & H).
  exists segs. split; [exact H |].
  destruct (trace_segments_shape outline outline [] [] s segs) as [Hnd Hwf];
    try assumption.
  - apply incl_refl.
  - constructor.
  - intros q [].
  - constructor.
  - split; [exact Hwf | split; [exact Hnd |]].
    apply NoDup_incl_length; [exact Hnd |].
    intros q Hq. apply in_concat in Hq. destruct Hq as (seg & Hseg & Hq).
    rewrite Forall_forall in Hwf. destruct (Hwf seg Hseg) as (_ & _ & Hi).
    now apply Hi.
Qed.

(** X12.  Tracing the outline always succeeds, at whatever moment Esc is pressed, if at all.
    Every segment it keeps has at least two pixels, all of them outline
    pixels, each one of the eight neighbours of the pixel before it; no
    pixel occurs twice, within a segment or in two segments, so the
    segments hold at most as many pixels as the outline. *)
Theorem outline_segments_well_formed (outline : list Pt) (s : Trace) :
  exists segs,
    fst (trace_segments stop outline outline [] [] s) = Some segs
    /\ Forall (well_formed outline) segs
    /\ NoDup (concat segs)
    /\ (length (concat segs) <= length outline)%nat.
Proof. apply trace_segments_well_formed. Qed.

End SegmentShape.

(* ------------------------------------------------------------------ *)
(** ** The pointer of an outline drawing *)
(* ------------------------------------------------------------------ *)

Section OutlinePointer.
Import Matcher OutlineStyle OutlineShape Order Draw Samples.

Lemma find_outline_pixels_grey (img : Image) (todo : list (nat * nat))
    (acc : list Pt) :
  mode img = ModeL ->
  find_outline_pixels img todo acc = match todo with [] => Some acc | _ => None end.
Proof.
  intros Hm. destruct todo as [| [x y] todo]; [reflexivity |].
  cbn [find_outline_pixels]. unfold pixel_sum. rewrite Hm.
  now destruct (px img x y) as [[[r g] b] a].
Qed.

(** The outline pixels are the dark pixels of the image. *)
Lemma outline_pixels_dark (img : Image) (L : list Pt) (p : Pt) :
  find_outline_pixels img (coords (width img) (height img)) [] = Some L ->
  In p L ->
  exists x y, (x < width img)%nat /\ (y < height img)%nat
              /\ is_dark img x y = true /\ p = to_pt (x, y).
Proof.
  intros HL Hp.
  destruct (mode img) eqn:Hm.
  - rewrite find_outline_pixels_grey in HL by exact Hm.
    destruct (coords (width img) (height img)); [| discriminate].
    injection HL as <-. destruct Hp.
  - rewrite find_outline_pixels_filter in HL by congruence.
    injection HL as <-. cbn [app] in Hp. apply in_map_iff in Hp.
    destruct Hp as ([x y] & <- & Hin). apply filter_In in Hin.
    destruct Hin as [Hc Hd]. apply in_coords in Hc. cbn [fst snd] in Hd.
    exists x, y. repeat split; tauto.
  - rewrite find_outline_pixels_filter in HL by congruence.
    injection HL as <-. cbn [app] in Hp. apply in_map_iff in Hp.
    destruct Hp as ([x y] & <- & Hin). apply filter_In in Hin.
    destruct Hin as [Hc Hd]. apply in_coords in Hc. cbn [fst snd] in Hd.
    exists x, y. repeat split; tauto.
Qed.

Lemma in_segment_actions (a : Action) (x1 y1 : Z) (seg : list Pt) :
  In a (segment_actions x1 y1 seg) ->
  a = PressDown \/ a = Release
  \/ exists p, In p seg
               /\ (a = MoveTo (IZR (x1 + fst p)) (IZR (y1 + snd p))
                   \/ a = DragTo (IZR (x1 + fst p)) (IZR (y1 + snd p))).
Proof.
  destruct seg as [| first others]; [intros [] |].
  cbn [segment_actions stroke]. intros [<- | [<- | H]].
  - right. right. exists first. split; [now left | now left].
  - now left.
  - apply in_app_or in H. destruct H as [H | [<- | []]].
    + apply in_map_iff in H. destruct H as (p & <- & Hp).
      right. right. exists p. split; [now right | now right].
    + right. now left.
Qed.

(** The actuator calls of the outline branch under any oracle: at most
    the click on black, then the strokes of some of the traced
    segments. *)
Lemma draw_outline_style_actions (stop : Oracle) (P : Palette)
    (cps : list (Color * (Z * Z))) (x1 y1 : Z) (img : Image) (s : Trace) :
  exists pre segs,
    actions (snd (draw_outline_style stop P cps x1 y1 img s))
    = actions s ++ pre ++ flat_map (segment_actions x1 y1) segs
    /\ (forall a, In a pre -> exists c, a = SelectColor c)
    /\ forall seg p, In seg segs -> In p seg ->
         exists x y, (x < width img)%nat /\ (y < height img)%nat
                     /\ is_dark img x y = true /\ p = to_pt (x, y).
Proof.
  rewrite draw_outline_style_unfold.
  assert (Hnone : forall t, actions t = actions s ->
            exists pre segs,
              actions t = actions s ++ pre ++ flat_map (segment_actions x1 y1) segs
              /\ (forall a, In a pre -> exists c, a = SelectColor c)
              /\ forall seg p, In seg segs -> In p seg ->
                   exists x y, (x < width img)%nat /\ (y < height img)%nat
                               /\ is_dark img x y = true /\ p = to_pt (x, y)).
  { intros t Ht. exists [], []. cbn [app flat_map]. rewrite app_nil_r.
    split; [exact Ht | split; [intros a [] | intros seg p []]]. }
  destruct (find_outline_pixels img (coords (width img) (height img)) [])
    as [[| p0 outline] |] eqn:HL; cbn [snd].
  - apply Hnone. now apply actions_snoc_silent.
  - assert (Hs0 : actions (s ++ snd (find_closest_color P (0, 0, 0)%Z []))
                  = actions s)
      by (now rewrite actions_app, matcher_no_actions, app_nil_r).
    cbv zeta.
    destruct (closest P (0, 0, 0)%Z) as [c |].
    2:{ cbn [snd]. apply Hnone. now rewrite actions_snoc_silent. }
    destruct (position_of c cps) as [pos |].
    2:{ cbn [snd]. apply Hnone. now rewrite actions_snoc_silent. }
    destruct (trace_segments stop (p0 :: outline) (p0 :: outline) [] []
                ((s ++ snd (find_closest_color P (0, 0, 0)%Z []))
                 ++ [EAct (SelectColor c)])) as [r s2] eqn:Et.
    pose proof (trace_segments_actions stop (p0 :: outline) (p0 :: outline)
                  [] [] ((s ++ snd (find_closest_color P (0, 0, 0)%Z []))
                         ++ [EAct (SelectColor c)])) as Hact.
    destruct (trace_segments_well_formed stop (p0 :: outline)
                ((s ++ snd (find_closest_color P (0, 0, 0)%Z []))
                 ++ [EAct (SelectColor c)])) as (segs & Hsegs & Hwf & _).
    rewrite Et in Hact, Hsegs. cbn [fst snd] in Hact, Hsegs. subst r.
    destruct (draw_segments_prefix stop x1 y1 segs s2) as (j & Hj).
    exists [SelectColor c], (firstn j segs).
    split; [| split].
    + rewrite Hj, Hact, actions_app, Hs0. cbn [actions flat_map app].
      now rewrite <- app_assoc.
    + intros a [<- | []]. now exists c.
    + intros seg p Hseg Hp.
      apply (outline_pixels_dark img (p0 :: outline)); [exact HL |].
      assert (Hin : In seg segs).
      { rewrite <- (firstn_skipn j segs). apply in_or_app. now left. }
      rewrite Forall_forall in Hwf. destruct (Hwf seg Hin) as (_ & _ & Hi).
      now apply Hi.
  - apply Hnone. reflexivity.
Qed.

(** X14.  In outline style, at whatever moment Esc is pressed, if at all, the actuator calls
    are the initial move, the click on black, button presses and
    releases, and moves and drags to [(x1 + x, y1 + y)] for dark pixels
    [(x, y)] of the image: the strokes are drawn at one screen pixel per
    image pixel from the corner of the canvas, whatever the size of the
    canvas, and there is no click on the canvas. *)
Theorem outline_pointer_on_dark_pixels (stop : Oracle) (self : AutoDraw)
    (img : Image) (x1 y1 x2 y2 : Z) :
  processed_image self = Some img ->
  style self = Outline ->
  canvas self img = (x1, y1, x2, y2) ->
  forall a, In a (actions (snd (draw_image stop self []))) ->
    a = MoveTo (IZR x1) (IZR y1)
    \/ (exists c, a = SelectColor c)
    \/ a = PressDown \/ a = Release
    \/ exists x y : nat,
         (x < width img)%nat /\ (y < height img)%nat
         /\ is_dark img x y = true
         /\ (a = MoveTo (IZR (x1 + Z.of_nat x)) (IZR (y1 + Z.of_nat y))
             \/ a = DragTo (IZR (x1 + Z.of_nat x)) (IZR (y1 + Z.of_nat y))).
Proof.
  intros Himg Hstyle Hc a.
  rewrite draw_image_unfold, Himg, Hc.
  destruct ((width img =? 0)%nat || (height img =? 0)%nat); [intros [] |].
  rewrite Hstyle.
  destruct (draw_outline_style_actions stop (palette self)
              (color_positions self) x1 y1 img
              ([] ++ [EAct (MoveTo (IZR x1) (IZR y1))]))
    as (pre & segs & Hact & Hpre & Hsegs).
  destruct (draw_outline_style stop (palette self) (color_positions self)
              x1 y1 img ([] ++ [EAct (MoveTo (IZR x1) (IZR y1))]))
    as [f s1].
  rewrite handle_actions. cbn [snd] in Hact. rewrite Hact.
  cbn [app actions flat_map]. intros [<- | Hin]; [now left |].
  apply in_app_or in Hin. destruct Hin as [Hin | Hin].
  - right. left. now apply Hpre.
  - apply in_flat_map in Hin. destruct Hin as (seg & Hseg & Hin).
    apply in_segment_actions in Hin.
    destruct Hin as [-> | [-> | (p & Hp & Ha)]]; [tauto | tauto |].
    destruct (Hsegs seg p Hseg Hp) as (x & y & Hx & Hy & Hd & ->).
    do 4 right. exists x, y. cbn [to_pt fst snd] in Ha. tauto.
Qed.

Lemma outline_pointer_on_dark_pixels_witness :
  DragTo 1 0 = MoveTo (IZR 0) (IZR 0)
  \/ (exists c, DragTo 1 0 = SelectColor c)
  \/ DragTo 1 0 = PressDown \/ DragTo 1 0 = Release
  \/ exists x y : nat,
       (x < 4)%nat /\ (y < 1)%nat
       /\ is_dark (uniform ModeRGB 4 1 (0, 0, 0, 255)%Z) x y = true
       /\ (DragTo 1 0 = MoveTo (IZR (0 + Z.of_nat x)) (IZR (0 + Z.of_nat y))
           \/ DragTo 1 0 = DragTo (IZR (0 + Z.of_nat x)) (IZR (0 + Z.of_nat y))).
Proof.
  apply (outline_pointer_on_dark_pixels never black_row
           (uniform ModeRGB 4 1 (0, 0, 0, 255)%Z) 0 0 4 1);
    try reflexivity.
  rewrite black_row_run. cbn. do 4 right. now left.
Defined.

(** X13.  In outline style, when the colour that the matcher answers
    for black has no registered position (in particular when no position
    is registered at all), [draw_image] answers [False] and the pointer
    makes at most the initial move to the corner of the canvas: nothing
    is drawn. *)
Theorem outline_needs_black_position (stop : Oracle) (self : AutoDraw) :
  style self = Outline ->
  (forall c, closest (palette self) (0, 0, 0)%Z = Some c ->
             position_of c (color_positions self) = None) ->
  fst (draw_image stop self []) = false
  /\ (actions (snd (draw_image stop self [])) = []
      \/ exists x1 y1,
           actions (snd (draw_image stop self [])) = [MoveTo x1 y1]).
Proof.
  intros Hstyle Hpos. rewrite draw_image_unfold.
  destruct (processed_image self) as [img |]; [| split; [reflexivity | now left]].
  destruct (canvas self img) as [[[x1 y1] x2] y2].
  destruct ((width img =? 0)%nat || (height img =? 0)%nat);
    [split; [reflexivity | now left] |].
  rewrite Hstyle, draw_outline_style_unfold.
  destruct (find_outline_pixels img (coords (width img) (height img)) [])
    as [[| p0 outline] |].
  - split; [reflexivity |]. right. now exists (IZR x1), (IZR y1).
  - cbv zeta. destruct (closest (palette self) (0, 0, 0)%Z) as [c |] eqn:Ec.
    + rewrite (Hpos c eq_refl). cbn [handle ret fst snd].
      split; [reflexivity |]. right. exists (IZR x1), (IZR y1).
      rewrite actions_snoc_silent by reflexivity.
      now rewrite actions_app, matcher_no_actions.
    + cbn [handle ret fst snd].
      split; [reflexivity |]. right. exists (IZR x1), (IZR y1).
      rewrite actions_snoc_silent by reflexivity.
      now rewrite actions_app, matcher_no_actions.
  - split; [reflexivity |]. right. now exists (IZR x1), (IZR y1).
Qed.

Lemma outline_needs_black_position_witness :
  let self := mkAutoDraw (Some (uniform ModeRGB 4 1 (0, 0, 0, 255)%Z))
                [] Outline (Some (0, 0, 4, 1)%Z) [] (1920, 1080)%Z in
  fst (draw_image never self []) = false
  /\ (actions (snd (draw_image never self [])) = []
      \/ exists x1 y1,
           actions (snd (draw_image never self [])) = [MoveTo x1 y1]).
Proof.
  intros self. apply (outline_needs_black_position never self).
  - reflexivity.
  - intros c _. reflexivity.
Defined.

End OutlinePointer.

(* ------------------------------------------------------------------ *)
(** ** The command-line drawing loop *)
(* ------------------------------------------------------------------ *)

Section CommandLine.
Import PixelStyle Shape Order Draw Preprocess Samples.
Local Open Scope R_scope.

(** The loop of [SimpleAutoDraw.draw_image] leaves the events of the
    cell loop of the pixel style, and always answers [True]. *)
Lemma cli_draw_loop_cell (stop : Oracle) (pts : list Point) (s : Trace) :
  cli_draw_loop stop pts s = (true, snd (draw_cell_pixels stop pts s)).
Proof.
  revert s. induction pts as [| [x y] pts IH]; intros s; [reflexivity |].
  cbn [cli_draw_loop draw_cell_pixels]. unfold bind, poll, emit, ret.
  destruct (stop (length s)); [reflexivity |]. apply IH.
Qed.

Lemma cli_draw_image_unfold (stop : Oracle) (self : AutoDraw) (s : Trace) :
  cli_draw_image stop self s
  = match processed_image self with
    | None => (false, s)
    | Some img =>
        let '(x1, y1, x2, y2) := canvas self img in
        if ((width img =? 0) || (height img =? 0))%nat then (false, s)
        else
          (true,
           snd (draw_cell_pixels stop
                  (cli_pixels_to_draw x1 y1 (IZR (x2 - x1) / INR (width img))
                     (IZR (y2 - y1) / INR (height img)) img)
                  (s ++ [EAct (MoveTo (IZR x1) (IZR y1))])))
    end.
Proof.
  unfold cli_draw_image.
  destruct (processed_image self) as [img |]; [| reflexivity].
  destruct (canvas self img) as [[[x1 y1] x2] y2].
  destruct ((width img =? 0)%nat || (height img =? 0)%nat); [reflexivity |].
  unfold bind, emit. apply cli_draw_loop_cell.
Qed.

Lemma actions_point_events (pts : list Point) :
  actions (flat_map point_events pts) = pairs pts.
Proof. rewrite actions_flat_map. reflexivity. Qed.

(** X15.  The command-line program, when Esc is never pressed, succeeds
    and makes the initial move and then one move and one click for every
    pixel whose alpha is not 0, row by row; it never selects a colour. *)
Theorem cli_one_pair_per_pixel (self : AutoDraw) (img : Image)
    (x1 y1 x2 y2 : Z) :
  processed_image self = Some img ->
  canvas self img = (x1, y1, x2, y2) ->
  (0 < width img)%nat -> (0 < height img)%nat ->
  let pixels_to_draw :=
    cli_pixels_to_draw x1 y1 (IZR (x2 - x1) / INR (width img))
      (IZR (y2 - y1) / INR (height img)) img in
  cli_draw_image never self []
  = (true, EAct (MoveTo (IZR x1) (IZR y1))
           :: flat_map point_events pixels_to_draw)
  /\ actions (snd (cli_draw_image never self []))
     = MoveTo (IZR x1) (IZR y1) :: pairs pixels_to_draw
  /\ length (filter is_click (actions (snd (cli_draw_image never self []))))
     = length (filter (fun xy => negb (cli_skipped img xy))
                 (coords (width img) (height img)))
  /\ filter is_select (actions (snd (cli_draw_image never self []))) = [].
Proof.
  intros Himg Hc Hw Hh pts.
  rewrite cli_draw_image_unfold, Himg, Hc.
  replace ((width img =? 0)%nat || (height img =? 0)%nat) with false.
  2:{ symmetry. apply orb_false_iff. split; apply Nat.eqb_neq; lia. }
  fold pts. rewrite draw_cell_pixels_never. cbn [snd app].
  split; [reflexivity |].
  assert (Hact : actions (EAct (MoveTo (IZR x1) (IZR y1))
                          :: flat_map point_events pts)
                 = MoveTo (IZR x1) (IZR y1) :: pairs pts).
  { change (EAct (MoveTo (IZR x1) (IZR y1)) :: flat_map point_events pts)
      with ([EAct (MoveTo (IZR x1) (IZR y1))] ++ flat_map point_events pts).
    rewrite actions_app, actions_flat_map. reflexivity. }
  rewrite Hact. split; [reflexivity |].
  destruct (filter_pairs pts) as (H1 & _ & H3).
  cbn [filter is_click is_select]. rewrite H1, H3.
  split; [| reflexivity].
  unfold pts, cli_pixels_to_draw. now rewrite length_map.
Qed.

Lemma cli_one_pair_per_pixel_witness :
  cli_draw_image never one_black_pixel []
  = (true, EAct (MoveTo (IZR 0) (IZR 0))
           :: flat_map point_events
                (cli_pixels_to_draw 0 0 (IZR (1 - 0) / INR 1)
                   (IZR (1 - 0) / INR 1)
                   (uniform ModeRGB 1 1 (0, 0, 0, 255)%Z))).
Proof.
  apply (cli_one_pair_per_pixel one_black_pixel
           (uniform ModeRGB 1 1 (0, 0, 0, 255)%Z) 0 0 1 1).
  - reflexivity.
  - reflexivity.
  - cbn. lia.
  - cbn. lia.
Defined.

(** X16.  In the command-line program, at whatever moment Esc is pressed, if at all, the
    actuator calls made are an initial part of those of the uncancelled
    run and the answer is the same; when the key is pressed after [T]
    events, at most two actuator calls are made from then on. *)
Theorem cli_cancellation (self : AutoDraw) :
  (forall stop,
     prefix (actions (snd (cli_draw_image stop self [])))
       (actions (snd (cli_draw_image never self [])))
     /\ fst (cli_draw_image stop self []) = fst (cli_draw_image never self []))
  /\ (forall T,
        let t := snd (cli_draw_image (stop_after T) self []) in
        (count_act t <= count_act (firstn T t) + 2)%nat).
Proof.
  split.
  - intros stop. rewrite !cli_draw_image_unfold.
    destruct (processed_image self) as [img |];
      [| split; [now exists [] | reflexivity]].
    destruct (canvas self img) as [[[x1 y1] x2] y2].
    destruct ((width img =? 0)%nat || (height img =? 0)%nat);
      [split; [now exists [] | reflexivity] |].
    split; [| reflexivity]. cbn [snd].
    destruct (draw_cell_pixels_cut stop
                (cli_pixels_to_draw x1 y1 (IZR (x2 - x1) / INR (width img))
                   (IZR (y2 - y1) / INR (height img)) img)
                ([] ++ [EAct (MoveTo (IZR x1) (IZR y1))]))
      as (evs & rest & -> & -> & _).
    exists (actions rest). now rewrite app_assoc, actions_app.
  - intros T t. rewrite (count_total T t).
    apply Nat.add_le_mono_l. unfold t.
    assert (Hnil : (late T [] <= 2)%nat)
      by (unfold late; rewrite skipn_nil; cbn; lia).
    rewrite cli_draw_image_unfold.
    destruct (processed_image self) as [img |]; [| exact Hnil].
    destruct (canvas self img) as [[[x1 y1] x2] y2].
    destruct ((width img =? 0)%nat || (height img =? 0)%nat); [exact Hnil |].
    cbn [snd]. apply draw_cell_pixels_late.
    unfold late. cbn [app]. destruct T; cbn [skipn]; [cbn; lia |].
    rewrite skipn_nil. cbn. lia.
Qed.

Lemma cli_skipped_processed (b : bool) (img : Image) (xy : nat * nat) :
  mode img = ModeRGBA ->
  cli_skipped (cli_process_image b img) xy
  = let '(r, g, bl, a) := px img (fst xy) (snd xy) in
    (a =? 0)%Z || (b && near_white cli_white_threshold (r, g, bl, a)).
Proof.
  intros Hm. unfold cli_skipped, cli_process_image, mark_white, convert_rgba.
  destruct b; rewrite ?Hm; cbn [mode px]; rewrite ?Hm;
    destruct (px img (fst xy) (snd xy)) as [[[r g] bl] a].
  - destruct (near_white cli_white_threshold (r, g, bl, a));
      [now rewrite orb_true_r | now rewrite orb_false_r].
  - now rewrite orb_false_r.
Qed.

(** X17.  The command-line program, run on the result of its
    [process_image] for an RGBA image, clicks once for every pixel whose
    alpha is not 0 and, under [skip_white], that has a channel below
    240. *)
Theorem cli_drawn_pixels (b : bool) (self : AutoDraw) (img : Image) :
  mode img = ModeRGBA ->
  processed_image self = Some (cli_process_image b img) ->
  (0 < width img)%nat -> (0 < height img)%nat ->
  length (filter is_click (actions (snd (cli_draw_image never self []))))
  = length (filter (fun xy =>
                      let '(r, g, bl, a) := px img (fst xy) (snd xy) in
                      negb (a =? 0)%Z
                      && negb (b && (240 <=? r)%Z && (240 <=? g)%Z
                               && (240 <=? bl)%Z))
              (coords (width img) (height img))).
Proof.
  intros Hm Himg Hw Hh.
  assert (Ew : width (cli_process_image b img) = width img).
  { unfold cli_process_image, mark_white, convert_rgba.
    destruct b; rewrite ?Hm; reflexivity. }
  assert (Eh : height (cli_process_image b img) = height img).
  { unfold cli_process_image, mark_white, convert_rgba.
    destruct b; rewrite ?Hm; reflexivity. }
  rewrite cli_draw_image_unfold, Himg.
  destruct (canvas self (cli_process_image b img)) as [[[x1 y1] x2] y2].
  rewrite Ew, Eh.
  replace ((width img =? 0)%nat || (height img =? 0)%nat) with false.
  2:{ symmetry. apply orb_false_iff. split; apply Nat.eqb_neq; lia. }
  rewrite draw_cell_pixels_never. cbn [snd].
  rewrite actions_app, actions_point_events, filter_app, length_app.
  change (length (filter is_click
                    (actions ([] ++ [EAct (MoveTo (IZR x1) (IZR y1))]))))
    with 0%nat.
  cbn [Nat.add].
  destruct (filter_pairs (cli_pixels_to_draw x1 y1 (IZR (x2 - x1) / INR (width img))
                 (IZR (y2 - y1) / INR (height img)) (cli_process_image b img)))
    as (-> & _).
  unfold cli_pixels_to_draw. rewrite length_map, Ew, Eh.
  f_equal. apply filter_ext. intros xy.
  rewrite cli_skipped_processed by exact Hm.
  destruct (px img (fst xy) (snd xy)) as [[[r g] bl] a].
  unfold near_white, cli_white_threshold.
  rewrite negb_orb, !andb_assoc. reflexivity.
Qed.

Lemma cli_drawn_pixels_witness :
  let img := uniform ModeRGBA 2 2 (250, 250, 250, 255)%Z in
  let self := mkAutoDraw (Some (cli_process_image true img)) [] Pixel
                (Some (0, 0, 2, 2)%Z) [] (1920, 1080)%Z in
  length (filter is_click (actions (snd (cli_draw_image never self [])))) = 0%nat.
Proof.
  intros img self.
  rewrite (cli_drawn_pixels true self img); [reflexivity | reflexivity | reflexivity | |];
    cbn; lia.
Defined.

End CommandLine.

(* ------------------------------------------------------------------ *)
(** ** The weighted RGB distance of the colour helpers *)
(* ------------------------------------------------------------------ *)

Section ColorDistance.
Import ColorSpace ColorUtil.
Local Open Scope R_scope.

(** The weighted square under the root of [color_distance]. *)
Local Abbreviation wsq a b c := (a ^ 2 * 0.3 + b ^ 2 * 0.59 + c ^ 2 * 0.11).

Lemma wsq_nonneg (a b c : R) : 0 <= wsq a b c.
Proof.
  pose proof (pow2_ge_0 a). pose proof (pow2_ge_0 b). pose proof (pow2_ge_0 c).
  lra.
Qed.

Lemma wsq_zero (a b c : R) : wsq a b c = 0 -> a = 0 /\ b = 0 /\ c = 0.
Proof.
  intros H.
  pose proof (pow2_ge_0 a) as Ha. pose proof (pow2_ge_0 b) as Hb.
  pose proof (pow2_ge_0 c) as Hc.
  apply sq_sum3_zero. lra.
Qed.

Lemma IZR_sq (z : Z) : IZR (z ^ 2) = IZR z ^ 2.
Proof. now rewrite (pow_IZR z 2). Qed.

Lemma color_distance_eq (r1 g1 b1 r2 g2 b2 : Z) (t1 t2 : list Z) :
  color_distance (r1 :: g1 :: b1 :: t1) (r2 :: g2 :: b2 :: t2)
  = Some (sqrt (wsq (IZR r2 - IZR r1) (IZR g2 - IZR g1) (IZR b2 - IZR b1))).
Proof.
  unfold color_distance, channels.
  rewrite !IZR_sq, !minus_IZR.
  rewrite pow_half_defined by apply wsq_nonneg. reflexivity.
Qed.

Lemma channels_some (c : list Z) :
  (3 <= length c)%nat ->
  exists r g b t, c = r :: g :: b :: t.
Proof.
  destruct c as [| r [| g [| b t]]]; cbn [length]; try lia.
  intros _. now exists r, g, b, t.
Qed.

Lemma channels_none (c : list Z) :
  channels c = None <-> (length c < 3)%nat.
Proof.
  destruct c as [| r [| g [| b t]]]; cbn [length channels];
    (split; [intros H; try discriminate; lia | intros H; try reflexivity; lia]).
Qed.

(** X18.  [color_distance] is symmetric; it is infinite exactly when one
    of the colours has fewer than three channels; otherwise it is not
    negative, and it is zero exactly when the first three channels agree:
    a fourth channel, such as the alpha of a screenshot pixel, is
    ignored. *)
Theorem color_distance_properties (c1 c2 : list Z) :
  color_distance c1 c2 = color_distance c2 c1
  /\ (color_distance c1 c2 = None
      <-> (length c1 < 3)%nat \/ (length c2 < 3)%nat)
  /\ forall d, color_distance c1 c2 = Some d ->
       0 <= d /\ (d = 0 <-> channels c1 = channels c2).
Proof.
  split; [| split].
  - destruct (channels c1) as [[[r1 g1] b1] |] eqn:E1,
             (channels c2) as [[[r2 g2] b2] |] eqn:E2;
      unfold color_distance; rewrite E1, E2; try reflexivity.
    do 3 f_equal. rewrite !IZR_sq, !minus_IZR. ring.
  - rewrite <- !channels_none. unfold color_distance.
    destruct (channels c1) as [[[r1 g1] b1] |],
             (channels c2) as [[[r2 g2] b2] |];
      split; try discriminate; try tauto; intros [H | H]; discriminate.
  - intros d Hd.
    destruct c1 as [| r1 [| g1 [| b1 t1]]]; try discriminate.
    destruct c2 as [| r2 [| g2 [| b2 t2]]]; try discriminate.
    rewrite color_distance_eq in Hd. injection Hd as <-.
    split; [apply sqrt_pos |]. cbn [channels]. split.
    + intros H. apply sqrt_eq_0 in H; [| apply wsq_nonneg].
      apply wsq_zero in H. destruct H as (Hr & Hg & Hb).
      assert (r1 = r2) by (apply eq_IZR; lra).
      assert (g1 = g2) by (apply eq_IZR; lra).
      assert (b1 = b2) by (apply eq_IZR; lra).
      congruence.
    + intros H. injection H as -> -> ->.
      rewrite <- sqrt_0. f_equal. ring.
Qed.

Lemma color_distance_properties_witness :
  0 <= sqrt (wsq (IZR 0 - IZR 10) (IZR 0 - IZR 20) (IZR 0 - IZR 30))
  /\ (sqrt (wsq (IZR 0 - IZR 10) (IZR 0 - IZR 20) (IZR 0 - IZR 30)) = 0
      <-> channels [10; 20; 30; 255]%Z = channels [0; 0; 0]%Z).
Proof.
  apply (proj2 (proj2 (color_distance_properties [10; 20; 30; 255]%Z
                         [0; 0; 0]%Z))).
  apply color_distance_eq.
Defined.

Lemma lt_ext_spec (a b : R) : lt_ext (Some a) (Some b) = true <-> a < b.
Proof.
  cbn [lt_ext]. destruct (Rlt_dec a b); split; auto; discriminate.
Qed.

Lemma diff_from_average (x sum : Z) :
  Rabs (IZR x - IZR sum / 3) < 10 <-> (Z.abs (3 * x - sum) < 30)%Z.
Proof.
  replace (IZR x - IZR sum / 3) with (IZR (3 * x - sum) / 3)
    by (rewrite minus_IZR, mult_IZR; field).
  unfold Rdiv. rewrite Rabs_mult, (Rabs_pos_eq (/ 3)) by lra.
  rewrite <- abs_IZR. split.
  - intros H. apply lt_IZR. lra.
  - intros H. apply IZR_lt in H. lra.
Qed.

(** X20.  [is_gray_or_white] in integer terms: it holds of a colour with
    at least three channels exactly when all three exceed 240 or each
    channel, taken three times, differs from the sum of the three by less
    than 30; it holds of every grey [(v, v, v)] and of no shorter
    sequence. *)
Theorem is_gray_or_white_spec :
  (forall color, (length color < 3)%nat -> is_gray_or_white color = false)
  /\ (forall r g b rest,
        is_gray_or_white (r :: g :: b :: rest) = true
        <-> (240 < r /\ 240 < g /\ 240 < b)%Z
            \/ (Z.abs (2 * r - g - b) < 30 /\ Z.abs (2 * g - r - b) < 30
                /\ Z.abs (2 * b - r - g) < 30)%Z)
  /\ (forall v rest, is_gray_or_white (v :: v :: v :: rest) = true).
Proof.
  assert (S : forall r g b rest,
        is_gray_or_white (r :: g :: b :: rest) = true
        <-> (240 < r /\ 240 < g /\ 240 < b)%Z
            \/ (Z.abs (2 * r - g - b) < 30 /\ Z.abs (2 * g - r - b) < 30
                /\ Z.abs (2 * b - r - g) < 30)%Z).
  { intros r g b rest. unfold is_gray_or_white. cbn [channels].
    destruct ((240 <? r)%Z && (240 <? g)%Z && (240 <? b)%Z) eqn:W.
    - rewrite !andb_true_iff, !Z.ltb_lt in W. split; [intros _; left |]; tauto.
    - rewrite !andb_true_iff, !lt_ext_spec.
      rewrite !diff_from_average.
      replace (3 * r - (r + g + b))%Z with (2 * r - g - b)%Z by ring.
      replace (3 * g - (r + g + b))%Z with (2 * g - r - b)%Z by ring.
      replace (3 * b - (r + g + b))%Z with (2 * b - r - g)%Z by ring.
      assert (N : ~ (240 < r /\ 240 < g /\ 240 < b)%Z).
      { intros (H1 & H2 & H3). apply Z.ltb_lt in H1, H2, H3.
        rewrite H1, H2, H3 in W. discriminate. }
      tauto. }
  split; [| split; [exact S |]].
  - intros color H. apply channels_none in H.
    unfold is_gray_or_white. now rewrite H.
  - intros v rest. apply S. right. repeat split; lia.
Qed.

Lemma is_gray_or_white_spec_witness :
  is_gray_or_white [100; 105; 95; 255]%Z = true.
Proof.
  apply (proj1 (proj2 is_gray_or_white_spec)). right. cbn. lia.
Defined.

End ColorDistance.

(* ------------------------------------------------------------------ *)
(** ** The names of colours *)
(* ------------------------------------------------------------------ *)

Section ColorNames.
Import ColorSpace ColorUtil.
Import String.StringSyntax.
Local Open Scope R_scope.
Local Open Scope string_scope.

Lemma color_distance_tuple (c k : Color) :
  exists d, color_distance (tuple c) (tuple k) = Some d.
Proof.
  destruct c as [[r1 g1] b1], k as [[r2 g2] b2]. cbn [tuple].
  eexists. apply color_distance_eq.
Qed.

Lemma lt_ext_trans (a b : R) (m : option R) :
  a < b -> lt_ext (Some b) m = true -> lt_ext (Some a) m = true.
Proof.
  destruct m as [m |]; [| reflexivity]. rewrite !lt_ext_spec. lra.
Qed.

Lemma lt_ext_false (a : R) (m : option R) :
  lt_ext (Some a) m = false -> exists b, m = Some b /\ b <= a.
Proof.
  destruct m as [m |]; [| discriminate]. cbn [lt_ext].
  destruct (Rlt_dec a m); [discriminate |]. intros _. exists m. split; [reflexivity | lra].
Qed.

(** The loop over the table: either nothing beats [min_distance], or
    the answer is the first of the nearest entries. *)
Lemma closest_named_first (color : Color) (items : list (Color * String.string))
    (m : option R) (name0 : String.string) :
  (closest_named color items m name0 = (m, name0)
   /\ forall k n d, In (k, n) items ->
        color_distance (tuple color) (tuple k) = Some d ->
        lt_ext (Some d) m = false)
  \/ exists l1 k n l2 d,
       items = l1 ++ (k, n) :: l2
       /\ color_distance (tuple color) (tuple k) = Some d
       /\ closest_named color items m name0 = (Some d, n)
       /\ lt_ext (Some d) m = true
       /\ (forall k' n' d', In (k', n') l1 ->
             color_distance (tuple color) (tuple k') = Some d' -> d < d')
       /\ (forall k' n' d', In (k', n') l2 ->
             color_distance (tuple color) (tuple k') = Some d' -> d <= d').
Proof.
  revert m name0. induction items as [| [k0 n0] items IH]; intros m name0.
  - left. split; [reflexivity | intros k n d []].
  - cbn [closest_named].
    destruct (color_distance_tuple color k0) as (d0 & E0). rewrite E0.
    destruct (lt_ext (Some d0) m) eqn:L.
    + right.
      destruct (IH (Some d0) n0)
        as [[Hrun Hall]
           | (l1 & k & n & l2 & d & Hsplit & Ed & Hrun & Hlt & Hbefore & Hafter)].
      * exists [], k0, n0, items, d0.
        split; [reflexivity |]. split; [exact E0 |]. split; [exact Hrun |].
        split; [exact L |]. split; [intros k' n' d' [] |].
        intros k' n' d' H Ed'.
        specialize (Hall k' n' d' H Ed'). apply lt_ext_false in Hall.
        destruct Hall as (b & Hb & Hle). injection Hb as <-. exact Hle.
      * apply lt_ext_spec in Hlt.
        exists ((k0, n0) :: l1), k, n, l2, d.
        split; [now rewrite Hsplit |]. split; [exact Ed |].
        split; [exact Hrun |].
        split; [now apply (lt_ext_trans d d0) |].
        split; [| exact Hafter].
        intros k' n' d' [H | H] Ed'.
        -- injection H as <- <-. rewrite E0 in Ed'. injection Ed' as <-.
           exact Hlt.
        -- now apply (Hbefore k' n').
    + destruct (IH m name0)
        as [[Hrun Hall]
           | (l1 & k & n & l2 & d & Hsplit & Ed & Hrun & Hlt & Hbefore & Hafter)].
      * left. split; [exact Hrun |].
        intros k n d [H | H] Ed.
        -- injection H as <- <-. rewrite E0 in Ed. injection Ed as <-. exact L.
        -- now apply (Hall k n).
      * right. exists ((k0, n0) :: l1), k, n, l2, d.
        split; [now rewrite Hsplit |]. split; [exact Ed |].
        split; [exact Hrun |]. split; [exact Hlt |].
        split; [| exact Hafter].
        intros k' n' d' [H | H] Ed'.
        -- injection H as <- <-. rewrite E0 in Ed'. injection Ed' as <-.
           apply lt_ext_false in L. destruct L as (b & -> & Hb).
           apply lt_ext_spec in Hlt. lra.
        -- now apply (Hbefore k' n').
Qed.

(** X21.  [get_color_name] answers the name of the table for each of its
    fifteen colours.  For any other colour it takes the first of the
    nearest table entries under [color_distance]: the entries before it
    in the table are strictly farther and the entries after it are not
    nearer.  When that distance is below 30 the answer is the name of
    the entry followed by "-like", otherwise it is "RGB(r,g,b)" with the
    channels in decimal.  The default name "Custom Color" is never
    used. *)
Theorem get_color_name_spec :
  (forall c name, In (c, name) color_names -> get_color_name c = name)
  /\ (forall r g b,
        lookup (r, g, b) color_names = None ->
        exists l1 k n l2 d,
          color_names = l1 ++ (k, n) :: l2
          /\ color_distance [r; g; b] (tuple k) = Some d
          /\ (forall k' n' d', In (k', n') l1 ->
                color_distance [r; g; b] (tuple k') = Some d' -> d < d')
          /\ (forall k' n' d', In (k', n') l2 ->
                color_distance [r; g; b] (tuple k') = Some d' -> d <= d')
          /\ ((d < 30 /\ get_color_name (r, g, b) = String.append n "-like")
              \/ (30 <= d
                  /\ get_color_name (r, g, b)
                     = String.concat ""
                         ["RGB("; str r; ","; str g; ","; str b; ")"]))).
Proof.
  split.
  - intros c name Hin. unfold color_names in Hin. cbn [In] in Hin.
    repeat (destruct Hin as [Hin | Hin];
            [injection Hin as <- <-; reflexivity |]).
    destruct Hin.
  - intros r g b Hl. unfold get_color_name. rewrite Hl.
    destruct (closest_named_first (r, g, b) color_names None "Custom Color")
      as [[_ Hall]
         | (l1 & k & n & l2 & d & Hsplit & Ed & Hrun & _ & Hbefore & Hafter)].
    + destruct (color_distance_tuple (r, g, b) (0, 0, 0)%Z) as (d & Ed).
      specialize (Hall (0, 0, 0)%Z "Black" d (or_introl eq_refl) Ed).
      discriminate.
    + exists l1, k, n, l2, d. rewrite Hrun. cbn [tuple] in *.
      split; [exact Hsplit | split; [exact Ed |]].
      split; [exact Hbefore | split; [exact Hafter |]].
      cbn [lt_ext]. destruct (Rlt_dec d 30); [left | right]; split;
        try reflexivity; lra.
Qed.

(** A split of a list whose head is known. *)
Lemma split_head {A : Type} (x y : A) (l l1 l2 : list A) :
  x :: l = l1 ++ y :: l2 ->
  (l1 = [] /\ y = x /\ l2 = l) \/ (In x l1 /\ In y l).
Proof.
  destruct l1 as [| z l1]; cbn [app]; intros H; injection H as -> ->.
  - left. repeat split.
  - right. split; [now left | apply in_or_app; right; now left].
Qed.

Lemma sqrt_lt_inv (x y : R) : 0 <= y -> y <= x -> ~ sqrt x < sqrt y.
Proof.
  intros Hy Hxy H. apply sqrt_le_1_alt in Hxy. lra.
Qed.

Lemma get_color_name_spec_witness :
  get_color_name (128, 0, 128)%Z = "Purple"
  /\ color_distance [0; 0; 64]%Z [0; 0; 0]%Z
     = color_distance [0; 0; 64]%Z [0; 0; 128]%Z
  /\ get_color_name (0, 0, 64)%Z = "Black-like".
Proof.
  destruct get_color_name_spec as [Htable Hother].
  split.
  { apply (Htable (128, 0, 128)%Z "Purple").
    unfold color_names. cbn [In]. do 13 right. left. reflexivity. }
  split.
  { rewrite !color_distance_eq. do 2 f_equal. lra. }
  destruct (Hother 0 0 64 eq_refl)%Z
    as (l1 & k & n & l2 & d & Hsplit & Ed & Hbefore & _ & Hname).
  unfold color_names in Hsplit. apply split_head in Hsplit.
  destruct Hsplit as [(_ & E & _) | [Hblack Hin]].
  - injection E as -> ->. cbn [tuple] in Ed.
    rewrite color_distance_eq in Ed. injection Ed as <-.
    destruct Hname as [[_ Hn] | [Hd _]]; [exact Hn |].
    exfalso. revert Hd. apply Rlt_not_le.
    apply Rlt_le_trans with (sqrt (30 ^ 2));
      [apply sqrt_lt_1_alt; lra | rewrite sqrt_pow2; lra].
  - exfalso.
    specialize (Hbefore _ _ _ Hblack (color_distance_eq _ _ _ _ _ _ [] [])).
    cbn [In] in Hin.
    repeat (destruct Hin as [Hin | Hin];
      [injection Hin as <- <-; cbn [tuple] in Ed;
       rewrite color_distance_eq in Ed; injection Ed as <-;
       revert Hbefore; apply sqrt_lt_inv; lra |]).
    destruct Hin.
Defined.
End ColorNames.

(* ------------------------------------------------------------------ *)
(** ** Pixels that the outline style leaves out *)
(* ------------------------------------------------------------------ *)

Section IsolatedPixels.
Import OutlineStyle OutlineShape Order.

Lemma adjacent_sym (p q : Pt) : adjacent p q -> adjacent q p.
Proof.
  unfold adjacent, directions.
  set (dx := (fst q - fst p)%Z). set (dy := (snd q - snd p)%Z).
  replace (fst p - fst q)%Z with (- dx)%Z by (unfold dx; lia).
  replace (snd p - snd q)%Z with (- dy)%Z by (unfold dy; lia).
  cbn [In]. intros H.
  repeat (destruct H as [H | H]; [injection H as <- <-; cbn; tauto |]).
  destruct H.
Qed.

(** In a chain of at least two pixels every pixel has a neighbour. *)
Lemma chain_neighbour (seg : list Pt) (p : Pt) :
  (2 <= length seg)%nat -> chain seg -> In p seg ->
  exists q, In q seg /\ adjacent p q.
Proof.
  induction seg as [| a seg IH]; [intros _ _ [] |].
  destruct seg as [| b seg]; [cbn; lia |].
  intros _ [Hab Hch] [<- | Hin].
  - exists b. split; [right; now left | exact Hab].
  - destruct seg as [| c seg].
    + destruct Hin as [<- | []]. exists a.
      split; [now left | now apply adjacent_sym].
    + destruct (IH ltac:(cbn; lia) Hch Hin) as (q & Hq & Hadj).
      exists q. split; [now right | exact Hadj].
Qed.

(** X23.  An outline pixel none of whose eight neighbours is an outline
    pixel is never part of a traced segment, at whatever moment Esc is pressed, if at all: the
    outline style does not draw isolated dark pixels. *)
Theorem outline_isolated_pixel_skipped (stop : Oracle) (outline : list Pt)
    (s : Trace) (p : Pt) :
  (forall q, In q outline -> ~ adjacent p q) ->
  exists segs,
    fst (trace_segments stop outline outline [] [] s) = Some segs
    /\ forall seg, In seg segs -> ~ In p seg.
Proof.
  intros Hiso.
  destruct (trace_segments_well_formed stop outline s)
    as (segs & Hrun & Hwf & _).
  exists segs. split; [exact Hrun |].
  intros seg Hseg Hp. rewrite Forall_forall in Hwf.
  destruct (Hwf seg Hseg) as (Hlen & Hch & Hincl).
  destruct (chain_neighbour seg p Hlen Hch Hp) as (q & Hq & Hadj).
  apply (Hiso q); [now apply Hincl | exact Hadj].
Qed.

Lemma outline_isolated_pixel_skipped_witness :
  exists segs,
    fst (trace_segments never [(0, 0); (1, 0); (5, 5)]%Z
           [(0, 0); (1, 0); (5, 5)]%Z [] [] []) = Some segs
    /\ forall seg, In seg segs -> ~ In (5, 5)%Z seg.
Proof.
  apply (outline_isolated_pixel_skipped never [(0, 0); (1, 0); (5, 5)]%Z []
           (5, 5)%Z).
  intros q [<- | [<- | [<- | []]]]; unfold adjacent, directions; cbn;
    intros H; repeat (destruct H as [H | H]; [discriminate |]); exact H.
Defined.

End IsolatedPixels.

(* ------------------------------------------------------------------ *)
(** ** The order of the colours *)
(* ------------------------------------------------------------------ *)

Section ColourOrder.
Import ColorSpace Matcher PixelStyle Shape Order Draw Samples.

(** X24.  When the palette is not empty and Esc is never pressed, the
    colours selected by a pixel drawing are, in order, the result of
    [sorted] (by channel sum) on the distinct colours that the matcher
    answers for the visible pixels, taken in the order in which the
    row-by-row scan first meets them.  The colours are then entries of
    the palette, whose channels are plain integers. *)
Theorem pixel_colour_order (self : AutoDraw) (img : Image) :
  palette self <> [] ->
  processed_image self = Some img ->
  style self = Pixel ->
  (0 < width img)%nat -> (0 < height img)%nat ->
  exists cs : list Color,
    map Some cs
    = first_seen []
        (map (fun xy => closest (palette self)
                          (pixel_color img (fst xy) (snd xy)))
           (visible_pixels img))
    /\ selected_colors (actions (snd (draw_image never self [])))
       = sorted color_sum cs.
Proof. intros _. apply draw_image_pixel_colours. Qed.

Lemma pixel_colour_order_witness :
  exists cs : list Color,
    cs = [(200, 200, 200); (100, 100, 0)]%Z
    /\ map Some cs
       = first_seen []
           (map (fun xy => closest [(200, 200, 200); (100, 100, 0)]%Z
                             (pixel_color two_tone_image (fst xy) (snd xy)))
              (visible_pixels two_tone_image))
    /\ selected_colors (actions (snd (draw_image never two_tone [])))
       = sorted color_sum cs
    /\ sorted color_sum cs = [(100, 100, 0); (200, 200, 200)]%Z.
Proof.
  destruct (pixel_colour_order two_tone two_tone_image)
    as (cs & Hcs & Hsel).
  - discriminate.
  - reflexivity.
  - reflexivity.
  - cbn. lia.
  - cbn. lia.
  - exists cs.
    assert (E : cs = [(200, 200, 200); (100, 100, 0)]%Z).
    { pose proof (eq_trans Hcs two_tone_keys) as Hk.
      destruct cs as [| c1 [| c2 [| c3 cs]]]; try discriminate Hk.
      injection Hk as -> ->. reflexivity. }
    split; [exact E |].
    split; [exact Hcs |].
    split; [exact Hsel |].
    rewrite E. reflexivity.
Defined.

End ColourOrder.
